(** * BackLine: tour settlement and finance export

    A shallow embedding of the settlement arithmetic of
    [src/app/tours/[tourId]/settlement/page.tsx] and of
    [src/app/api/tours/[tourId]/finance-export/route.ts].

    JavaScript numbers are IEEE-754 binary64 values, so they are modelled by
    Rocq's primitive [float]; every arithmetic operator of the source is the
    corresponding primitive operator.  Records fetched from the data store keep
    the field names of the TypeScript types and [number | null] is
    [option float].  The dictionaries of cut records are object literals;
    they are modelled with the members they inherit from [Object.prototype]
    (see [objectGet] and [Page.getCut]). *)

From Stdlib Require Import ZArith List Bool Lia String Ascii Floats Uint63 Reals Lra.
From stdpp Require Import base list gmap strings.

#[local] Set Warnings "-inexact-float".

#[local] Arguments SpecFloat.iter_pos {A} f n x.

(** ** JavaScript numbers *)

Module JS.

(** [Number.EPSILON], the gap between 1 and the next double. *)
Definition Number_EPSILON : float := 0x1p-52%float.

(** The double holding the integer [z] (exact for [|z| < 2^53]). *)
Definition Z2F (z : Z) : float :=
  if (z <? 0)%Z then (- of_uint63 (Uint63.of_Z (- z)))%float
  else of_uint63 (Uint63.of_Z z).

(** The integer part (floor) of a finite double; it is the value itself
    when the double is integral. *)
Definition F2Z (x : float) : Z :=
  match Prim2SF x with
  | S754_finite s m e => Z.shiftl (cond_Zopp s (Zpos m)) e
  | _ => 0%Z
  end.

(** [Math.round]: the integral double closest to [x], ties towards
    [+Infinity]; NaN, the infinities and the zeros are returned unchanged,
    and a negative argument that rounds to zero gives [-0].  The value is
    [floor (x + 1/2)], computed exactly on the mantissa and exponent. *)
Definition Math_round (x : float) : float :=
  match Prim2SF x with
  | S754_finite s m e =>
      if (0 <=? e)%Z then x
      else
        let n := ((cond_Zopp s (Zpos m) * 2 + 2 ^ (- e)) / 2 ^ (- e + 1))%Z in
        if (n =? 0)%Z then (if s then neg_zero else zero) else Z2F n
  | _ => x
  end.

Definition Math_abs (x : float) : float := abs x.

(** [Number.isFinite] on a number. *)
Definition Number_isFinite (x : float) : bool := is_finite x.

(** [a ?? b] where [a] is a nullable value. *)
Definition nullish {A} (a : option A) (b : A) : A :=
  match a with Some v => v | None => b end.

(** Truthiness of a [string | null] value. *)
Definition truthy_string (s : option string) : option string :=
  match s with
  | Some EmptyString => None
  | Some v => Some v
  | None => None
  end.

(** *** Object literals used as dictionaries

    Both files keep the cut records in an object literal [{}], whose
    prototype is [Object.prototype].  Reading a key that holds no entry
    gives the member of [Object.prototype] of that name when there is one,
    and [undefined] otherwise.  An assignment creates an entry, except for
    the key [__proto__]: that member is an accessor, whose setter ignores a
    number or a string and installs an object as the new prototype, and
    whose getter returns the prototype. *)

(** The property names of [Object.prototype] (ECMAScript 20.1.3 and B.2.2,
    as in browsers and in Node.js). *)
Definition objectPrototypeKeys : list string :=
  ["constructor"; "hasOwnProperty"; "isPrototypeOf"; "propertyIsEnumerable";
   "toLocaleString"; "toString"; "valueOf"; "__proto__";
   "__defineGetter__"; "__defineSetter__"; "__lookupGetter__"; "__lookupSetter__"]%string.

Definition inheritedKey (key : string) : bool :=
  existsb (String.eqb key) objectPrototypeKeys.

(** What [dict[key]] gives in a dictionary of numbers or of strings: an
    entry, an object inherited from [Object.prototype] (one of its methods,
    or [Object.prototype] itself for [__proto__]), or [undefined]. *)
Inductive Property (A : Type) :=
| Own (a : A)
| Inherited
| Undefined.

Arguments Own {A} a.
Arguments Inherited {A}.
Arguments Undefined {A}.

(** [dict[key] = a] for a number or a string [a]. *)
Definition objectSet {A} (key : string) (a : A) (entries : gmap string A) : gmap string A :=
  if String.eqb key "__proto__" then entries else <[key := a]> entries.

(** [dict[key]] after such assignments. *)
Definition objectGet {A} (entries : gmap string A) (key : string) : Property A :=
  if String.eqb key "__proto__" then Inherited
  else match entries !! key with
       | Some a => Own a
       | None => if inheritedKey key then Inherited else Undefined
       end.

(** Truthiness of a [number | null] value: null, the zeros and NaN are
    falsy. *)
Definition truthy_number (x : option float) : bool :=
  match x with
  | Some v => negb (v =? 0)%float && (v =? v)%float
  | None => false
  end.

End JS.

Export JS.

Notation "a ?? b" := (nullish a b) (at level 72, right associativity).

(** ** Rows of the data store *)

Inductive Role := owner | manager | member.

Inductive EntryType := income | expense.

Record BandMember := {
  bm_id : string;
  bm_user_id : string;
  bm_member_name : string;
  bm_role : Role;
  bm_is_active : bool
}.

Record CutRow := {
  cut_id : string;
  band_member_id : option string;
  cut_percent : option float;
  percent : option float
}.

Record FinanceSettingsRow := {
  savings_percent : option float;
  manager_percent : option float;
  agent_percent : option float
}.

Record LedgerRow := {
  entry_type : EntryType;
  category : string;
  amount_cents : float
}.

(** The figures both files derive from the totals and the band settings. *)
Record Settlement := {
  managerFeeCents : float;
  agentFeeCents : float;
  grossFeesCents : float;
  netAfterFeesAndExpensesCents : float;
  savingsAmountCents : float;
  distributableNetCents : float
}.

(** ** The settlement page ([settlement/page.tsx]) *)

Module Page.

Record SettlementMemberRow := {
  cutId : option string;
  bandMemberId : string;
  userId : string;
  memberName : string;
  email : option string;
  role : Role;
  cutPercent : float
}.

Definition round2 (n : float) : float :=
  (Math_round ((n + Number_EPSILON) * 100) / 100)%float.

Definition makeEqualSplits (count : Z) : list float :=
  if (count <=? 0)%Z then []
  else
    let base := round2 (100 / Z2F count)%float in
    let splits := replicate (Z.to_nat count) base in
    let diff := round2 (100 - foldl PrimFloat.add 0%float splits)%float in
    <[Z.to_nat (count - 1) :=
        round2 (nth (Z.to_nat (count - 1)) splits nan + diff)%float]> splits.

(** Lines 84-92: the derived figures of the component. *)
Definition settlement
    (totalIncomeCents totalExpenseCents savingsPercent managerPercent agentPercent : float)
    : Settlement :=
  let managerFeeCents := Math_round (totalIncomeCents * (managerPercent / 100))%float in
  let agentFeeCents := Math_round (totalIncomeCents * (agentPercent / 100))%float in
  let grossFeesCents := (managerFeeCents + agentFeeCents)%float in
  let netAfterFeesAndExpensesCents :=
    (totalIncomeCents - grossFeesCents - totalExpenseCents)%float in
  let savingsAmountCents :=
    if (0 <? netAfterFeesAndExpensesCents)%float
    then Math_round (netAfterFeesAndExpensesCents * (savingsPercent / 100))%float
    else 0%float in
  let distributableNetCents := (netAfterFeesAndExpensesCents - savingsAmountCents)%float in
  {| managerFeeCents := managerFeeCents;
     agentFeeCents := agentFeeCents;
     grossFeesCents := grossFeesCents;
     netAfterFeesAndExpensesCents := netAfterFeesAndExpensesCents;
     savingsAmountCents := savingsAmountCents;
     distributableNetCents := distributableNetCents |}.

(** Lines 94-99. *)
Definition totalCuts (rows : list SettlementMemberRow) : float :=
  round2 (foldl (fun sum row =>
                   (sum + (if Number_isFinite (cutPercent row)
                           then cutPercent row else 0))%float) 0%float rows).

Definition cutsValid (rows : list SettlementMemberRow) : bool :=
  (Math_abs (totalCuts rows - 100) <=? 0.01)%float.


(** Lines 213-220: the ledger totals. *)
Definition ledgerTotals (ledger : list LedgerRow) : float * float :=
  foldl (fun '(inc, expn) row =>
           match entry_type row with
           | income => ((inc + amount_cents row)%float, expn)
           | expense => (inc, (expn + amount_cents row)%float)
           end) (0%float, 0%float) ledger.

(** Lines 237-242: the dictionary of cut rows by member id.  It is an
    object literal whose values are objects, so a record keyed [__proto__]
    does not become an entry: it becomes the prototype of the dictionary.
    The state of the dictionary is its entries and that prototype ([None]
    while it is still [Object.prototype]). *)
Record CutDict := {
  entries : gmap string CutRow;
  prototype : option CutRow
}.

(** [cutByMemberId[key] = c]. *)
Definition setCut (key : string) (c : CutRow) (dict : CutDict) : CutDict :=
  if String.eqb key "__proto__"
  then {| entries := entries dict; prototype := Some c |}
  else {| entries := <[key := c]> (entries dict); prototype := prototype dict |}.

Definition cutByMemberId (cuts : list CutRow) : CutDict :=
  foldl (fun acc c =>
           match truthy_string (band_member_id c) with
           | Some id => setCut id c acc
           | None => acc
           end) {| entries := ∅; prototype := None |} cuts.

(** What [cutByMemberId[member.id]] gives: a cut row, or some other value,
    of which the page uses the truthiness only (it has no [cut_percent],
    no [percent] and no [id]). *)
Inductive Found :=
| FoundRow (c : CutRow)
| FoundOther (truthy : bool).

(** A cut row that is the prototype of the dictionary lends it its four
    fields (the columns selected at line 227); the result is the truthiness
    of the field. *)
Definition inheritedField (c : CutRow) (key : string) : option bool :=
  if String.eqb key "id" then Some (negb (String.eqb (cut_id c) ""))
  else if String.eqb key "band_member_id"
  then Some (match truthy_string (band_member_id c) with Some _ => true | None => false end)
  else if String.eqb key "cut_percent" then Some (truthy_number (cut_percent c))
  else if String.eqb key "percent" then Some (truthy_number (percent c))
  else None.

(** [cutByMemberId[key]]: the prototype for [__proto__]; else the entry;
    else a field of the cut row that is the prototype; else the member of
    [Object.prototype] of that name, an object; else [undefined]. *)
Definition getCut (dict : CutDict) (key : string) : Found :=
  if String.eqb key "__proto__" then
    match prototype dict with
    | Some c => FoundRow c
    | None => FoundOther true
    end
  else
    match entries dict !! key with
    | Some c => FoundRow c
    | None =>
        match prototype dict ≫= (fun c => inheritedField c key) with
        | Some truthy => FoundOther truthy
        | None => FoundOther (inheritedKey key)
        end
    end.

(** Lines 244-261: the rows shown for the members.  For a truthy value
    that is not a cut row, [c.cut_percent ?? c.percent ?? 0] is 0 and
    [c?.id ?? null] is null.  The dictionary of emails is given by its
    entries, keyed by user id: the field [email] is a [string | null], which
    cannot hold the object a user id naming a member of [Object.prototype]
    would read, so the email is exact for the other user ids only; it plays
    no part in the percentages. *)
Definition nextRows (emailByUserId : gmap string string)
    (members : list BandMember) (cuts : list CutRow) : list SettlementMemberRow :=
  let byId := cutByMemberId cuts in
  let equalSplits := makeEqualSplits (Z.of_nat (length members)) in
  imap (fun index member =>
          let c := getCut byId (bm_id member) in
          let cutPercent :=
            match c with
            | FoundRow c => cut_percent c ?? (percent c ?? 0%float)
            | FoundOther true => 0%float
            | FoundOther false => (equalSplits !! index) ?? 0%float
            end in
          {| cutId := match c with FoundRow c => Some (cut_id c) | FoundOther _ => None end;
             bandMemberId := bm_id member;
             userId := bm_user_id member;
             memberName := bm_member_name member;
             email := emailByUserId !! bm_user_id member;
             role := bm_role member;
             cutPercent := cutPercent |}) members.

(** Lines 437 and 489: the payout shown for a row. *)
Definition payoutCents (distributableNetCents : float) (row : SettlementMemberRow) : float :=
  Math_round (distributableNetCents * (cutPercent row / 100))%float.

(** Lines 454-463 and 503-512: editing the cut of one member. *)
Definition setCutPercent (bandMemberId' : string) (next : float)
    (prev : list SettlementMemberRow) : list SettlementMemberRow :=
  (fun r =>
     if String.eqb (bandMemberId r) bandMemberId'
     then {| cutId := cutId r; bandMemberId := bandMemberId r; userId := userId r;
             memberName := memberName r; email := email r; role := role r;
             cutPercent := if Number_isFinite next then next else 0%float |}
     else r) <$> prev.

(** *** Saving the cuts (lines 270-323) *)

Record CutPayload := {
  p_id : option string;
  p_tour_id : string;
  p_band_member_id : string;
  p_cut_percent : float;
  p_percent : float;
  p_label : string;
  p_is_active : bool
}.

Record PageState := {
  tourId : option string;
  canEdit : bool;
  rows : list SettlementMemberRow;
  status : option string;
  saving : bool
}.

Definition with_status (st : PageState) (s : option string) : PageState :=
  {| tourId := tourId st; canEdit := canEdit st; rows := rows st;
     status := s; saving := saving st |}.

Definition with_saving (st : PageState) (b : bool) : PageState :=
  {| tourId := tourId st; canEdit := canEdit st; rows := rows st;
     status := status st; saving := b |}.

Definition with_rows (st : PageState) (rs : list SettlementMemberRow) : PageState :=
  {| tourId := tourId st; canEdit := canEdit st; rows := rs;
     status := status st; saving := saving st |}.

Definition payloadOf (tour : string) (row : SettlementMemberRow) : CutPayload :=
  {| p_id := cutId row;
     p_tour_id := tour;
     p_band_member_id := bandMemberId row;
     p_cut_percent := round2 (cutPercent row);
     p_percent := round2 (cutPercent row);
     p_label := email row ?? memberName row;
     p_is_active := true |}.

(** What [saveCuts] does up to its request to the data store. *)
Inductive SaveStep :=
| Ignored
| Rejected (st' : PageState)
| Upsert (st' : PageState) (payload : list CutPayload).

Definition saveCuts (st : PageState) : SaveStep :=
  match truthy_string (tourId st) with
  | None => Ignored
  | Some tour =>
      if negb (canEdit st) then Ignored
      else
        let st := with_status st None in
        if negb (cutsValid (rows st))
        then Rejected (with_status st (Some "Cuts must total 100.00% before saving."%string))
        else if existsb (fun r => (cutPercent r <? 0)%float) (rows st)
        then Rejected (with_status st (Some "Cut percentages must be 0 or greater."%string))
        else Upsert (with_saving st true) (payloadOf tour <$> rows st)
  end.

(** The answer of the data store to the upsert. *)
Inductive UpsertResult :=
| UpsertError (message : string)
| UpsertSaved (saved : list CutRow).

(** Lines 308-312: the dictionary of record ids by member id, an object
    literal whose values are strings. *)
Definition idByMember (saved : list CutRow) : gmap string string :=
  foldl (fun acc c =>
           match truthy_string (band_member_id c) with
           | Some id => objectSet id (cut_id c) acc
           | None => acc
           end) ∅ saved.

(** Line 317: [idByMember[r.bandMemberId] ?? r.cutId].  When the lookup
    gives an object inherited from [Object.prototype], the row would hold
    that object as its [cutId]; the field has type [string | null] here as
    in the source, so the model has no row for it and gives [None]. *)
Definition cutIdAfter (ids : gmap string string) (r : SettlementMemberRow)
    : option (option string) :=
  match objectGet ids (bandMemberId r) with
  | Own i => Some (Some i)
  | Undefined => Some (cutId r)
  | Inherited => None
  end.

(** Lines 302-322: the continuation of [saveCuts] after the request. *)
Definition saveCutsDone (st : PageState) (res : UpsertResult) : option PageState :=
  match res with
  | UpsertError message =>
      Some (with_status (with_saving st false)
              (Some ("Error saving cuts: " ++ message)%string))
  | UpsertSaved saved =>
      let ids := idByMember saved in
      rows' ← mapM (fun r =>
                      (fun i => {| cutId := i;
                                   bandMemberId := bandMemberId r; userId := userId r;
                                   memberName := memberName r; email := email r;
                                   role := role r; cutPercent := cutPercent r |})
                        <$> cutIdAfter ids r) (rows st);
      Some (with_status (with_saving (with_rows st rows') false)
              (Some "Cuts saved."%string))
  end.


(** *** The export button (lines 325-377) *)

(** The double quote character. *)
Definition dquote : ascii := "034"%char.

(** Canonical form of a character under the [i] flag: the ASCII letters
    lose their case, every other character only matches itself. *)
Definition foldCase (c : ascii) : ascii :=
  let n := nat_of_ascii c in
  if (65 <=? n)%nat && (n <=? 90)%nat then ascii_of_nat (n + 32) else c.

(** The rest of [s] after the literal [pat], compared without case. *)
Fixpoint matchLiteral (pat s : string) : option string :=
  match pat, s with
  | EmptyString, _ => Some s
  | String p pat', String c s' =>
      if Ascii.eqb (foldCase p) (foldCase c) then matchLiteral pat' s' else None
  | String _ _, EmptyString => None
  end.

(** The longest prefix without a double quote, and what follows it. *)
Fixpoint takeUnquoted (s : string) : string * string :=
  match s with
  | EmptyString => (EmptyString, EmptyString)
  | String c s' =>
      if Ascii.eqb c dquote then (EmptyString, s)
      else let '(name, rest) := takeUnquoted s' in (String c name, rest)
  end.

(** A match of the pattern of line 327 (the word filename, an equals sign,
    and a non-empty quoted group) that starts at the head of [s]: the group
    is greedy, so it takes every character up to the next quote. *)
Definition matchHere (s : string) : option string :=
  match matchLiteral "filename=" s with
  | Some (String q s') =>
      if Ascii.eqb q dquote then
        match takeUnquoted s' with
        | (String c name, String _ _) => Some (String c name)
        | _ => None
        end
      else None
  | _ => None
  end.

(** The leftmost match in [s]. *)
Fixpoint matchFilename (s : string) : option string :=
  match matchHere s with
  | Some name => Some name
  | None =>
      match s with
      | EmptyString => None
      | String _ s' => matchFilename s'
      end
  end.

(** Lines 325-329. *)
Definition filenameFromContentDisposition (value : option string) : option string :=
  match truthy_string value with
  | None => None
  | Some value => matchFilename value
  end.

(** Lines 363-365: the name the download is saved under. *)
Definition downloadFileName (contentDisposition : option string) (todayIso : string) : string :=
  filenameFromContentDisposition contentDisposition
    ?? ("tour-finances-" ++ todayIso ++ ".xlsx")%string.

(** Lines 438 and 490: the member name, else the email, else a fixed word. *)
Definition memberLabel (row : SettlementMemberRow) : string :=
  truthy_string (Some (memberName row))
    ?? (truthy_string (email row) ?? "Member"%string).

End Page.

(** ** The spreadsheet export ([finance-export/route.ts]) *)

Module FinanceExport.

Definition round2 (n : float) : float :=
  (Math_round ((n + Number_EPSILON) * 100) / 100)%float.

Definition makeEqualSplits (count : Z) : list float :=
  if (count <=? 0)%Z then []
  else
    let base := round2 (100 / Z2F count)%float in
    let splits := replicate (Z.to_nat count) base in
    let diff := round2 (100 - foldl PrimFloat.add 0%float splits)%float in
    <[Z.to_nat (count - 1) :=
        round2 (nth (Z.to_nat (count - 1)) splits nan + diff)%float]> splits.

(** Lines 226-233, without the per-day and per-category sums. *)
Definition ledgerTotals (entries : list LedgerRow) : float * float :=
  foldl (fun '(totalIncomeCents, totalExpenseCents) entry =>
           match entry_type entry with
           | income => ((totalIncomeCents + amount_cents entry)%float, totalExpenseCents)
           | expense => (totalIncomeCents, (totalExpenseCents + amount_cents entry)%float)
           end) (0%float, 0%float) entries.

(** Lines 235-246. *)
Definition settlement (totalIncomeCents totalExpenseCents : float)
    (finance : option FinanceSettingsRow) : Settlement :=
  let managerPercent := (finance ≫= manager_percent) ?? 0%float in
  let agentPercent := (finance ≫= agent_percent) ?? 0%float in
  let managerFeeCents := Math_round (totalIncomeCents * (managerPercent / 100))%float in
  let agentFeeCents := Math_round (totalIncomeCents * (agentPercent / 100))%float in
  let grossFeesCents := (managerFeeCents + agentFeeCents)%float in
  let netAfterFeesAndExpensesCents :=
    (totalIncomeCents - grossFeesCents - totalExpenseCents)%float in
  let savingsPercent := (finance ≫= savings_percent) ?? 0%float in
  let savingsAmountCents :=
    if (0 <? netAfterFeesAndExpensesCents)%float
    then Math_round (netAfterFeesAndExpensesCents * (savingsPercent / 100))%float
    else 0%float in
  let distributableNetCents := (netAfterFeesAndExpensesCents - savingsAmountCents)%float in
  {| managerFeeCents := managerFeeCents;
     agentFeeCents := agentFeeCents;
     grossFeesCents := grossFeesCents;
     netAfterFeesAndExpensesCents := netAfterFeesAndExpensesCents;
     savingsAmountCents := savingsAmountCents;
     distributableNetCents := distributableNetCents |}.

(** Lines 248-252: the dictionary of cut percentages by member id, an
    object literal whose values are numbers. *)
Definition cutByMemberId (cuts : list CutRow) : gmap string float :=
  foldl (fun acc cut =>
           match truthy_string (band_member_id cut) with
           | None => acc
           | Some id => objectSet id (cut_percent cut ?? (percent cut ?? 0%float)) acc
           end) ∅ cuts.

(** One payout line of the Settlement sheet (lines 387-398): the cells
    hold [cutPercent / 100] and [payoutCents / 100].  An object inherited
    from [Object.prototype] is not nullish, so [??] keeps it; the percentage
    is used in [cutPercent / 100] only, where such an object converts to
    NaN, so the model takes NaN for it. *)
Record PayoutLine := {
  l_member_name : string;
  l_role : Role;
  l_cutPercent : float;
  l_payoutCents : float;
  l_cutCell : float;
  l_payoutCell : float
}.

Definition payoutLines (distributableNetCents : float)
    (members : list BandMember) (cuts : list CutRow) : list PayoutLine :=
  let byId := cutByMemberId cuts in
  let equalSplits := makeEqualSplits (Z.of_nat (length members)) in
  imap (fun index member =>
          let cutPercent :=
            match objectGet byId (bm_id member) with
            | Own p => p
            | Inherited => nan
            | Undefined => (equalSplits !! index) ?? 0%float
            end in
          let payoutCents := Math_round (distributableNetCents * (cutPercent / 100))%float in
          {| l_member_name := bm_member_name member;
             l_role := bm_role member;
             l_cutPercent := cutPercent;
             l_payoutCents := payoutCents;
             l_cutCell := (cutPercent / 100)%float;
             l_payoutCell := (payoutCents / 100)%float |}) members.

(** *** File name of the workbook (lines 76-82 and 403-415) *)

Definition isLowerAlnum (c : ascii) : bool :=
  let n := nat_of_ascii c in
  ((97 <=? n)%nat && (n <=? 122)%nat) || ((48 <=? n)%nat && (n <=? 57)%nat).

Definition isDash (c : ascii) : bool := Ascii.eqb c "-"%char.

(** Line 79: every maximal run of characters other than [a-z0-9] becomes
    one dash; [inRun] tells that the dash of the current run has been
    written. *)
Fixpoint replaceRuns (inRun : bool) (s : string) : string :=
  match s with
  | EmptyString => EmptyString
  | String c s' =>
      if isLowerAlnum c then String c (replaceRuns false s')
      else if inRun then replaceRuns true s'
      else String "-"%char (replaceRuns true s')
  end.

(** Line 80: the leading and the trailing dashes go. *)
Fixpoint dropLeadingDashes (s : string) : string :=
  match s with
  | EmptyString => EmptyString
  | String c s' => if isDash c then dropLeadingDashes s' else s
  end.

Fixpoint dropTrailingDashes (s : string) : string :=
  match s with
  | EmptyString => EmptyString
  | String c s' =>
      match dropTrailingDashes s' with
      | EmptyString => if isDash c then EmptyString else String c EmptyString
      | t => String c t
      end
  end.

(** *** Sums by category (lines 106-140 and 218-233) *)

Record DailyTotals := {
  guaranteeCents : float;
  buyoutCents : float;
  merchCents : float;
  otherIncomeCents : float;
  gasCents : float;
  foodCents : float;
  lodgingCents : float;
  repairsCents : float;
  otherExpenseCents : float
}.

Definition emptyDailyTotals : DailyTotals :=
  {| guaranteeCents := 0; buyoutCents := 0; merchCents := 0; otherIncomeCents := 0;
     gasCents := 0; foodCents := 0; lodgingCents := 0; repairsCents := 0;
     otherExpenseCents := 0 |}.

Section Host.

(** The host's [String.prototype.toLowerCase]. *)
Variable toLowerCase : string -> string.

(** Lines 76-82. *)
Definition sanitizeFilePart (raw : string) : string :=
  let normalized :=
    dropTrailingDashes (dropLeadingDashes (replaceRuns false (toLowerCase raw))) in
  match normalized with
  | EmptyString => "tour"%string
  | _ => normalized
  end.

(** Lines 403-405; [todayIso] is the date part of the current time. *)
Definition exportFilename (tourName todayIso : string) : string :=
  (sanitizeFilePart tourName ++ "-finances-" ++ todayIso ++ ".xlsx")%string.

(** Lines 120-140; the object is updated in place, here the updated object
    is returned. *)
Definition addToDailyTotals (totals : DailyTotals) (entry : LedgerRow) : DailyTotals :=
  let category := toLowerCase (category entry) in
  let amount := amount_cents entry in
  let t := totals in
  match entry_type entry with
  | income =>
      if String.eqb category "guarantee" then
        {| guaranteeCents := (guaranteeCents t + amount)%float;
           buyoutCents := buyoutCents t; merchCents := merchCents t;
           otherIncomeCents := otherIncomeCents t; gasCents := gasCents t;
           foodCents := foodCents t; lodgingCents := lodgingCents t;
           repairsCents := repairsCents t; otherExpenseCents := otherExpenseCents t |}
      else if String.eqb category "buyout" then
        {| guaranteeCents := guaranteeCents t;
           buyoutCents := (buyoutCents t + amount)%float; merchCents := merchCents t;
           otherIncomeCents := otherIncomeCents t; gasCents := gasCents t;
           foodCents := foodCents t; lodgingCents := lodgingCents t;
           repairsCents := repairsCents t; otherExpenseCents := otherExpenseCents t |}
      else if String.eqb category "merch_sales" then
        {| guaranteeCents := guaranteeCents t;
           buyoutCents := buyoutCents t; merchCents := (merchCents t + amount)%float;
           otherIncomeCents := otherIncomeCents t; gasCents := gasCents t;
           foodCents := foodCents t; lodgingCents := lodgingCents t;
           repairsCents := repairsCents t; otherExpenseCents := otherExpenseCents t |}
      else
        {| guaranteeCents := guaranteeCents t;
           buyoutCents := buyoutCents t; merchCents := merchCents t;
           otherIncomeCents := (otherIncomeCents t + amount)%float; gasCents := gasCents t;
           foodCents := foodCents t; lodgingCents := lodgingCents t;
           repairsCents := repairsCents t; otherExpenseCents := otherExpenseCents t |}
  | expense =>
      if String.eqb category "gas" then
        {| guaranteeCents := guaranteeCents t;
           buyoutCents := buyoutCents t; merchCents := merchCents t;
           otherIncomeCents := otherIncomeCents t; gasCents := (gasCents t + amount)%float;
           foodCents := foodCents t; lodgingCents := lodgingCents t;
           repairsCents := repairsCents t; otherExpenseCents := otherExpenseCents t |}
      else if String.eqb category "food" then
        {| guaranteeCents := guaranteeCents t;
           buyoutCents := buyoutCents t; merchCents := merchCents t;
           otherIncomeCents := otherIncomeCents t; gasCents := gasCents t;
           foodCents := (foodCents t + amount)%float; lodgingCents := lodgingCents t;
           repairsCents := repairsCents t; otherExpenseCents := otherExpenseCents t |}
      else if String.eqb category "lodging" then
        {| guaranteeCents := guaranteeCents t;
           buyoutCents := buyoutCents t; merchCents := merchCents t;
           otherIncomeCents := otherIncomeCents t; gasCents := gasCents t;
           foodCents := foodCents t; lodgingCents := (lodgingCents t + amount)%float;
           repairsCents := repairsCents t; otherExpenseCents := otherExpenseCents t |}
      else if String.eqb category "repairs" then
        {| guaranteeCents := guaranteeCents t;
           buyoutCents := buyoutCents t; merchCents := merchCents t;
           otherIncomeCents := otherIncomeCents t; gasCents := gasCents t;
           foodCents := foodCents t; lodgingCents := lodgingCents t;
           repairsCents := (repairsCents t + amount)%float;
           otherExpenseCents := otherExpenseCents t |}
      else
        {| guaranteeCents := guaranteeCents t;
           buyoutCents := buyoutCents t; merchCents := merchCents t;
           otherIncomeCents := otherIncomeCents t; gasCents := gasCents t;
           foodCents := foodCents t; lodgingCents := lodgingCents t;
           repairsCents := repairsCents t;
           otherExpenseCents := (otherExpenseCents t + amount)%float |}
  end.

(** Lines 220 and 226-227: the sums of the whole tour by category. *)
Definition totalCategoryCents (entries : list LedgerRow) : DailyTotals :=
  foldl addToDailyTotals emptyDailyTotals entries.

End Host.

(** Line 413: the header that carries the file name. *)
Definition contentDisposition (filename : string) : string :=
  ("attachment; filename=" ++ String "034"%char filename ++ String "034"%char EmptyString)%string.

(** Lines 93-102: the width given to a column whose cell texts have the
    lengths [lengths]. *)
Definition columnWidth (lengths : list Z) : Z :=
  foldl (fun maxLength len => Z.max maxLength (Z.min 60 (len + 2))) 10%Z lengths.

End FinanceExport.

(** ** Reading doubles as numbers

    The statements below speak about amounts and percentages as exact
    numbers; these definitions connect the doubles of the code to them. *)

(** The double written [k/100] in decimal notation, for an amount of [k]
    hundredths: the correctly rounded quotient, which is also the value of the
    decimal literal. *)
Definition hundredths (k : Z) : float := (Z2F k / 100)%float.

(** Round-half-up of the exact quotient [a * b / 100]. *)
Definition exact_round_percent (a b : Z) : Z := ((a * b * 2 + 100) / 200)%Z.

(** Round-half-up to two decimals of the decimal [k/1000], in hundredths. *)
Definition exact_round2_thousandths (k : Z) : Z := ((k * 2 + 10) / 20)%Z.

Definition sumZ (l : list Z) : Z := foldr Z.add 0%Z l.

(** ** Real values of doubles *)

Definition p2 (e : Z) : R := powerRZ 2 e.

Definition SFR (f : spec_float) : R :=
  match f with
  | S754_finite s m e => (IZR (cond_Zopp s (Zpos m)) * p2 e)%R
  | _ => 0%R
  end.

Definition SFfin (f : spec_float) : bool :=
  match f with
  | S754_finite _ _ _ | S754_zero _ => true
  | _ => false
  end.

Definition sgn (s : bool) (v : R) : R := if s then (- v)%R else v.

(** The real number a double stands for, and whether it is one. *)
Definition FR (x : float) : R := SFR (Prim2SF x).
Definition fin (x : float) : Prop := SFfin (Prim2SF x) = true.

(** ** Values and sample data used in the statements *)

(** [approx x v e]: the double [x] is finite and within [e] of the real [v]. *)
Definition approx (x : float) (v e : R) : Prop := fin x /\ (Rabs (FR x - v) <= e)%R.

Definition to_hundredths (p : float) : Z := F2Z (Math_round (p * 100)%float).

Definition rowOf (id : string) (p : float) : Page.SettlementMemberRow :=
  {| Page.cutId := None; Page.bandMemberId := id; Page.userId := id;
     Page.memberName := id; Page.email := None; Page.role := member;
     Page.cutPercent := p |}.

Definition overridesOf (rows : list Page.SettlementMemberRow) : list CutRow :=
  (fun r => {| cut_id := ""; band_member_id := Some (Page.bandMemberId r);
               cut_percent := Some (Page.cutPercent r);
               percent := Some (Page.cutPercent r) |}) <$> rows.

Definition resolved (c : CutRow) : float := cut_percent c ?? (percent c ?? 0%float).

Definition sample_ann : BandMember :=
  {| bm_id := "a"; bm_user_id := "ua"; bm_member_name := "Ann"; bm_role := owner;
     bm_is_active := true |}.

Definition sample_bob : BandMember :=
  {| bm_id := "b"; bm_user_id := "ub"; bm_member_name := "Bob"; bm_role := member;
     bm_is_active := true |}.

Definition sample_null_cut : CutRow :=
  {| cut_id := "c1"; band_member_id := Some "b"%string; cut_percent := None; percent := None |}.



Definition sample_constructor : BandMember :=
  {| bm_id := "constructor"; bm_user_id := "uc"; bm_member_name := "Cy"; bm_role := member;
     bm_is_active := true |}.

Definition sample_state (rows : list Page.SettlementMemberRow) : Page.PageState :=
  {| Page.tourId := Some "tour-1"%string; Page.canEdit := true; Page.rows := rows;
     Page.status := None; Page.saving := false |}.

(** A double that holds an integer amount of minor units. *)
Definition integral (x : float) : Prop := fin x /\ FR x = IZR (F2Z x).

(** The amount of a ledger row, and its part in each of the two totals. *)
Definition amountOf (r : LedgerRow) : Z := F2Z (amount_cents r).

Definition incomeOf (r : LedgerRow) : Z :=
  match entry_type r with income => amountOf r | expense => 0%Z end.

Definition expenseOf (r : LedgerRow) : Z :=
  match entry_type r with income => 0%Z | expense => amountOf r end.

Definition sample_ledger : list LedgerRow :=
  [ {| entry_type := income; category := "guarantee"; amount_cents := Z2F 100000 |};
    {| entry_type := expense; category := "gas"; amount_cents := Z2F 20000 |} ].

(** The characters a sanitized name is made of. *)
Definition safeChar (c : ascii) : bool :=
  FinanceExport.isLowerAlnum c || FinanceExport.isDash c.

Definition allSafe (s : string) : bool := forallb safeChar (list_ascii_of_string s).

Definition noQuote (s : string) : bool :=
  forallb (fun c => negb (Ascii.eqb c Page.dquote)) (list_ascii_of_string s).

(** A lower-casing of the ASCII letters, to run the functions on examples. *)
Definition asciiLower (s : string) : string :=
  string_of_list_ascii
    ((fun c => let n := nat_of_ascii c in
               if (65 <=? n)%nat && (n <=? 90)%nat then ascii_of_nat (n + 32) else c)
       <$> list_ascii_of_string s).

(** The four income columns and the five expense columns of a totals
    object, as whole numbers. *)
Definition incomeBuckets (t : FinanceExport.DailyTotals) : Z :=
  (F2Z (FinanceExport.guaranteeCents t) + F2Z (FinanceExport.buyoutCents t)
   + F2Z (FinanceExport.merchCents t) + F2Z (FinanceExport.otherIncomeCents t))%Z.

Definition expenseBuckets (t : FinanceExport.DailyTotals) : Z :=
  (F2Z (FinanceExport.gasCents t) + F2Z (FinanceExport.foodCents t)
   + F2Z (FinanceExport.lodgingCents t) + F2Z (FinanceExport.repairsCents t)
   + F2Z (FinanceExport.otherExpenseCents t))%Z.

Definition magnitude (t : FinanceExport.DailyTotals) : Z :=
  (Z.abs (F2Z (FinanceExport.guaranteeCents t)) + Z.abs (F2Z (FinanceExport.buyoutCents t))
   + Z.abs (F2Z (FinanceExport.merchCents t)) + Z.abs (F2Z (FinanceExport.otherIncomeCents t))
   + Z.abs (F2Z (FinanceExport.gasCents t)) + Z.abs (F2Z (FinanceExport.foodCents t))
   + Z.abs (F2Z (FinanceExport.lodgingCents t)) + Z.abs (F2Z (FinanceExport.repairsCents t))
   + Z.abs (F2Z (FinanceExport.otherExpenseCents t)))%Z.

Definition integralTotals (t : FinanceExport.DailyTotals) : Prop :=
  integral (FinanceExport.guaranteeCents t) /\ integral (FinanceExport.buyoutCents t) /\
  integral (FinanceExport.merchCents t) /\ integral (FinanceExport.otherIncomeCents t) /\
  integral (FinanceExport.gasCents t) /\ integral (FinanceExport.foodCents t) /\
  integral (FinanceExport.lodgingCents t) /\ integral (FinanceExport.repairsCents t) /\
  integral (FinanceExport.otherExpenseCents t).

Definition sample_cut_old : CutRow :=
  {| cut_id := "c1"; band_member_id := Some "b"%string; cut_percent := Some 40%float;
     percent := None |}.

Definition sample_cut_new : CutRow :=
  {| cut_id := "c2"; band_member_id := Some "b"%string; cut_percent := None;
     percent := Some 25%float |}.

Definition sample_unnamed : Page.SettlementMemberRow :=
  {| Page.cutId := None; Page.bandMemberId := "b"; Page.userId := "ub";
     Page.memberName := ""; Page.email := Some "bob@example.org"%string;
     Page.role := member; Page.cutPercent := 50 |}.

(** * Facts about binary64 arithmetic

    [SpecFloat] specifies each primitive operation on mantissas and exponents.
    From it we derive what the arithmetic of the settlement needs: every
    operation on finite doubles of moderate size returns a finite double
    within a relative error of [2^-52] of the exact result, integers below
    [2^53] are represented exactly, and [Math_round] is the exact
    round-half-up of the value of its argument. *)

Section Binary64.
#[local] Open Scope Z_scope.
Lemma digits2_size p : digits2_pos p = Pos.size p.
Proof. induction p; simpl; congruence. Qed.

Lemma digits_lt (p : positive) : Zpos p < 2 ^ Zpos (digits2_pos p).
Proof.
  rewrite digits2_size. pose proof (Pos.size_gt p) as H.
  apply Pos2Z.pos_lt_pos in H. now rewrite Pos2Z.inj_pow in H.
Qed.

Lemma digits_ge (p : positive) : 2 ^ (Zpos (digits2_pos p) - 1) <= Zpos p.
Proof.
  rewrite digits2_size. pose proof (Pos.size_le p) as H.
  apply Pos2Z.pos_le_pos in H. rewrite Pos2Z.inj_pow in H.
  replace (Zpos (Pos.size p)) with (Z.succ (Zpos (Pos.size p) - 1)) in H by lia.
  rewrite Z.pow_succ_r in H by lia. lia.
Qed.

Lemma shr_1_m r : 0 <= shr_m r -> shr_m (shr_1 r) = shr_m r / 2.
Proof.
  destruct r as [m b s]; simpl. intros Hm.
  destruct m as [|[p|p|]|p]; cbn [shr_1 shr_m]; try lia; try reflexivity.
  - apply Z.div_unique with 1; lia.
  - apply Z.div_unique with 0; lia.
Qed.

Lemma iter_shr_m p : forall r, 0 <= shr_m r ->
  shr_m (SpecFloat.iter_pos shr_1 p r) = shr_m r / 2 ^ Zpos p.
Proof.
  induction p as [p IH|p IH|]; intros r Hr; simpl SpecFloat.iter_pos.
  - assert (H1 : 0 <= shr_m (shr_1 r)) by (rewrite shr_1_m by lia; apply Z.div_pos; lia).
    assert (H2 : 0 <= shr_m (SpecFloat.iter_pos shr_1 p (shr_1 r))) by (rewrite IH by lia; apply Z.div_pos; lia).
    rewrite IH, IH, shr_1_m by lia.
    rewrite !Z.div_div by lia. f_equal.
    rewrite Pos2Z.inj_xI. rewrite <- Z.pow_add_r, <- (Z.pow_1_r 2) at 1 by lia.
    rewrite <- Z.pow_add_r by lia. f_equal. lia.
  - assert (H2 : 0 <= shr_m (SpecFloat.iter_pos shr_1 p r)) by (rewrite IH by lia; apply Z.div_pos; lia).
    rewrite IH, IH by lia.
    rewrite !Z.div_div by lia. f_equal.
    rewrite Pos2Z.inj_xO, <- Z.pow_add_r by lia. f_equal. lia.
  - rewrite shr_1_m by lia. reflexivity.
Qed.

Lemma fexp_eq k : fexp prec emax k = Z.max (k - 53) (-1074).
Proof. reflexivity. Qed.

Lemma shr_m_of_loc m l : shr_m (shr_record_of_loc m l) = m.
Proof. destruct l as [|[]]; reflexivity. Qed.

Lemma loc_of_loc m l : loc_of_shr_record (shr_record_of_loc m l) = l.
Proof. destruct l as [|[]]; reflexivity. Qed.

Lemma Zdigits2_lt m : 0 <= m -> m < 2 ^ Zdigits2 m.
Proof.
  destruct m as [|p|p]; simpl Zdigits2; intros; try lia. apply digits_lt.
Qed.

Lemma Zdigits2_ge m : 0 < m -> 2 ^ (Zdigits2 m - 1) <= m.
Proof.
  destruct m as [|p|p]; simpl Zdigits2; intros; try lia. apply digits_ge.
Qed.

Lemma Zdigits2_nonneg m : 0 <= Zdigits2 m.
Proof. destruct m; simpl; lia. Qed.

Lemma shr_fexp_spec m e l : 0 <= m ->
  exists mrs, shr_fexp prec emax m e l = (mrs, Z.max e (fexp prec emax (Zdigits2 m + e)))
    /\ shr_m mrs = m / 2 ^ (Z.max e (fexp prec emax (Zdigits2 m + e)) - e)
    /\ (Z.max e (fexp prec emax (Zdigits2 m + e)) = e -> mrs = shr_record_of_loc m l).
Proof.
  intros Hm. unfold shr_fexp, shr.
  set (f := fexp prec emax (Zdigits2 m + e)).
  destruct (f - e) as [|p|p] eqn:Hn.
  - exists (shr_record_of_loc m l). replace (Z.max e f) with e by lia.
    rewrite Z.sub_diag, Z.pow_0_r, Z.div_1_r, shr_m_of_loc. auto.
  - exists (SpecFloat.iter_pos shr_1 p (shr_record_of_loc m l)).
    replace (Z.max e f) with (e + Zpos p) by lia.
    rewrite iter_shr_m by (rewrite shr_m_of_loc; lia). rewrite shr_m_of_loc.
    replace (e + Zpos p - e) with (Zpos p) by lia. repeat split; auto. lia.
  - exists (shr_record_of_loc m l). replace (Z.max e f) with e by lia.
    rewrite Z.sub_diag, Z.pow_0_r, Z.div_1_r, shr_m_of_loc. auto.
Qed.

Lemma rne_cases m l : round_nearest_even m l = m \/ round_nearest_even m l = m + 1.
Proof. destruct l as [|[]]; simpl; auto. destruct (Z.even m); auto. Qed.

Lemma round_aux_spec s m e l :
  0 <= m ->
  Z.max e (fexp prec emax (Zdigits2 m + e)) <= 970 ->
  exists W,
    (W = m / 2 ^ (Z.max e (fexp prec emax (Zdigits2 m + e)) - e) \/
     W = m / 2 ^ (Z.max e (fexp prec emax (Zdigits2 m + e)) - e) + 1) /\
    (l = loc_Exact -> Z.max e (fexp prec emax (Zdigits2 m + e)) = e -> W = m) /\
    ((binary_round_aux prec emax s m e l = S754_zero s /\ W = 0) \/
     exists m2 e2, binary_round_aux prec emax s m e l = S754_finite s m2 e2 /\
       Zpos m2 * 2 ^ (e2 - Z.max e (fexp prec emax (Zdigits2 m + e))) = W /\
       Z.max e (fexp prec emax (Zdigits2 m + e)) <= e2 <= Z.max e (fexp prec emax (Zdigits2 m + e)) + 1).
Proof.
  intros Hm Hu. unfold binary_round_aux.
  destruct (shr_fexp_spec m e l Hm) as (mrs & Hs & Hmrs & Hex).
  set (u := Z.max e (fexp prec emax (Zdigits2 m + e))) in *.
  rewrite Hs.
  set (m1 := m / 2 ^ (u - e)) in *.
  assert (Hue : 0 <= u - e) by (unfold u; lia).
  assert (Hm1 : 0 <= m1) by (apply Z.div_pos; lia).
  assert (Hm1lt : m1 < 2 ^ 53).
  { apply Z.div_lt_upper_bound; [lia|].
    rewrite <- Z.pow_add_r by lia.
    pose proof (Zdigits2_lt m Hm) as Hd. pose proof (Zdigits2_nonneg m) as Hd0.
    eapply Z.lt_le_trans; [exact Hd|]. apply Z.pow_le_mono_r; [lia|].
    unfold u. rewrite fexp_eq. lia. }
  set (mr := round_nearest_even (shr_m mrs) (loc_of_shr_record mrs)).
  assert (Hmr : mr = m1 \/ mr = m1 + 1).
  { unfold mr. rewrite Hmrs. apply rne_cases. }
  assert (Hmr0 : 0 <= mr) by lia.
  assert (Huge : -1074 <= u) by (unfold u; rewrite fexp_eq; lia).
  destruct (shr_fexp_spec mr u loc_Exact Hmr0) as (mrs2 & Hs2 & Hmrs2 & Hex2).
  rewrite Hs2. rewrite Hmrs2.
  exists mr. split; [exact Hmr|]. split.
  { intros Hl Heq. unfold mr. rewrite (Hex Heq). subst l. simpl. reflexivity. }
  destruct (Z.eq_dec mr 0) as [H0|H0].
  { left. rewrite H0. rewrite Zdiv_0_l. auto. }
  right.
  destruct (Z.eq_dec mr (2 ^ 53)) as [Htop|Htop].
  - rewrite Htop. change (Zdigits2 (2 ^ 53)) with 54.
    rewrite fexp_eq. replace (Z.max u (Z.max (54 + u - 53) (-1074))) with (u + 1) by lia.
    replace (u + 1 - u) with 1 by lia.
    change (2 ^ 53 / 2 ^ 1) with (Zpos (2 ^ 52)).
    replace (u + 1 <=? emax - prec) with true by (symmetry; apply Z.leb_le; unfold emax, prec; lia).
    exists (2 ^ 52)%positive, (u + 1). repeat split; try lia.
    replace (u + 1 - u) with 1 by lia. reflexivity.
  - assert (Hlt : mr < 2 ^ 53) by lia.
    assert (Hd : Zdigits2 mr <= 53).
    { destruct (Z_le_gt_dec (Zdigits2 mr) 53); auto.
      pose proof (Zdigits2_ge mr ltac:(lia)) as Hg.
      assert (2 ^ 53 <= 2 ^ (Zdigits2 mr - 1)) by (apply Z.pow_le_mono_r; lia). lia. }
    rewrite fexp_eq. replace (Z.max u (Z.max (Zdigits2 mr + u - 53) (-1074))) with u by lia.
    rewrite Z.sub_diag, Z.pow_0_r, Z.div_1_r.
    destruct mr as [|p|p]; try lia.
    replace (u <=? emax - prec) with true by (symmetry; apply Z.leb_le; unfold emax, prec; lia).
    exists p, u. repeat split; try lia.
    rewrite Z.sub_diag. lia.
Qed.

#[local] Open Scope R_scope.

Lemma p2_pos e : 0 < p2 e.
Proof. apply powerRZ_lt. lra. Qed.

Lemma p2_add a b : p2 (a + b) = p2 a * p2 b.
Proof. apply powerRZ_add. lra. Qed.

Lemma p2_sub a b : p2 (a - b) = p2 a / p2 b.
Proof.
  unfold Z.sub. rewrite p2_add. unfold p2 at 2. rewrite powerRZ_neg'. reflexivity.
Qed.

Lemma p2_IZR k : (0 <= k)%Z -> p2 k = IZR (2 ^ k).
Proof.
  intros Hk. unfold p2. rewrite <- (Z2Nat.id k) by lia.
  rewrite <- pow_powerRZ, pow_IZR. reflexivity.
Qed.

Lemma p2_ge1 k : (0 <= k)%Z -> 1 <= p2 k.
Proof.
  intros Hk. rewrite p2_IZR by lia. apply IZR_le.
  pose proof (Z.pow_pos_nonneg 2 k ltac:(lia) Hk). lia.
Qed.

Lemma p2_le a b : (a <= b)%Z -> p2 a <= p2 b.
Proof.
  intros H. replace b with (a + (b - a))%Z by lia. rewrite p2_add.
  pose proof (p2_pos a). pose proof (p2_ge1 (b - a) ltac:(lia)). nra.
Qed.

Lemma p2_lt a b : (a < b)%Z -> p2 a < p2 b.
Proof.
  intros H. replace b with (a + 1 + (b - a - 1))%Z by lia. rewrite !p2_add.
  pose proof (p2_pos a). pose proof (p2_ge1 (b - a - 1) ltac:(lia)).
  change (p2 1) with (2 * 1). nra.
Qed.

Lemma p2_le_inv a b : p2 a <= p2 b -> (a <= b)%Z.
Proof.
  intros H. destruct (Z_le_gt_dec a b) as [|Hgt]; auto.
  pose proof (p2_lt b a ltac:(lia)). lra.
Qed.

Lemma p2_lt_inv a b : p2 a < p2 b -> (a < b)%Z.
Proof.
  intros H. destruct (Z_lt_le_dec a b) as [|Hge]; auto.
  pose proof (p2_le b a Hge). lra.
Qed.

Lemma SFR_finite s m e : SFR (S754_finite s m e) = sgn s (IZR (Zpos m) * p2 e).
Proof. destruct s; unfold sgn, SFR, cond_Zopp; [rewrite opp_IZR|]; ring. Qed.

(* digits give the binade of a positive mantissa *)
Lemma digits_R_lt (m : Z) e : (0 <= m)%Z -> IZR m * p2 e < p2 (Zdigits2 m + e).
Proof.
  intros Hm. rewrite p2_add. pose proof (p2_pos e).
  rewrite (p2_IZR (Zdigits2 m)) by apply Zdigits2_nonneg.
  apply Rmult_lt_compat_r; auto. apply IZR_lt. now apply Zdigits2_lt.
Qed.

Lemma digits_R_ge (m : Z) e : (0 < m)%Z -> p2 (Zdigits2 m - 1 + e) <= IZR m * p2 e.
Proof.
  intros Hm. rewrite p2_add. pose proof (p2_pos e).
  assert (0 <= Zdigits2 m - 1)%Z by (destruct m; cbn [Zdigits2]; lia).
  rewrite (p2_IZR (Zdigits2 m - 1)) by lia.
  apply Rmult_le_compat_r; [lra|]. apply IZR_le. now apply Zdigits2_ge.
Qed.

Lemma fexp_bound (m : Z) e X : (0 < m)%Z -> IZR m * p2 e <= X ->
  p2 (fexp prec emax (Zdigits2 m + e)) <= p2 (-52) * X + p2 (-1074).
Proof.
  intros Hm HX. rewrite fexp_eq.
  pose proof (digits_R_ge m e Hm) as Hd.
  pose proof (p2_pos (-52)). pose proof (p2_pos (-1074)).
  destruct (Z.max_spec (Zdigits2 m + e - 53) (-1074)) as [[_ ->]|[_ ->]].
  - assert (0 <= X) by (pose proof (p2_pos (Zdigits2 m - 1 + e)); lra). nra.
  - replace (Zdigits2 m + e - 53)%Z with (-52 + (Zdigits2 m - 1 + e))%Z by lia.
    rewrite p2_add. nra.
Qed.

Lemma round_aux_R s m e l (x : R) :
  (0 <= m)%Z ->
  (Z.max e (fexp prec emax (Zdigits2 m + e)) <= 970)%Z ->
  IZR m * p2 e <= x <= IZR (m + 1) * p2 e ->
  (l = loc_Exact -> x = IZR m * p2 e) ->
  exists V, SFfin (binary_round_aux prec emax s m e l) = true /\
    SFR (binary_round_aux prec emax s m e l) = sgn s V /\ 0 <= V /\
    Rabs (V - x) <= p2 (Z.max e (fexp prec emax (Zdigits2 m + e))) /\
    (l = loc_Exact -> Z.max e (fexp prec emax (Zdigits2 m + e)) = e -> V = x).
Proof.
  intros Hm Hu Hx Hex.
  destruct (round_aux_spec s m e l Hm Hu) as (W & HW & HWex & Hres).
  set (u := Z.max e (fexp prec emax (Zdigits2 m + e))) in *.
  assert (Hue : (0 <= u - e)%Z) by (unfold u; lia).
  set (m1 := (m / 2 ^ (u - e))%Z) in *.
  assert (Hpow : (0 < 2 ^ (u - e))%Z) by (apply Z.pow_pos_nonneg; lia).
  assert (Hdiv1 : (m1 * 2 ^ (u - e) <= m)%Z).
  { unfold m1. rewrite Z.mul_comm. apply Z.mul_div_le. lia. }
  assert (Hdiv2 : (m + 1 <= (m1 + 1) * 2 ^ (u - e))%Z).
  { unfold m1. pose proof (Z.mul_succ_div_gt m (2 ^ (u - e)) Hpow). lia. }
  assert (Hpu : p2 u = IZR (2 ^ (u - e)) * p2 e).
  { rewrite <- p2_IZR by lia. rewrite <- p2_add. f_equal. lia. }
  pose proof (p2_pos e) as Hpe. pose proof (p2_pos u) as Hpu0.
  assert (Hlo : IZR m1 * p2 u <= x).
  { rewrite Hpu, <- Rmult_assoc, <- mult_IZR.
    apply Rle_trans with (IZR m * p2 e); [|lra].
    apply Rmult_le_compat_r; [lra|]. now apply IZR_le. }
  assert (Hhi : x <= IZR (m1 + 1) * p2 u).
  { rewrite Hpu, <- Rmult_assoc, <- mult_IZR.
    apply Rle_trans with (IZR (m + 1) * p2 e); [lra|].
    apply Rmult_le_compat_r; [lra|]. now apply IZR_le. }
  assert (Hm1 : (0 <= m1)%Z) by (apply Z.div_pos; lia).
  exists (IZR W * p2 u).
  assert (HW0 : (0 <= W)%Z) by lia.
  assert (HV : Rabs (IZR W * p2 u - x) <= p2 u).
  { rewrite plus_IZR in Hhi. apply Rabs_le.
    destruct HW as [-> | ->]; [|rewrite plus_IZR]; lra. }
  assert (HVex : l = loc_Exact -> u = e -> IZR W * p2 u = x).
  { intros Hl He. rewrite (HWex Hl He), He. symmetry. auto. }
  assert (HV0 : 0 <= IZR W * p2 u).
  { apply Rmult_le_pos; [apply IZR_le; lia | lra]. }
  destruct Hres as [[-> ->] | (m2 & e2 & -> & Hm2 & He2)].
  - simpl. repeat split; auto. destruct s; simpl; lra.
  - rewrite SFR_finite. repeat split; auto. f_equal.
    rewrite <- Hm2, mult_IZR, <- p2_IZR by lia. rewrite Rmult_assoc, <- p2_add.
    do 2 f_equal. lia.
Qed.

Lemma sgn_xorb a b u v : sgn a u * sgn b v = sgn (xorb a b) (u * v).
Proof. destruct a, b; unfold sgn; simpl; ring. Qed.

Lemma Rabs_sgn s v : Rabs (sgn s v) = Rabs v.
Proof. destruct s; unfold sgn; [apply Rabs_Ropp | reflexivity]. Qed.

Lemma sgn_sub s u v : sgn s u - sgn s v = sgn s (u - v).
Proof. destruct s; unfold sgn; ring. Qed.

Lemma u_bound (m : Z) e K : (0 < m)%Z -> (-1074 <= K)%Z ->
  IZR m * p2 e <= p2 K ->
  (Z.max e (fexp prec emax (Zdigits2 m + e)) <= K)%Z.
Proof.
  intros Hm HK HX.
  pose proof (digits_R_ge m e Hm) as Hd. pose proof (p2_pos e) as Hpe.
  assert (He : (e <= K)%Z).
  { apply p2_le_inv. apply Rle_trans with (IZR m * p2 e); auto.
    assert (1 <= IZR m) by (apply IZR_le; lia). nra. }
  assert (Hde : (Zdigits2 m - 1 + e <= K)%Z) by (apply p2_le_inv; lra).
  rewrite fexp_eq. lia.
Qed.

Lemma round_exact_R s (m : Z) e K : (0 < m)%Z -> (-1074 <= K <= 970)%Z ->
  IZR m * p2 e <= p2 K ->
  exists V, SFfin (binary_round_aux prec emax s m e loc_Exact) = true /\
    SFR (binary_round_aux prec emax s m e loc_Exact) = sgn s V /\ 0 <= V /\
    Rabs (V - IZR m * p2 e) <= p2 (-52) * (IZR m * p2 e) + p2 (-1074).
Proof.
  intros Hm HK HX.
  pose proof (u_bound m e K Hm ltac:(lia) HX) as Hu.
  assert (HmR : 1 <= IZR m) by (apply IZR_le; lia).
  pose proof (p2_pos e) as Hpe.
  destruct (round_aux_R s m e loc_Exact (IZR m * p2 e)) as (V & Hf & HS & HV0 & Herr & Hex);
    try lia; auto.
  { rewrite plus_IZR. nra. }
  exists V. repeat split; auto.
  pose proof (p2_pos (-52)). pose proof (p2_pos (-1074)).
  destruct (Z.eq_dec (Z.max e (fexp prec emax (Zdigits2 m + e))) e) as [He|He].
  - rewrite (Hex eq_refl He). rewrite Rminus_diag, Rabs_R0.
    assert (0 <= IZR m * p2 e) by nra.
    assert (0 <= p2 (-52) * (IZR m * p2 e)) by (apply Rmult_le_pos; lra). lra.
  - replace (Z.max e (fexp prec emax (Zdigits2 m + e)))
      with (fexp prec emax (Zdigits2 m + e)) in Herr by lia.
    eapply Rle_trans; [exact Herr|]. apply fexp_bound; auto. lra.
Qed.

Lemma SFmul_R x y :
  SFfin x = true -> SFfin y = true -> Rabs (SFR x * SFR y) <= p2 900 ->
  SFfin (SF64mul x y) = true /\
  Rabs (SFR (SF64mul x y) - SFR x * SFR y)
    <= p2 (-52) * Rabs (SFR x * SFR y) + p2 (-1074).
Proof.
  pose proof (p2_pos (-52)). pose proof (p2_pos (-1074)).
  destruct x as [sx|sx| |sx mx ex], y as [sy|sy| |sy my ey]; try discriminate; intros _ _ Hb;
    unfold SF64mul, SFmul; cbn [SFfin].
  1-3: split; auto; cbn [SFR]; rewrite ?Rmult_0_l, ?Rmult_0_r, Rminus_diag, Rabs_R0; lra.
  rewrite !SFR_finite, sgn_xorb, Rabs_sgn in *.
  assert (E : IZR (Zpos mx) * p2 ex * (IZR (Zpos my) * p2 ey)
              = IZR (Zpos (mx * my)) * p2 (ex + ey)).
  { rewrite Pos2Z.inj_mul, mult_IZR, p2_add. ring. }
  rewrite E in *.
  assert (Hpos : 0 <= IZR (Zpos (mx * my)) * p2 (ex + ey)).
  { pose proof (p2_pos (ex + ey)). assert (0 <= IZR (Zpos (mx * my))) by (apply IZR_le; lia). nra. }
  rewrite Rabs_pos_eq in * by auto.
  destruct (round_exact_R (xorb sx sy) (Zpos (mx * my)) (ex + ey) 900) as (V & Hf & HS & HV0 & Herr);
    try lia; auto.
  split; auto. rewrite HS, sgn_sub, Rabs_sgn, (Rabs_pos_eq _ Hpos). exact Herr.
Qed.

Lemma sgn_div a b u v : v <> 0 -> sgn a u / sgn b v = sgn (xorb a b) (u / v).
Proof. intros Hv. destruct a, b; unfold sgn; simpl; field; lra. Qed.

Lemma Rdiv_ge a b c : 0 < b -> a * b <= c -> a <= c / b.
Proof.
  intros Hb H. apply Rmult_le_reg_r with b; auto.
  unfold Rdiv. rewrite Rmult_assoc, Rinv_l, Rmult_1_r by lra. exact H.
Qed.

Lemma Rdiv_le_up a b c : 0 < b -> c <= a * b -> c / b <= a.
Proof.
  intros Hb H. apply Rmult_le_reg_r with b; auto.
  unfold Rdiv. rewrite Rmult_assoc, Rinv_l, Rmult_1_r by lra. exact H.
Qed.

Lemma new_location_exact n r : new_location n r = loc_Exact -> r = 0%Z.
Proof.
  unfold new_location, new_location_even, new_location_odd.
  destruct (Z.even n); destruct (Z.eqb_spec r 0); auto; discriminate.
Qed.

Lemma SFdiv_R x y :
  SFfin x = true -> SFfin y = true ->
  Rabs (SFR x) <= p2 400 -> p2 (-400) <= Rabs (SFR y) ->
  SFfin (SF64div x y) = true /\
  Rabs (SFR (SF64div x y) - SFR x / SFR y)
    <= p2 (-52) * Rabs (SFR x / SFR y) + p2 (-1074).
Proof.
  pose proof (p2_pos (-52)) as H52. pose proof (p2_pos (-1074)) as H1074.
  pose proof (p2_pos (-400)) as H400.
  destruct x as [sx|sx| |sx mx ex], y as [sy|sy| |sy my ey]; try discriminate;
    intros _ _ Hbx Hby; unfold SF64div, SFdiv; cbn [SFfin].
  1,3: exfalso; cbn [SFR] in Hby; rewrite Rabs_R0 in Hby; lra.
  { split; auto. cbn [SFR]. unfold Rdiv. rewrite Rmult_0_l, Rminus_diag, Rabs_R0. lra. }
  rewrite !SFR_finite, Rabs_sgn in *.
  pose proof (p2_pos ex) as Hpex. pose proof (p2_pos ey) as Hpey.
  assert (Hmx : 1 <= IZR (Zpos mx)) by (apply IZR_le; lia).
  assert (Hmy : 1 <= IZR (Zpos my)) by (apply IZR_le; lia).
  set (X1 := IZR (Zpos mx) * p2 ex) in *. set (X2 := IZR (Zpos my) * p2 ey) in *.
  assert (HX1 : 0 < X1) by (unfold X1; nra). assert (HX2 : 0 < X2) by (unfold X2; nra).
  rewrite Rabs_pos_eq in Hbx, Hby by lra.
  rewrite sgn_div by lra. rewrite Rabs_sgn.
  assert (HX : 0 < X1 / X2) by (apply Rdiv_lt_0_compat; auto).
  rewrite (Rabs_pos_eq (X1 / X2)) by lra.
  unfold SFdiv_core_binary.
  set (d1 := Zdigits2 (Zpos mx)). set (d2 := Zdigits2 (Zpos my)).
  set (f0 := fexp prec emax (d1 + ex - (d2 + ey))).
  set (e' := Z.min f0 (ex - ey)).
  set (sh := (ex - ey - e')%Z).
  assert (Hsh : (0 <= sh)%Z) by (unfold sh, e'; lia).
  set (m' := match sh with Zpos _ => Z.shiftl (Zpos mx) sh | Z0 => Zpos mx | Zneg _ => 0%Z end).
  assert (Hm' : m' = (Zpos mx * 2 ^ sh)%Z).
  { unfold m'. destruct sh as [|p|p] eqn:E; try lia.
    rewrite Z.shiftl_mul_pow2 by lia. reflexivity. }
  assert (Hm'pos : (0 < m')%Z).
  { rewrite Hm'. apply Z.mul_pos_pos; [lia|]. apply Z.pow_pos_nonneg; lia. }
  pose proof (Z_div_mod m' (Zpos my) ltac:(lia)) as Hdm.
  destruct (Z.div_eucl m' (Zpos my)) as [q r] eqn:Hqr.
  destruct Hdm as [Hdm Hr].
  assert (Hq0 : (0 <= q)%Z) by nia.
  (* the exact quotient lies in the cell of q *)
  assert (HXe : X1 / X2 = IZR m' / IZR (Zpos my) * p2 e').
  { unfold X1, X2. rewrite Hm', mult_IZR, <- p2_IZR by lia.
    replace ex with (sh + e' + ey)%Z at 1 by (unfold sh; lia).
    rewrite !p2_add. field. split; lra. }
  pose proof (p2_pos e') as Hpe'.
  assert (Hlo : IZR q * p2 e' <= X1 / X2).
  { rewrite HXe. apply Rmult_le_compat_r; [lra|].
    apply Rdiv_ge; [lra|]. rewrite <- mult_IZR. apply IZR_le. nia. }
  assert (Hhi : X1 / X2 <= IZR (q + 1) * p2 e').
  { rewrite HXe. apply Rmult_le_compat_r; [lra|].
    apply Rdiv_le_up; [lra|]. rewrite <- mult_IZR. apply IZR_le. nia. }
  set (B := p2 (-52) * (X1 / X2) + p2 (-1074)).
  assert (Hf0 : p2 f0 <= B).
  { unfold f0. rewrite fexp_eq.
    destruct (Z.max_spec (d1 + ex - (d2 + ey) - 53) (-1074)) as [[_ ->]|[_ ->]];
      [unfold B; nra|].
    pose proof (digits_R_ge (Zpos mx) ex ltac:(lia)) as Hg.
    pose proof (digits_R_lt (Zpos my) ey ltac:(lia)) as Hl.
    fold d1 in Hg. fold d2 in Hl. fold X1 in Hg. fold X2 in Hl.
    replace (d1 + ex - (d2 + ey) - 53)%Z with (-52 + ((d1 - 1 + ex) - (d2 + ey)))%Z by lia.
    rewrite p2_add, p2_sub.
    pose proof (p2_pos (d2 + ey)). pose proof (p2_pos (d1 - 1 + ex)).
    assert (p2 (d1 - 1 + ex) / p2 (d2 + ey) <= X1 / X2).
    { unfold Rdiv. apply Rmult_le_compat; try lra.
      - apply Rlt_le, Rinv_0_lt_compat; lra.
      - apply Rinv_le_contravar; lra. }
    unfold B. nra. }
  assert (He' : p2 e' <= B).
  { apply Rle_trans with (p2 f0); auto. apply p2_le. unfold e'. lia. }
  assert (Hfq : p2 (fexp prec emax (Zdigits2 q + e')) <= B).
  { destruct (Z.eq_dec q 0%Z) as [->|Hq].
    - cbn [Zdigits2]. rewrite fexp_eq.
      destruct (Z.max_spec (0 + e' - 53) (-1074)) as [[_ ->]|[_ ->]]; [unfold B; nra|].
      apply Rle_trans with (p2 e'); auto. apply p2_le. lia.
    - apply fexp_bound; [lia|lra]. }
  assert (HBb : B <= p2 970).
  { assert (X1 / X2 <= p2 800).
    { replace 800%Z with (400 - (-400))%Z by lia. rewrite p2_sub.
      unfold Rdiv. apply Rmult_le_compat; try lra.
      - apply Rlt_le, Rinv_0_lt_compat; lra.
      - apply Rinv_le_contravar; lra. }
    pose proof (p2_le (-1074) 800 ltac:(lia)). pose proof (p2_le 800 969 ltac:(lia)).
    pose proof (p2_le (-52) 0 ltac:(lia)). change (p2 0) with 1 in *.
    replace 970%Z with (969 + 1)%Z by lia. rewrite p2_add. change (p2 1) with (2 * 1).
    unfold B. nra. }
  set (u := Z.max e' (fexp prec emax (Zdigits2 q + e'))).
  assert (Hpu : p2 u <= B) by (unfold u; apply Z.max_case; auto).
  assert (Hu : (u <= 970)%Z) by (apply p2_le_inv; lra).
  destruct (round_aux_R (xorb sx sy) q e' (new_location (Zpos my) r) (X1 / X2))
    as (V & Hf & HS & HV0 & Herr & _); auto.
  { intros Hl. apply new_location_exact in Hl. subst r.
    rewrite HXe. f_equal. rewrite Hdm, Z.add_0_r, mult_IZR. field. lra. }
  split; auto. rewrite HS, sgn_sub, Rabs_sgn.
  eapply Rle_trans; [exact Herr|]. exact Hpu.
Qed.

Lemma digits2_shift (m : positive) k : (0 <= k)%Z ->
  Zdigits2 (Zpos m * 2 ^ k) = (Zdigits2 (Zpos m) + k)%Z.
Proof.
  intros Hk.
  assert (Hp : (0 < Zpos m * 2 ^ k)%Z) by (apply Z.mul_pos_pos; [lia|apply Z.pow_pos_nonneg; lia]).
  pose proof (Zdigits2_lt (Zpos m) ltac:(lia)) as H1.
  pose proof (Zdigits2_ge (Zpos m) ltac:(lia)) as H2.
  pose proof (Zdigits2_lt _ (Z.lt_le_incl _ _ Hp)) as H3.
  pose proof (Zdigits2_ge _ Hp) as H4.
  set (d := Zdigits2 (Zpos m)) in *. set (d' := Zdigits2 (Zpos m * 2 ^ k)) in *.
  assert (Hd : (1 <= d)%Z) by (unfold d; cbn [Zdigits2]; lia).
  assert (Hd' : (1 <= d')%Z).
  { unfold d'. destruct (Zpos m * 2 ^ k)%Z; cbn [Zdigits2]; lia. }
  pose proof (Z.pow_pos_nonneg 2 k ltac:(lia) Hk) as Hpk.
  assert (A : (2 ^ (d' - 1) < 2 ^ (d + k))%Z).
  { rewrite Z.pow_add_r by lia. nia. }
  assert (B : (2 ^ (d - 1 + k) < 2 ^ d')%Z).
  { rewrite Z.pow_add_r by lia. nia. }
  apply Z.pow_lt_mono_r_iff in A; try lia.
  apply Z.pow_lt_mono_r_iff in B; try lia.
Qed.

Lemma shl_align_spec m e e' :
  exists mz ez, shl_align m e e' = (mz, ez) /\ ez = Z.min e e' /\
    Zpos mz = (Zpos m * 2 ^ (e - ez))%Z.
Proof.
  unfold shl_align. destruct (e' - e)%Z as [|p|p] eqn:E.
  - exists m, e. repeat split; try lia. rewrite Z.sub_diag. lia.
  - exists m, e. repeat split; try lia. rewrite Z.sub_diag. lia.
  - exists (Pos.iter xO m p), e'. repeat split; try lia.
    replace (e - e')%Z with (Zpos p) by lia.
    fold (shift_pos p m). rewrite shift_pos_correct, Z.pow_pos_fold. lia.
Qed.

Lemma binary_round_R s m e K : (-1074 <= K <= 970)%Z ->
  IZR (Zpos m) * p2 e <= p2 K ->
  exists V, SFfin (binary_round prec emax s m e) = true /\
    SFR (binary_round prec emax s m e) = sgn s V /\ 0 <= V /\
    Rabs (V - IZR (Zpos m) * p2 e) <= p2 (-52) * (IZR (Zpos m) * p2 e) + p2 (-1074) /\
    ((fexp prec emax (Zdigits2 (Zpos m) + e) <= e)%Z -> V = IZR (Zpos m) * p2 e).
Proof.
  intros HK HX. unfold binary_round.
  destruct (shl_align_spec m e (fexp prec emax (Zpos (digits2_pos m) + e)))
    as (mz & ez & -> & Hez & Hmz).
  change (Zpos (digits2_pos m)) with (Zdigits2 (Zpos m)) in *.
  set (f := fexp prec emax (Zdigits2 (Zpos m) + e)) in *.
  assert (Hsh : (0 <= e - ez)%Z) by lia.
  assert (Hval : IZR (Zpos mz) * p2 ez = IZR (Zpos m) * p2 e).
  { rewrite Hmz, mult_IZR, <- p2_IZR, Rmult_assoc, <- p2_add by lia. do 2 f_equal. lia. }
  assert (Hdig : (Zdigits2 (Zpos mz) + ez = Zdigits2 (Zpos m) + e)%Z).
  { rewrite Hmz, digits2_shift by lia. lia. }
  pose proof (p2_pos e) as Hpe. pose proof (p2_pos (-52)). pose proof (p2_pos (-1074)).
  assert (HmR : 1 <= IZR (Zpos m)) by (apply IZR_le; lia).
  assert (Hu : (Z.max ez (fexp prec emax (Zdigits2 (Zpos mz) + ez)) <= 970)%Z).
  { pose proof (u_bound (Zpos mz) ez K ltac:(lia) ltac:(lia) ltac:(lra)). lia. }
  destruct (round_aux_R s (Zpos mz) ez loc_Exact (IZR (Zpos m) * p2 e))
    as (V & Hf & HS & HV0 & Herr & Hex); try lia; auto.
  { rewrite plus_IZR, <- Hval. pose proof (p2_pos ez). nra. }
  exists V. rewrite Hdig in *. fold f in Herr, Hex.
  repeat split; auto.
  - destruct (Z_le_gt_dec f e) as [Hfe|Hfe].
    + rewrite (Hex eq_refl ltac:(lia)), Rminus_diag, Rabs_R0.
      assert (0 <= p2 (-52) * (IZR (Zpos m) * p2 e)) by (apply Rmult_le_pos; nra). lra.
    + replace (Z.max ez f) with f in Herr by lia.
      eapply Rle_trans; [exact Herr|]. unfold f. apply fexp_bound; [lia|lra].
  - intros Hfe. apply Hex; auto. lia.
Qed.

Lemma binary_normalize_R M e K : (-1074 <= K <= 970)%Z ->
  Rabs (IZR M * p2 e) <= p2 K ->
  SFfin (binary_normalize prec emax M e false) = true /\
  Rabs (SFR (binary_normalize prec emax M e false) - IZR M * p2 e)
    <= p2 (-52) * Rabs (IZR M * p2 e) + p2 (-1074) /\
  ((fexp prec emax (Zdigits2 M + e) <= e)%Z ->
    SFR (binary_normalize prec emax M e false) = IZR M * p2 e).
Proof.
  intros HK HX. pose proof (p2_pos e) as Hpe.
  pose proof (p2_pos (-52)). pose proof (p2_pos (-1074)).
  destruct M as [|p|p]; cbn [binary_normalize Zdigits2].
  - cbn [SFfin SFR]. rewrite Rmult_0_l, Rminus_diag, Rabs_R0. repeat split; auto; try lra.
  - assert (Hp : 0 <= IZR (Zpos p) * p2 e).
    { assert (0 <= IZR (Zpos p)) by (apply IZR_le; lia). nra. }
    rewrite (Rabs_pos_eq _ Hp) in *.
    destruct (binary_round_R false p e K HK HX) as (V & Hf & HS & HV0 & Herr & Hex).
    rewrite HS. unfold sgn. split; [exact Hf|]. split; [exact Herr|exact Hex].
  - assert (Hp : 0 <= IZR (Zpos p) * p2 e).
    { assert (0 <= IZR (Zpos p)) by (apply IZR_le; lia). nra. }
    assert (E : IZR (Zneg p) * p2 e = - (IZR (Zpos p) * p2 e)).
    { change (Zneg p) with (- Zpos p)%Z. rewrite opp_IZR. ring. }
    rewrite E in *. rewrite Rabs_Ropp, (Rabs_pos_eq _ Hp) in *.
    destruct (binary_round_R true p e K HK HX) as (V & Hf & HS & HV0 & Herr & Hex).
    rewrite HS. unfold sgn. split; [exact Hf|]. split.
    + replace (- V - - (IZR (Zpos p) * p2 e)) with (- (V - IZR (Zpos p) * p2 e)) by ring.
      rewrite Rabs_Ropp. exact Herr.
    + intros Hfe. rewrite (Hex Hfe). reflexivity.
Qed.

Lemma aligned_value (s : bool) m e ez : (ez <= e)%Z ->
  IZR (cond_Zopp s (Zpos (fst (shl_align m e ez)))) * p2 ez = sgn s (IZR (Zpos m) * p2 e).
Proof.
  intros Hle. destruct (shl_align_spec m e ez) as (mz & ez' & -> & Hez & Hmz).
  cbn [fst]. replace ez' with ez in * by lia.
  assert (IZR (Zpos mz) * p2 ez = IZR (Zpos m) * p2 e).
  { rewrite Hmz, mult_IZR, <- p2_IZR, Rmult_assoc, <- p2_add by lia. do 2 f_equal. lia. }
  destruct s; unfold sgn, cond_Zopp; [rewrite opp_IZR|]; lra.
Qed.

Lemma SFadd_R x y :
  SFfin x = true -> SFfin y = true -> Rabs (SFR x + SFR y) <= p2 900 ->
  SFfin (SF64add x y) = true /\
  Rabs (SFR (SF64add x y) - (SFR x + SFR y))
    <= p2 (-52) * Rabs (SFR x + SFR y) + p2 (-1074).
Proof.
  pose proof (p2_pos (-52)). pose proof (p2_pos (-1074)).
  assert (Z0 : forall v, 0 <= p2 (-52) * Rabs v + p2 (-1074)).
  { intros v. pose proof (Rabs_pos v). nra. }
  destruct x as [sx|sx| |sx mx ex], y as [sy|sy| |sy my ey]; try discriminate; intros _ _ Hb;
    unfold SF64add, SFadd.
  - destruct sx, sy; cbn [SFfin SFR]; split; auto;
      rewrite ?Rplus_0_l, Rminus_diag, Rabs_R0; lra.
  - cbn [SFfin]. split; auto. cbn [SFR]. rewrite Rplus_0_l, Rminus_diag, Rabs_R0. apply Z0.
  - cbn [SFfin]. split; auto. cbn [SFR]. rewrite Rplus_0_r, Rminus_diag, Rabs_R0. apply Z0.
  - cbv zeta. set (ez := Z.min ex ey).
    set (M := (cond_Zopp sx (Zpos (fst (shl_align mx ex ez)))
               + cond_Zopp sy (Zpos (fst (shl_align my ey ez))))%Z).
    assert (E : IZR M * p2 ez = SFR (S754_finite sx mx ex) + SFR (S754_finite sy my ey)).
    { unfold M. rewrite plus_IZR, Rmult_plus_distr_r, !aligned_value, !SFR_finite by (unfold ez; lia).
      reflexivity. }
    rewrite <- E in *.
    destruct (binary_normalize_R M ez 900 ltac:(lia) Hb) as (Hf & Herr & _). auto.
Qed.

Lemma SFsub_R x y :
  SFfin x = true -> SFfin y = true -> Rabs (SFR x - SFR y) <= p2 900 ->
  SFfin (SF64sub x y) = true /\
  Rabs (SFR (SF64sub x y) - (SFR x - SFR y))
    <= p2 (-52) * Rabs (SFR x - SFR y) + p2 (-1074).
Proof.
  pose proof (p2_pos (-52)). pose proof (p2_pos (-1074)).
  assert (Z0 : forall v, 0 <= p2 (-52) * Rabs v + p2 (-1074)).
  { intros v. pose proof (Rabs_pos v). nra. }
  destruct x as [sx|sx| |sx mx ex], y as [sy|sy| |sy my ey]; try discriminate; intros _ _ Hb;
    unfold SF64sub, SFsub.
  - destruct sx, sy; cbn [SFfin SFR]; split; auto;
      rewrite ?Rminus_0_r, ?Rminus_diag, Rabs_R0; lra.
  - cbn [SFfin]. split; auto. rewrite !SFR_finite. cbn [SFR].
    replace (sgn (negb sy) (IZR (Zpos my) * p2 ey) - (0 - sgn sy (IZR (Zpos my) * p2 ey))) with 0
      by (destruct sy; unfold sgn; simpl; ring).
    rewrite Rabs_R0. apply Z0.
  - cbn [SFfin]. split; auto. cbn [SFR]. rewrite Rminus_0_r, Rminus_diag, Rabs_R0. apply Z0.
  - cbv zeta. set (ez := Z.min ex ey).
    set (M := (cond_Zopp sx (Zpos (fst (shl_align mx ex ez)))
               - cond_Zopp sy (Zpos (fst (shl_align my ey ez))))%Z).
    assert (E : IZR M * p2 ez = SFR (S754_finite sx mx ex) - SFR (S754_finite sy my ey)).
    { unfold M. rewrite minus_IZR, Rmult_minus_distr_r, !aligned_value, !SFR_finite by (unfold ez; lia).
      reflexivity. }
    rewrite <- E in *.
    destruct (binary_normalize_R M ez 900 ltac:(lia) Hb) as (Hf & Herr & _). auto.
Qed.

Lemma mul_R x y : fin x -> fin y -> Rabs (FR x * FR y) <= p2 900 ->
  fin (x * y)%float /\
  Rabs (FR (x * y)%float - FR x * FR y) <= p2 (-52) * Rabs (FR x * FR y) + p2 (-1074).
Proof. unfold fin, FR. rewrite FloatAxioms.mul_spec. apply SFmul_R. Qed.

Lemma div_R x y : fin x -> fin y -> Rabs (FR x) <= p2 400 -> p2 (-400) <= Rabs (FR y) ->
  fin (x / y)%float /\
  Rabs (FR (x / y)%float - FR x / FR y) <= p2 (-52) * Rabs (FR x / FR y) + p2 (-1074).
Proof. unfold fin, FR. rewrite FloatAxioms.div_spec. apply SFdiv_R. Qed.

Lemma add_R x y : fin x -> fin y -> Rabs (FR x + FR y) <= p2 900 ->
  fin (x + y)%float /\
  Rabs (FR (x + y)%float - (FR x + FR y)) <= p2 (-52) * Rabs (FR x + FR y) + p2 (-1074).
Proof. unfold fin, FR. rewrite FloatAxioms.add_spec. apply SFadd_R. Qed.

Lemma sub_R x y : fin x -> fin y -> Rabs (FR x - FR y) <= p2 900 ->
  fin (x - y)%float /\
  Rabs (FR (x - y)%float - (FR x - FR y)) <= p2 (-52) * Rabs (FR x - FR y) + p2 (-1074).
Proof. unfold fin, FR. rewrite FloatAxioms.sub_spec. apply SFsub_R. Qed.

Lemma opp_R x : fin x -> fin (- x)%float /\ FR (- x)%float = - FR x.
Proof.
  unfold fin, FR. rewrite FloatAxioms.opp_spec. destruct (Prim2SF x) as [s|s| |s m e]; try discriminate;
    intros _; cbn [SFopp SFfin]; split; auto.
  - cbn [SFR]. ring.
  - rewrite !SFR_finite. destruct s; unfold sgn; simpl; ring.
Qed.

Lemma Zdigits2_le (z : Z) k : (0 <= z < 2 ^ k)%Z -> (0 <= k)%Z -> (Zdigits2 z <= k)%Z.
Proof.
  intros [Hz Hlt] Hk. destruct (Z.eq_dec z 0%Z) as [->|Hnz]; [cbn; lia|].
  pose proof (Zdigits2_ge z ltac:(lia)) as Hg.
  destruct (Z_le_gt_dec (Zdigits2 z) k) as [|Hgt]; auto.
  assert (2 ^ k <= 2 ^ (Zdigits2 z - 1))%Z by (apply Z.pow_le_mono_r; lia). lia.
Qed.

Lemma of_uint63_R (z : Z) : (0 <= z < 2 ^ 53)%Z ->
  fin (of_uint63 (Uint63.of_Z z)) /\ FR (of_uint63 (Uint63.of_Z z)) = IZR z.
Proof.
  intros Hz. unfold fin, FR. rewrite FloatAxioms.of_uint63_spec.
  assert (Hto : Uint63Axioms.to_Z (Uint63.of_Z z) = z).
  { change Uint63Axioms.to_Z with Uint63.to_Z. rewrite Uint63.of_Z_spec.
    apply Z.mod_small. change Uint63.wB with (2 ^ 63)%Z. lia. }
  rewrite Hto.
  assert (Hb : Rabs (IZR z * p2 0) <= p2 53).
  { change (p2 0) with 1. rewrite Rmult_1_r, Rabs_pos_eq by (apply IZR_le; lia).
    rewrite p2_IZR by lia. apply IZR_le. lia. }
  destruct (binary_normalize_R z 0 53 ltac:(lia) Hb) as (Hf & _ & Hex).
  split; auto. rewrite Hex.
  - change (p2 0) with 1. ring.
  - pose proof (Zdigits2_le z 53 Hz ltac:(lia)). rewrite fexp_eq. lia.
Qed.

Lemma Z2F_R (z : Z) : (Z.abs z < 2 ^ 53)%Z -> fin (Z2F z) /\ FR (Z2F z) = IZR z.
Proof.
  intros Hz. unfold Z2F. destruct (Z.ltb_spec z 0) as [Hneg|Hpos].
  - destruct (of_uint63_R (- z) ltac:(lia)) as [Hf HR].
    destruct (opp_R _ Hf) as [Hf' HR']. split; auto.
    rewrite HR', HR, opp_IZR. ring.
  - apply of_uint63_R. lia.
Qed.

Lemma F2Z_int x (N : Z) : fin x -> FR x = IZR N -> F2Z x = N.
Proof.
  unfold fin, FR, F2Z. destruct (Prim2SF x) as [s|s| |s m e]; try discriminate; intros _.
  - cbn [SFR]. intros H. apply eq_IZR. lra.
  - cbn [SFR]. intros H. pose proof (p2_pos e) as Hpe.
    destruct (Z_le_gt_dec 0 e) as [He|He].
    + rewrite Z.shiftl_mul_pow2 by lia. apply eq_IZR.
      rewrite mult_IZR, <- p2_IZR by lia. exact H.
    + rewrite Z.shiftl_div_pow2 by lia.
      assert (E : cond_Zopp s (Zpos m) = (N * 2 ^ (- e))%Z).
      { apply eq_IZR. rewrite mult_IZR, <- p2_IZR, <- H, Rmult_assoc, <- p2_add by lia.
        replace (e + - e)%Z with 0%Z by lia. change (p2 0) with 1. ring. }
      rewrite E. apply Z.div_mul. apply Z.pow_nonzero; lia.
Qed.

Lemma valid_mantissa x s m e : Prim2SF x = S754_finite s m e ->
  (Zpos m < 2 ^ 53)%Z /\ (-1074 <= e <= 971)%Z.
Proof.
  intros Hx. pose proof (Prim2SF_valid x) as Hv. rewrite Hx in Hv.
  cbn [SpecFloat.valid_binary] in Hv. unfold bounded, canonical_mantissa in Hv.
  apply andb_prop in Hv. destruct Hv as [Hc Hb].
  apply Z.eqb_eq in Hc. apply Z.leb_le in Hb. rewrite fexp_eq in Hc.
  change (emax - prec)%Z with 971%Z in Hb.
  split; [|lia].
  pose proof (digits_lt m) as Hd.
  eapply Z.lt_le_trans; [exact Hd|]. apply Z.pow_le_mono_r; lia.
Qed.

Lemma Math_round_R y : fin y ->
  exists N : Z, fin (Math_round y) /\ FR (Math_round y) = IZR N /\
    F2Z (Math_round y) = N /\ FR y - / 2 < IZR N <= FR y + / 2.
Proof.
  intros Hf. unfold Math_round.
  destruct (Prim2SF y) as [s|s| |s m e] eqn:Hy; try (unfold fin in Hf; rewrite Hy in Hf; discriminate).
  - exists 0%Z. assert (HR : FR y = 0) by (unfold FR; rewrite Hy; reflexivity).
    repeat split; auto; try lra. apply F2Z_int; auto.
  - destruct (valid_mantissa y s m e Hy) as [Hm He].
    assert (HR : FR y = IZR (cond_Zopp s (Zpos m)) * p2 e) by (unfold FR; rewrite Hy; reflexivity).
    pose proof (p2_pos e) as Hpe.
    destruct (Z.leb_spec 0 e) as [Hge|Hlt].
    + exists (cond_Zopp s (Zpos m) * 2 ^ e)%Z.
      assert (HRN : FR y = IZR (cond_Zopp s (Zpos m) * 2 ^ e)).
      { rewrite HR, mult_IZR, <- p2_IZR by lia. reflexivity. }
      repeat split; auto; try lra. apply F2Z_int; auto.
    + set (sm := cond_Zopp s (Zpos m)) in *. set (P := (2 ^ (- e))%Z).
      assert (HP : (2 <= P)%Z).
      { unfold P. change 2%Z with (2 ^ 1)%Z at 1. apply Z.pow_le_mono_r; lia. }
      assert (HP2 : (2 ^ (- e + 1) = 2 * P)%Z).
      { unfold P. rewrite Z.pow_add_r by lia. lia. }
      rewrite HP2. fold P.
      set (n := ((sm * 2 + P) / (2 * P))%Z).
      assert (Hsm : (Z.abs sm < 2 ^ 53)%Z) by (unfold sm; destruct s; simpl; lia).
      assert (Hn1 : (n * (2 * P) <= sm * 2 + P)%Z).
      { unfold n. rewrite Z.mul_comm. apply Z.mul_div_le. lia. }
      assert (Hn2 : (sm * 2 + P < (n + 1) * (2 * P))%Z).
      { unfold n. pose proof (Z.mul_succ_div_gt (sm * 2 + P) (2 * P) ltac:(lia)). lia. }
      assert (Hnb : (Z.abs n < 2 ^ 53)%Z) by nia.
      assert (HPR : IZR P * p2 e = 1).
      { unfold P. rewrite <- p2_IZR, <- p2_add by lia. replace (- e + e)%Z with 0%Z by lia.
        reflexivity. }
      assert (HPpos : 0 < IZR P) by (apply IZR_lt; lia).
      assert (Hbd : FR y - / 2 < IZR n <= FR y + / 2).
      { rewrite HR. apply IZR_le in Hn1. apply IZR_lt in Hn2.
        repeat (rewrite mult_IZR in Hn1 || rewrite plus_IZR in Hn1).
        repeat (rewrite mult_IZR in Hn2 || rewrite plus_IZR in Hn2).
        assert (E : IZR sm * p2 e = IZR sm / IZR P).
        { apply Rmult_eq_reg_r with (IZR P); [|lra]. unfold Rdiv.
          rewrite !Rmult_assoc, Rinv_l, Rmult_1_r by lra. rewrite (Rmult_comm (p2 e)), HPR. ring. }
        rewrite E. split.
        - apply Rmult_lt_reg_r with (2 * IZR P); [lra|].
          unfold Rdiv. replace ((IZR sm * / IZR P - / 2) * (2 * IZR P))
            with (2 * IZR sm * (/ IZR P * IZR P) - IZR P) by (field; lra).
          rewrite Rinv_l by lra. lra.
        - apply Rmult_le_reg_r with (2 * IZR P); [lra|].
          unfold Rdiv. replace ((IZR sm * / IZR P + / 2) * (2 * IZR P))
            with (2 * IZR sm * (/ IZR P * IZR P) + IZR P) by (field; lra).
          rewrite Rinv_l by lra. lra. }
      exists n. destruct (Z.eqb_spec n 0) as [Hn0|Hn0].
      * rewrite Hn0 in *.
        assert (fin zero /\ FR zero = 0 /\ fin neg_zero /\ FR neg_zero = 0) as (A & B & C & D).
        { unfold fin, FR. repeat split; vm_compute; auto. }
        destruct s; repeat split; auto; try lra; apply F2Z_int; auto.
      * destruct (Z2F_R n Hnb) as [Hfn HRn].
        repeat split; auto; try lra. apply F2Z_int; auto.
Qed.

End Binary64.

Section Numeric.
#[local] Open Scope R_scope.

Lemma Rabs_le_inv a b : Rabs a <= b -> - b <= a <= b.
Proof. unfold Rabs. destruct (Rcase_abs a); lra. Qed.

Lemma Rabs_mul_bound a b A B : Rabs a <= A -> Rabs b <= B -> Rabs (a * b) <= A * B.
Proof.
  intros Ha Hb. rewrite Rabs_mult.
  apply Rmult_le_compat; auto using Rabs_pos.
Qed.

Lemma p2_m52 : p2 (-52) = / 4503599627370496.
Proof.
  change (-52)%Z with (0 - 52)%Z. rewrite p2_sub, (p2_IZR 52) by lia.
  change (p2 0) with 1. change (2 ^ 52)%Z with 4503599627370496%Z. lra.
Qed.

Lemma p2_tiny : p2 (-1074) <= / 1000000000000000000000000000000.
Proof.
  apply Rle_trans with (p2 (-100)); [apply p2_le; lia|].
  change (-100)%Z with (0 - 100)%Z. rewrite p2_sub, (p2_IZR 100) by lia.
  change (p2 0) with 1. change (2 ^ 100)%Z with 1267650600228229401496703205376%Z.
  unfold Rdiv. rewrite Rmult_1_l. apply Rinv_le_contravar; lra.
Qed.

Lemma p2_400 : 1000000 <= p2 400.
Proof.
  apply Rle_trans with (p2 20); [|apply p2_le; lia].
  rewrite p2_IZR by lia. change (2 ^ 20)%Z with 1048576%Z. lra.
Qed.

Lemma p2_900 : 1000000000000000000 <= p2 900.
Proof.
  apply Rle_trans with (p2 60); [|apply p2_le; lia].
  rewrite p2_IZR by lia. change (2 ^ 60)%Z with 1152921504606846976%Z. lra.
Qed.

Lemma p2_m400 : p2 (-400) <= / 1000000.
Proof.
  apply Rle_trans with (p2 (-20)); [apply p2_le; lia|].
  change (-20)%Z with (0 - 20)%Z. rewrite p2_sub, (p2_IZR 20) by lia.
  change (p2 0) with 1. change (2 ^ 20)%Z with 1048576%Z.
  unfold Rdiv. rewrite Rmult_1_l. apply Rinv_le_contravar; lra.
Qed.

Lemma fin_100 : fin 100%float /\ FR 100%float = 100.
Proof. change 100%float with (Z2F 100). apply Z2F_R. simpl. lia. Qed.

End Numeric.

Section Approx.
#[local] Open Scope R_scope.

#[local] Abbreviation eps := (/ 4503599627370496) (only parsing).
#[local] Abbreviation tny := (/ 1000000000000000000000000000000) (only parsing).

Lemma approx_weaken x v e e' : approx x v e -> e <= e' -> approx x v e'.
Proof. intros [Hf He] Hle. split; auto. lra. Qed.

Lemma approx_abs x v e B : approx x v e -> Rabs v <= B -> Rabs (FR x) <= B + e.
Proof.
  intros [_ He] Hv. replace (FR x) with (v + (FR x - v)) by ring.
  eapply Rle_trans; [apply Rabs_triang|]. lra.
Qed.

Lemma approx_Z2F z : (Z.abs z < 2 ^ 53)%Z -> approx (Z2F z) (IZR z) 0.
Proof.
  intros Hz. destruct (Z2F_R z Hz) as [Hf HR]. split; auto.
  rewrite HR, Rminus_diag, Rabs_R0. lra.
Qed.

Lemma round_err v : Rabs v * p2 (-52) + p2 (-1074) <= Rabs v * eps + tny.
Proof.
  rewrite p2_m52. pose proof p2_tiny. lra.
Qed.

Lemma approx_mul x y vx vy ex ey Bx By :
  approx x vx ex -> approx y vy ey -> Rabs vx <= Bx -> Rabs vy <= By ->
  (Bx + ex) * (By + ey) <= 1000000000000000000 ->
  approx (x * y)%float (vx * vy)
    ((Bx + ex) * (By + ey) * eps + tny + ex * (By + ey) + Bx * ey).
Proof.
  intros Hx Hy HBx HBy Hb.
  pose proof (approx_abs _ _ _ _ Hx HBx) as Ax. pose proof (approx_abs _ _ _ _ Hy HBy) as Ay.
  destruct Hx as [Fx Ex], Hy as [Fy Ey].
  pose proof (Rabs_mul_bound _ _ _ _ Ax Ay) as Axy.
  destruct (mul_R x y Fx Fy) as [Fxy Exy].
  { pose proof p2_900. lra. }
  split; auto.
  replace (FR (x * y)%float - vx * vy)
    with ((FR (x * y)%float - FR x * FR y) + ((FR x - vx) * FR y + vx * (FR y - vy))) by ring.
  eapply Rle_trans; [apply Rabs_triang|].
  assert (H1 : Rabs ((FR x - vx) * FR y + vx * (FR y - vy)) <= ex * (By + ey) + Bx * ey).
  { eapply Rle_trans; [apply Rabs_triang|].
    pose proof (Rabs_mul_bound _ _ _ _ Ex Ay). pose proof (Rabs_mul_bound _ _ _ _ HBx Ey). lra. }
  pose proof (round_err (FR x * FR y)) as Hr.
  assert (Rabs (FR x * FR y) * eps <= (Bx + ex) * (By + ey) * eps).
  { apply Rmult_le_compat_r; [lra|exact Axy]. }
  lra.
Qed.

Lemma approx_div x y vx vy ex ey Bx Ly :
  approx x vx ex -> approx y vy ey -> Rabs vx <= Bx -> Ly <= Rabs vy ->
  Bx + ex <= 1000000 -> / 1000000 <= Ly - ey -> 0 <= ex -> 0 <= ey ->
  approx (x / y)%float (vx / vy)
    ((Bx + ex) / (Ly - ey) * eps + tny + (ex + Bx * ey / Ly) / (Ly - ey)).
Proof.
  intros Hx Hy HBx HLy Hb1 Hb2 Hex Hey.
  pose proof (approx_abs _ _ _ _ Hx HBx) as Ax.
  destruct Hx as [Fx Ex], Hy as [Fy Ey].
  assert (HLy0 : 0 < Ly) by (assert (0 < / 1000000) by lra; lra).
  assert (Ay : Ly - ey <= Rabs (FR y)).
  { pose proof (Rabs_triang_inv vy (vy - FR y)) as Ht.
    replace (vy - (vy - FR y)) with (FR y) in Ht by ring.
    rewrite <- (Rabs_Ropp (vy - FR y)) in Ht.
    replace (- (vy - FR y)) with (FR y - vy) in Ht by ring.
    pose proof (Rabs_triang (FR y) (vy - FR y)) as Ht2.
    replace (FR y + (vy - FR y)) with vy in Ht2 by ring.
    rewrite <- (Rabs_Ropp (vy - FR y)) in Ht2.
    replace (- (vy - FR y)) with (FR y - vy) in Ht2 by ring. lra. }
  assert (Hy0 : FR y <> 0).
  { intros E. rewrite E, Rabs_R0 in Ay. assert (0 < / 1000000) by lra. lra. }
  assert (Hvy0 : vy <> 0).
  { intros E. rewrite E, Rabs_R0 in HLy. lra. }
  assert (Hd0 : 0 < Ly - ey) by (assert (0 < / 1000000) by lra; lra).
  destruct (div_R x y Fx Fy) as [Fxy Exy].
  { pose proof p2_400. lra. }
  { pose proof p2_m400. lra. }
  split; auto.
  assert (Aq : Rabs (FR x / FR y) <= (Bx + ex) / (Ly - ey)).
  { unfold Rdiv. rewrite Rabs_mult, Rabs_inv.
    apply Rmult_le_compat; auto using Rabs_pos.
    - apply Rlt_le, Rinv_0_lt_compat. lra.
    - apply Rinv_le_contravar; lra. }
  replace (FR (x / y)%float - vx / vy)
    with ((FR (x / y)%float - FR x / FR y) + ((FR x - vx) / FR y + vx * (vy - FR y) / (vy * FR y)))
    by (field; auto).
  eapply Rle_trans; [apply Rabs_triang|].
  assert (H1 : Rabs ((FR x - vx) / FR y) <= ex / (Ly - ey)).
  { unfold Rdiv. rewrite Rabs_mult, Rabs_inv.
    apply Rmult_le_compat; auto using Rabs_pos.
    - apply Rlt_le, Rinv_0_lt_compat. lra.
    - apply Rinv_le_contravar; lra. }
  assert (H2 : Rabs (vx * (vy - FR y) / (vy * FR y)) <= Bx * ey / Ly / (Ly - ey)).
  { replace (vx * (vy - FR y) / (vy * FR y)) with (vx * (vy - FR y) * / vy * / FR y) by (field; auto).
    unfold Rdiv. rewrite !Rabs_mult, !Rabs_inv.
    rewrite <- (Rabs_Ropp (vy - FR y)). replace (- (vy - FR y)) with (FR y - vy) by ring.
    apply Rmult_le_compat.
    - repeat apply Rmult_le_pos; auto using Rabs_pos. apply Rlt_le, Rinv_0_lt_compat. lra.
    - apply Rlt_le, Rinv_0_lt_compat. lra.
    - apply Rmult_le_compat.
      + apply Rmult_le_pos; auto using Rabs_pos.
      + apply Rlt_le, Rinv_0_lt_compat. lra.
      + apply Rmult_le_compat; auto using Rabs_pos.
      + apply Rinv_le_contravar; lra.
    - apply Rinv_le_contravar; lra. }
  eapply Rle_trans; [apply Rplus_le_compat; [exact Exy | apply Rabs_triang]|].
  pose proof (round_err (FR x / FR y)) as Hr.
  assert (Rabs (FR x / FR y) * eps <= (Bx + ex) / (Ly - ey) * eps).
  { apply Rmult_le_compat_r; [lra|exact Aq]. }
  unfold Rdiv in *. lra.
Qed.

Lemma approx_add x y vx vy ex ey B :
  approx x vx ex -> approx y vy ey -> Rabs (vx + vy) <= B ->
  B + ex + ey <= 1000000000000000000 ->
  approx (x + y)%float (vx + vy) ((B + ex + ey) * eps + tny + ex + ey).
Proof.
  intros [Fx Ex] [Fy Ey] HB Hb.
  assert (A : Rabs (FR x + FR y) <= B + ex + ey).
  { replace (FR x + FR y) with ((vx + vy) + ((FR x - vx) + (FR y - vy))) by ring.
    eapply Rle_trans; [apply Rabs_triang|].
    pose proof (Rabs_triang (FR x - vx) (FR y - vy)). lra. }
  destruct (add_R x y Fx Fy) as [Fxy Exy].
  { pose proof p2_900. lra. }
  split; auto.
  replace (FR (x + y)%float - (vx + vy))
    with ((FR (x + y)%float - (FR x + FR y)) + ((FR x - vx) + (FR y - vy))) by ring.
  eapply Rle_trans; [apply Rabs_triang|].
  pose proof (Rabs_triang (FR x - vx) (FR y - vy)).
  pose proof (round_err (FR x + FR y)) as Hr.
  assert (Rabs (FR x + FR y) * eps <= (B + ex + ey) * eps).
  { apply Rmult_le_compat_r; [lra|exact A]. }
  lra.
Qed.

Lemma approx_sub x y vx vy ex ey B :
  approx x vx ex -> approx y vy ey -> Rabs (vx - vy) <= B ->
  B + ex + ey <= 1000000000000000000 ->
  approx (x - y)%float (vx - vy) ((B + ex + ey) * eps + tny + ex + ey).
Proof.
  intros [Fx Ex] [Fy Ey] HB Hb.
  assert (A : Rabs (FR x - FR y) <= B + ex + ey).
  { replace (FR x - FR y) with ((vx - vy) + ((FR x - vx) + - (FR y - vy))) by ring.
    eapply Rle_trans; [apply Rabs_triang|].
    pose proof (Rabs_triang (FR x - vx) (- (FR y - vy))) as Ht. rewrite Rabs_Ropp in Ht.
    lra. }
  destruct (sub_R x y Fx Fy) as [Fxy Exy].
  { pose proof p2_900. lra. }
  split; auto.
  replace (FR (x - y)%float - (vx - vy))
    with ((FR (x - y)%float - (FR x - FR y)) + ((FR x - vx) + - (FR y - vy))) by ring.
  eapply Rle_trans; [apply Rabs_triang|].
  pose proof (Rabs_triang (FR x - vx) (- (FR y - vy))) as Ht. rewrite Rabs_Ropp in Ht.
  pose proof (round_err (FR x - FR y)) as Hr.
  assert (Rabs (FR x - FR y) * eps <= (B + ex + ey) * eps).
  { apply Rmult_le_compat_r; [lra|exact A]. }
  lra.
Qed.

End Approx.

Section Rounding.
#[local] Open Scope R_scope.

Lemma valid_canonical x s m e : Prim2SF x = S754_finite s m e ->
  (0 <= e)%Z -> (2 ^ 52 <= Zpos m)%Z.
Proof.
  intros Hx He. pose proof (Prim2SF_valid x) as Hv. rewrite Hx in Hv.
  cbn [SpecFloat.valid_binary] in Hv. unfold bounded, canonical_mantissa in Hv.
  apply andb_prop in Hv. destruct Hv as [Hc _].
  apply Z.eqb_eq in Hc. rewrite fexp_eq in Hc.
  assert (Hd : Zpos (digits2_pos m) = 53%Z) by lia.
  pose proof (digits_ge m) as Hg. rewrite Hd in Hg. exact Hg.
Qed.

Lemma Math_round_Z2F y : fin y -> Rabs (FR y) < p2 52 ->
  0 < FR y \/ F2Z (Math_round y) <> 0%Z ->
  Math_round y = Z2F (F2Z (Math_round y)).
Proof.
  intros Hf Hb Hs. revert Hs. unfold Math_round.
  destruct (Prim2SF y) as [s|s| |s m e] eqn:Hy; try (unfold fin in Hf; rewrite Hy in Hf; discriminate).
  - assert (HR : FR y = 0) by (unfold FR; rewrite Hy; reflexivity).
    assert (HZ : F2Z y = 0%Z) by (unfold F2Z; rewrite Hy; reflexivity).
    intros [H|H]; [lra|congruence].
  - assert (HR : FR y = sgn s (IZR (Zpos m) * p2 e)) by (unfold FR; rewrite Hy; apply SFR_finite).
    pose proof (p2_pos e) as Hpe.
    destruct (Z.leb_spec 0 e) as [Hge|Hlt].
    + exfalso. pose proof (valid_canonical y s m e Hy Hge) as Hm.
      rewrite HR, Rabs_sgn in Hb.
      assert (p2 52 <= IZR (Zpos m) * p2 e).
      { rewrite (p2_IZR 52) by lia. pose proof (p2_ge1 e Hge).
        assert (IZR (2 ^ 52) <= IZR (Zpos m)) by (apply IZR_le; exact Hm).
        assert (0 < IZR (2 ^ 52)) by (apply IZR_lt; lia). nra. }
      rewrite Rabs_pos_eq in Hb; [lra|].
      assert (0 <= IZR (Zpos m)) by (apply IZR_le; lia). nra.
    + destruct (Z.eqb_spec ((cond_Zopp s (Zpos m) * 2 + 2 ^ (- e)) / 2 ^ (- e + 1)) 0) as [Hn0|Hn0].
      * destruct s.
        -- intros [H|H]; [|exfalso; apply H; vm_compute; reflexivity].
           exfalso. rewrite HR in H. unfold sgn in H.
           assert (0 <= IZR (Zpos m)) by (apply IZR_le; lia). nra.
        -- intros _. vm_compute. reflexivity.
      * intros _. f_equal. symmetry. apply F2Z_int.
        -- apply Z2F_R.
           destruct (valid_mantissa y s m e Hy) as [Hm He].
           set (sm := cond_Zopp s (Zpos m)) in *. set (P := (2 ^ (- e))%Z) in *.
           assert (HP : (2 <= P)%Z).
           { unfold P. change 2%Z with (2 ^ 1)%Z at 1. apply Z.pow_le_mono_r; lia. }
           assert (HP2 : (2 ^ (- e + 1) = 2 * P)%Z).
           { unfold P. rewrite Z.pow_add_r by lia. lia. }
           rewrite HP2 in *.
           set (n := ((sm * 2 + P) / (2 * P))%Z) in *.
           assert (Hsm : (Z.abs sm < 2 ^ 53)%Z) by (unfold sm; destruct s; simpl; lia).
           assert (Hn1 : (n * (2 * P) <= sm * 2 + P)%Z).
           { unfold n. rewrite Z.mul_comm. apply Z.mul_div_le. lia. }
           assert (Hn2 : (sm * 2 + P < (n + 1) * (2 * P))%Z).
           { unfold n. pose proof (Z.mul_succ_div_gt (sm * 2 + P) (2 * P) ltac:(lia)). lia. }
           nia.
        -- apply Z2F_R.
           destruct (valid_mantissa y s m e Hy) as [Hm He].
           set (sm := cond_Zopp s (Zpos m)) in *. set (P := (2 ^ (- e))%Z) in *.
           assert (HP : (2 <= P)%Z).
           { unfold P. change 2%Z with (2 ^ 1)%Z at 1. apply Z.pow_le_mono_r; lia. }
           assert (HP2 : (2 ^ (- e + 1) = 2 * P)%Z).
           { unfold P. rewrite Z.pow_add_r by lia. lia. }
           rewrite HP2 in *.
           set (n := ((sm * 2 + P) / (2 * P))%Z) in *.
           assert (Hsm : (Z.abs sm < 2 ^ 53)%Z) by (unfold sm; destruct s; simpl; lia).
           assert (Hn1 : (n * (2 * P) <= sm * 2 + P)%Z).
           { unfold n. rewrite Z.mul_comm. apply Z.mul_div_le. lia. }
           assert (Hn2 : (sm * 2 + P < (n + 1) * (2 * P))%Z).
           { unfold n. pose proof (Z.mul_succ_div_gt (sm * 2 + P) (2 * P) ltac:(lia)). lia. }
           nia.
Qed.

Lemma approx_round y v e (n : Z) d :
  approx y v e -> Rabs (v - IZR n) <= d -> e + d < / 2 ->
  fin (Math_round y) /\ FR (Math_round y) = IZR n /\ F2Z (Math_round y) = n.
Proof.
  intros [Hf He] Hv Hed.
  destruct (Math_round_R y Hf) as (N & HfN & HRN & HZN & Hlo & Hhi).
  assert (HNn : N = n).
  { apply Rabs_le_inv in He. apply Rabs_le_inv in Hv.
    assert (H1 : IZR N - IZR n < 1) by lra.
    assert (H2 : -1 < IZR N - IZR n) by lra.
    rewrite <- minus_IZR in H1, H2.
    apply lt_IZR in H1. apply lt_IZR in H2. lia. }
  rewrite HNn in HRN, HZN. repeat split; auto.
Qed.

End Rounding.

Section PayoutSlack.
#[local] Open Scope R_scope.

Lemma approx_100 : approx 100%float 100 0.
Proof. change 100%float with (Z2F 100). apply approx_Z2F. simpl. lia. Qed.

Lemma approx_hundredths (k : Z) : (Z.abs k <= 10000)%Z ->
  approx (hundredths k) (IZR k / 100) (/ 40000000000000).
Proof.
  intros Hk. unfold hundredths.
  assert (Hk' : Rabs (IZR k) <= 10000).
  { rewrite <- abs_IZR. apply IZR_le. exact Hk. }
  pose proof (approx_div _ _ _ _ _ _ 10000 100 (approx_Z2F k ltac:(lia)) approx_100 Hk'
                ltac:(rewrite Rabs_pos_eq; lra) ltac:(lra) ltac:(lra) ltac:(lra) ltac:(lra)) as H.
  eapply approx_weaken; [exact H|]. lra.
Qed.

Lemma payout_term (D k : Z) : (Z.abs D <= 10 ^ 14)%Z -> (0 <= k <= 10000)%Z ->
  Rabs (IZR (F2Z (Math_round (Z2F D * (hundredths k / 100))%float)) - IZR D * IZR k / 10000)
    <= 3 / 4.
Proof.
  intros HD Hk.
  assert (HD' : Rabs (IZR D) <= 100000000000000).
  { rewrite <- abs_IZR. apply IZR_le. exact HD. }
  assert (Hk' : Rabs (IZR k / 100) <= 100).
  { apply Rabs_le. assert (0 <= IZR k <= 10000) by (split; apply IZR_le; lia). lra. }
  pose proof (approx_hundredths k ltac:(lia)) as A2.
  pose proof (approx_div _ _ _ _ _ _ 100 100 A2 approx_100 Hk'
                ltac:(rewrite Rabs_pos_eq; lra) ltac:(lra) ltac:(lra) ltac:(lra) ltac:(lra)) as A3.
  apply approx_weaken with (e' := / 2000000000000000) in A3; [|lra].
  assert (Hk3 : Rabs (IZR k / 100 / 100) <= 1).
  { apply Rabs_le. assert (0 <= IZR k <= 10000) by (split; apply IZR_le; lia). lra. }
  pose proof (approx_mul _ _ _ _ _ _ 100000000000000 1
                (approx_Z2F D ltac:(lia)) A3 HD' Hk3 ltac:(lra)) as A4.
  apply approx_weaken with (e' := / 4) in A4; [|lra].
  destruct A4 as [F4 E4].
  destruct (Math_round_R _ F4) as (N & _ & _ & HZ & Hlo & Hhi).
  rewrite HZ. apply Rabs_le_inv in E4. apply Rabs_le.
  replace (IZR D * IZR k / 10000) with (IZR D * (IZR k / 100 / 100)) by field. lra.
Qed.

End PayoutSlack.

Section Round2.
#[local] Open Scope R_scope.

#[local] Abbreviation eps := (/ 4503599627370496) (only parsing).

Lemma approx_EPSILON : approx Number_EPSILON eps 0.
Proof.
  assert (H : Prim2SF Number_EPSILON = S754_finite false 4503599627370496 (-104)) by reflexivity.
  split; [unfold fin; rewrite H; reflexivity|].
  unfold FR. rewrite H. cbn [SFR cond_Zopp].
  change (-104)%Z with (-52 + -52)%Z. rewrite p2_add, p2_m52.
  replace (4503599627370496 * (/ 4503599627370496 * / 4503599627370496) - / 4503599627370496)
    with 0 by (field; lra).
  rewrite Rabs_R0. lra.
Qed.

Lemma approx_self x : fin x -> approx x (FR x) 0.
Proof. intros Hf. split; auto. rewrite Rminus_diag, Rabs_R0. lra. Qed.

Lemma approx_hundredths_wide (k : Z) : (Z.abs k <= 1000000)%Z ->
  approx (hundredths k) (IZR k / 100) (/ 100000000000).
Proof.
  intros Hk. unfold hundredths.
  assert (Hk' : Rabs (IZR k) <= 1000000).
  { rewrite <- abs_IZR. apply IZR_le. exact Hk. }
  pose proof (approx_div _ _ _ _ _ _ 1000000 100 (approx_Z2F k ltac:(lia)) approx_100 Hk'
                ltac:(rewrite Rabs_pos_eq; lra) ltac:(lra) ltac:(lra) ltac:(lra) ltac:(lra)) as H.
  eapply approx_weaken; [exact H|]. lra.
Qed.

(** The argument of [Math_round] inside [round2 x], when [x] is within [e]
    of [v]. *)
Lemma round2_arg x v e : approx x v e -> Rabs v <= 20000 -> 0 <= e <= / 1000000 ->
  approx ((x + Number_EPSILON) * 100)%float ((v + eps) * 100) (101 * e + / 100000000).
Proof.
  intros A Hv He.
  assert (Hv' : Rabs (v + eps) <= 20001).
  { apply Rabs_le_inv in Hv. apply Rabs_le. lra. }
  pose proof (approx_add _ _ _ _ _ _ 20001 A approx_EPSILON Hv' ltac:(lra)) as A1.
  pose proof (approx_mul _ _ _ _ _ _ 20001 100 A1 approx_100 Hv'
                ltac:(rewrite Rabs_pos_eq; lra) ltac:(lra)) as A2.
  eapply approx_weaken; [exact A2|]. lra.
Qed.

Lemma round2_value x (n : Z) e : approx x (IZR n / 100) e -> (Z.abs n <= 1000000)%Z ->
  0 <= e <= / 1000000 ->
  let r := Math_round ((x + Number_EPSILON) * 100)%float in
  fin r /\ FR r = IZR n /\ F2Z r = n /\
  approx (Page.round2 x) (IZR n / 100) (/ 100000000000).
Proof.
  intros A Hn He r.
  assert (Hn' : Rabs (IZR n) <= 1000000).
  { rewrite <- abs_IZR. apply IZR_le. exact Hn. }
  assert (Hv : Rabs (IZR n / 100) <= 20000).
  { apply Rabs_le_inv in Hn'. apply Rabs_le. lra. }
  pose proof (round2_arg x _ e A Hv He) as A2.
  destruct (approx_round _ _ _ n (/ 1000000) A2) as (Fr & Rr & Zr).
  { apply Rabs_le. split; field_simplify; lra. }
  { lra. }
  fold r in Fr, Rr, Zr. repeat split; auto.
  - unfold Page.round2. fold r.
    assert (Ar : approx r (IZR n) 0).
    { split; auto. rewrite Rr, Rminus_diag, Rabs_R0. lra. }
    pose proof (approx_div _ _ _ _ _ _ 1000000 100 Ar approx_100 Hn'
                  ltac:(rewrite Rabs_pos_eq; lra) ltac:(lra) ltac:(lra) ltac:(lra) ltac:(lra)) as H.
    destruct H as [H1 H2]. exact H1.
  - unfold Page.round2. fold r.
    assert (Ar : approx r (IZR n) 0).
    { split; auto. rewrite Rr, Rminus_diag, Rabs_R0. lra. }
    pose proof (approx_div _ _ _ _ _ _ 1000000 100 Ar approx_100 Hn'
                  ltac:(rewrite Rabs_pos_eq; lra) ltac:(lra) ltac:(lra) ltac:(lra) ltac:(lra)) as H.
    destruct H as [H1 H2]. eapply Rle_trans; [exact H2|]. lra.
Qed.

Lemma p2_52_big : 1000000000 <= p2 52.
Proof. rewrite p2_IZR by lia. change (2 ^ 52)%Z with 4503599627370496%Z. lra. Qed.

(** [round2] of a double close to the non-zero decimal [n/100] is the double
    of that decimal. *)
Lemma round2_near x (n : Z) e : approx x (IZR n / 100) e -> (Z.abs n <= 1000000)%Z ->
  0 <= e <= / 1000000 -> n <> 0%Z -> Page.round2 x = hundredths n.
Proof.
  intros A Hn He Hn0.
  destruct (round2_value x n e A Hn He) as (Fr & Rr & Zr & _).
  unfold Page.round2, hundredths. f_equal.
  transitivity (Z2F (F2Z (Math_round ((x + Number_EPSILON) * 100)%float)));
    [|f_equal; exact Zr].
  apply Math_round_Z2F.
  - assert (Hv : Rabs (IZR n / 100) <= 20000).
    { assert (Hn' : Rabs (IZR n) <= 1000000) by (rewrite <- abs_IZR; apply IZR_le; exact Hn).
      apply Rabs_le_inv in Hn'. apply Rabs_le. lra. }
    destruct (round2_arg x _ e A Hv He) as [F _]. exact F.
  - assert (Hn' : Rabs (IZR n) <= 1000000) by (rewrite <- abs_IZR; apply IZR_le; exact Hn).
    assert (Hv : Rabs (IZR n / 100) <= 20000).
    { apply Rabs_le_inv in Hn'. apply Rabs_le. lra. }
    destruct (round2_arg x _ e A Hv He) as [_ E].
    apply Rabs_le_inv in E. apply Rabs_le_inv in Hn'. pose proof p2_52_big.
    apply Rabs_def1; lra.
  - right. rewrite Zr. exact Hn0.
Qed.

(** [round2] of a double that is zero up to [10^-20]. *)
Lemma round2_zero x : approx x 0 (/ 100000000000000000000) -> Page.round2 x = hundredths 0.
Proof.
  intros A.
  assert (A0 : approx x (IZR 0 / 100) (/ 100000000000000000000)).
  { replace (IZR 0 / 100) with 0 by (simpl; lra). exact A. }
  destruct (round2_value x 0 _ A0 ltac:(simpl; lia) ltac:(lra)) as (Fr & Rr & Zr & _).
  unfold Page.round2, hundredths. f_equal.
  transitivity (Z2F (F2Z (Math_round ((x + Number_EPSILON) * 100)%float)));
    [|f_equal; exact Zr].
  assert (H0 : Rabs 0 <= / 2) by (rewrite Rabs_R0; lra).
  assert (He : Rabs (0 + eps) <= / 1000000000000000) by (apply Rabs_le; lra).
  pose proof (approx_add _ _ _ _ _ _ _ A approx_EPSILON He ltac:(lra)) as A1.
  pose proof (approx_mul _ _ _ _ _ _ _ 100 A1 approx_100 He
                ltac:(rewrite Rabs_pos_eq; lra) ltac:(lra)) as A2.
  destruct A2 as [F2 E2]. apply Rabs_le_inv in E2. pose proof p2_52_big.
  apply Math_round_Z2F; auto.
  - apply Rabs_def1; lra.
  - left. lra.
Qed.

Lemma cents_of_hundredths (k : Z) : (Z.abs k <= 1000000)%Z ->
  F2Z (Math_round (hundredths k * 100)%float) = k.
Proof.
  intros Hk. pose proof (approx_hundredths_wide k Hk) as A.
  assert (Hk' : Rabs (IZR k) <= 1000000) by (rewrite <- abs_IZR; apply IZR_le; exact Hk).
  assert (Hv : Rabs (IZR k / 100) <= 10000).
  { apply Rabs_le_inv in Hk'. apply Rabs_le. lra. }
  pose proof (approx_mul _ _ _ _ _ _ 10000 100 A approx_100 Hv
                ltac:(rewrite Rabs_pos_eq; lra) ltac:(lra)) as A2.
  destruct (approx_round _ _ _ k 0 A2) as (_ & _ & Z).
  - replace (IZR k / 100 * 100 - IZR k) with 0 by field. rewrite Rabs_R0. lra.
  - lra.
  - exact Z.
Qed.

End Round2.

Section DivOpp.

Lemma round_aux_opp s m e l :
  binary_round_aux prec emax (negb s) m e l = SFopp (binary_round_aux prec emax s m e l).
Proof.
  unfold binary_round_aux.
  destruct (shr_fexp prec emax m e l) as [mrs' e'].
  destruct (shr_fexp prec emax _ e' loc_Exact) as [mrs'' e''].
  destruct (shr_m mrs''); try reflexivity.
  destruct (e'' <=? emax - prec)%Z; reflexivity.
Qed.

Lemma SFdiv_opp_l X Y : SF64div (SFopp X) Y = SFopp (SF64div X Y).
Proof.
  unfold SF64div, SFdiv.
  destruct X as [sx|sx| |sx mx ex], Y as [sy|sy| |sy my ey]; cbn [SFopp]; try reflexivity;
    try (destruct sx, sy; reflexivity).
  destruct (SFdiv_core_binary prec emax (Zpos mx) ex (Zpos my) ey) as [[mz ez] lz].
  replace (xorb (negb sx) sy) with (negb (xorb sx sy)) by (destruct sx, sy; reflexivity).
  apply round_aux_opp.
Qed.

Lemma div_opp_l x y : ((- x) / y)%float = (- (x / y))%float.
Proof.
  apply Prim2SF_inj.
  rewrite FloatAxioms.div_spec, !FloatAxioms.opp_spec, FloatAxioms.div_spec.
  apply SFdiv_opp_l.
Qed.

Lemma hundredths_opp (n : Z) : (0 < n)%Z -> hundredths (- n) = (- hundredths n)%float.
Proof.
  intros Hn. unfold hundredths, Z2F.
  destruct (Z.ltb_spec (- n) 0); [|lia]. destruct (Z.ltb_spec n 0); [lia|].
  rewrite Z.opp_involutive. apply div_opp_l.
Qed.

End DivOpp.

Section EqualSplit.
#[local] Open Scope R_scope.

#[local] Abbreviation eps := (/ 4503599627370496) (only parsing).

(** The base share [round2 (100 / count)]. *)
Lemma base_share (c : Z) : (1 <= c < 2 ^ 32)%Z ->
  exists Nb : Z, (0 <= Nb <= 10000)%Z /\
    Page.round2 (100 / Z2F c)%float = hundredths Nb /\
    Rabs (IZR Nb - 10000 / IZR c) <= / 2 + / 1000000.
Proof.
  intros Hc.
  assert (Hc1 : 1 <= IZR c) by (apply IZR_le; lia).
  assert (Hc2 : IZR c <= 4294967296) by (apply IZR_le; simpl in Hc; lia).
  assert (Hu : 0 < / IZR c <= 1).
  { split; [apply Rinv_0_lt_compat; lra|].
    rewrite <- Rinv_1. apply Rinv_le_contravar; lra. }
  assert (Hu2 : / 4294967296 <= / IZR c) by (apply Rinv_le_contravar; lra).
  pose proof (approx_div _ _ _ _ _ _ 100 1 approx_100 (approx_Z2F c ltac:(simpl in Hc; lia))
                ltac:(rewrite Rabs_pos_eq; lra) ltac:(rewrite Rabs_pos_eq; lra)
                ltac:(lra) ltac:(lra) ltac:(lra) ltac:(lra)) as Aq.
  apply approx_weaken with (e' := / 10000000000000) in Aq; [|lra].
  assert (Hv : Rabs (100 / IZR c) <= 20000).
  { unfold Rdiv. apply Rabs_le. nra. }
  pose proof (round2_arg _ _ _ Aq Hv ltac:(lra)) as At.
  destruct At as [Ft Et]. apply Rabs_le_inv in Et.
  destruct (Math_round_R _ Ft) as (N & FN & RN & ZN & Hlo & Hhi).
  unfold Rdiv in *.
  assert (Hpos : 0 < FR ((100 / Z2F c + Number_EPSILON) * 100)%float) by nra.
  assert (HN0 : (0 <= N)%Z).
  { assert (-1 < IZR N) by lra. apply lt_IZR in H. lia. }
  assert (HN1 : (N <= 10000)%Z).
  { assert (IZR N < 10001) by nra. apply lt_IZR in H. lia. }
  exists N. split; [lia|]. split.
  - unfold Page.round2, hundredths. f_equal.
    transitivity (Z2F (F2Z (Math_round ((100 / Z2F c + Number_EPSILON) * 100)%float)));
      [|f_equal; exact ZN].
    apply Math_round_Z2F; auto.
    pose proof p2_52_big. apply Rabs_def1; nra.
  - apply Rabs_le. replace (10000 * / IZR c) with (100 * / IZR c * 100) by ring. lra.
Qed.

Lemma foldl_replicate_S (b a : float) n :
  foldl PrimFloat.add a (replicate (S n) b) = (foldl PrimFloat.add a (replicate n b) + b)%float.
Proof.
  rewrite replicate_S_end, foldl_app. reflexivity.
Qed.

(** Adding the same two-decimal share [j] times. *)
Lemma sum_shares (Nb : Z) (j : nat) : (0 <= Nb <= 10000)%Z ->
  (Z.of_nat j <= 20100)%Z -> (Z.of_nat j * Nb <= 40000)%Z ->
  approx (foldl PrimFloat.add 0%float (replicate j (hundredths Nb)))
         (IZR (Z.of_nat j * Nb) / 100) (IZR (Z.of_nat j) * / 5000000000000).
Proof.
  intros HNb.
  induction j as [|j IH]; intros Hj0 Hj.
  - cbn [replicate foldl Z.of_nat]. change 0%float with (Z2F 0).
    rewrite Z.mul_0_l, Rmult_0_l.
    replace (IZR 0 / 100) with (IZR 0) by (simpl; lra). apply approx_Z2F. simpl. lia.
  - rewrite foldl_replicate_S.
    assert (Hj' : (Z.of_nat j * Nb <= 40000)%Z) by nia.
    specialize (IH ltac:(lia) Hj').
    assert (Hjn : (0 <= Z.of_nat j * Nb)%Z) by nia.
    assert (HjR : 0 <= IZR (Z.of_nat j) <= 20100) by (split; apply IZR_le; lia).
    pose proof (approx_hundredths Nb ltac:(lia)) as Ab.
    assert (HB : Rabs (IZR (Z.of_nat j * Nb) / 100 + IZR Nb / 100) <= 401).
    { rewrite <- Rdiv_plus_distr, <- plus_IZR. apply Rabs_le.
      assert (0 <= IZR (Z.of_nat j * Nb + Nb) <= 40000) by (split; apply IZR_le; nia). lra. }
    pose proof (approx_add _ _ _ _ _ _ 401 IH Ab HB ltac:(lra)) as A.
    replace (IZR (Z.of_nat (S j) * Nb) / 100)
      with (IZR (Z.of_nat j * Nb) / 100 + IZR Nb / 100).
    + eapply approx_weaken; [exact A|].
      rewrite Nat2Z.inj_succ, succ_IZR. lra.
    + rewrite <- Rdiv_plus_distr, <- plus_IZR. do 2 f_equal. lia.
Qed.

End EqualSplit.

Section EqualSplitShape.

Lemma nth_replicate_last (b d : float) n : nth n (replicate (S n) b) d = b.
Proof. induction n as [|n IH]; [reflexivity|exact IH]. Qed.

Lemma insert_replicate_last (b y : float) n :
  <[n := y]> (replicate (S n) b) = replicate n b ++ [y].
Proof. induction n as [|n IH]; [reflexivity|]. cbn. f_equal. exact IH. Qed.

Lemma makeEqualSplits_unfold (c : Z) : (1 <= c)%Z ->
  Page.makeEqualSplits c =
    replicate (Z.to_nat c - 1) (Page.round2 (100 / Z2F c)%float) ++
    [Page.round2 (Page.round2 (100 / Z2F c)
                  + Page.round2 (100 - foldl PrimFloat.add 0%float
                                         (replicate (Z.to_nat c) (Page.round2 (100 / Z2F c)))))%float].
Proof.
  intros Hc. unfold Page.makeEqualSplits.
  destruct (Z.leb_spec c 0) as [|_]; [lia|].
  replace (Z.to_nat (c - 1)) with (Z.to_nat c - 1)%nat by lia.
  destruct (Z.to_nat c) as [|n] eqn:E; [lia|].
  replace (S n - 1)%nat with n by lia.
  rewrite nth_replicate_last. apply insert_replicate_last.
Qed.

#[local] Open Scope R_scope.

Lemma foldl_zeros n : foldl PrimFloat.add 0%float (replicate n 0%float) = 0%float.
Proof.
  induction n as [|n IH]; [reflexivity|].
  rewrite foldl_replicate_S, IH. reflexivity.
Qed.

Lemma equal_split_shape (c : Z) : (1 <= c < 2 ^ 32)%Z ->
  exists Nb Nl : Z,
    Page.makeEqualSplits c = replicate (Z.to_nat c - 1) (hundredths Nb) ++ [hundredths Nl] /\
    (0 <= Nb <= 10000)%Z /\ (Z.abs Nl <= 20000)%Z /\ ((c - 1) * Nb + Nl = 10000)%Z /\
    (Nb = 0%Z \/ c <= 20000)%Z /\ (c * Nb <= 20001)%Z /\
    Rabs (IZR Nb - 10000 / IZR c) <= / 2 + / 1000000.
Proof.
  intros Hc. rewrite makeEqualSplits_unfold by lia.
  destruct (base_share c Hc) as (Nb & HNb & Hbase & Hnear). rewrite Hbase.
  destruct (Z.eq_dec Nb 0%Z) as [->|Hnz].
  { exists 0%Z, 10000%Z. change (hundredths 0) with 0%float.
    rewrite foldl_zeros. split; [reflexivity|]. repeat split; try lia; exact Hnear. }
  assert (Hc1 : 1 <= IZR c) by (apply IZR_le; lia).
  assert (HNbR : 1 <= IZR Nb <= 10000) by (split; apply IZR_le; lia).
  pose proof Hnear as Hnear0.
  apply Rabs_le_inv in Hnear.
  assert (Hprod : 10000 / IZR c * IZR c = 10000) by (field; lra).
  assert (Hcle : (c <= 20000)%Z).
  { assert (IZR c < 20001) by nra. apply lt_IZR in H. lia. }
  assert (HcR : IZR c <= 20000) by (apply IZR_le; lia).
  assert (HcNb : (0 <= c * Nb <= 20001)%Z).
  { destruct Hnear as [Hn1 Hn2].
    apply (Rmult_le_compat_l (IZR c)) in Hn2; [|lra].
    assert (H2 : IZR (c * Nb) < 20002) by (rewrite mult_IZR; nra).
    apply lt_IZR in H2. nia. }
  set (Nd := (10000 - c * Nb)%Z). set (Nl := (Nb + Nd)%Z).
  exists Nb, Nl. split; [|repeat split; unfold Nl, Nd; try lia; try nia; exact Hnear0].
  do 2 f_equal.
  (* the sum of the [c] base shares *)
  pose proof (sum_shares Nb (Z.to_nat c) HNb ltac:(lia) ltac:(rewrite Z2Nat.id by lia; lia)) as AS.
  rewrite Z2Nat.id in AS by lia.
  apply approx_weaken with (e' := / 100000000) in AS; [|lra].
  (* the remainder *)
  assert (HBd : Rabs (100 - IZR (c * Nb) / 100) <= 101).
  { apply Rabs_le. assert (-10001 <= IZR (10000 - c * Nb) <= 10000) by (split; apply IZR_le; lia).
    rewrite minus_IZR in H. lra. }
  pose proof (approx_sub _ _ _ _ _ _ 101 approx_100 AS HBd ltac:(lra)) as AD.
  replace (100 - IZR (c * Nb) / 100) with (IZR Nd / 100) in AD
    by (unfold Nd; rewrite minus_IZR; field).
  apply approx_weaken with (e' := / 10000000) in AD; [|lra].
  destruct (round2_value _ Nd _ AD ltac:(unfold Nd; lia) ltac:(lra)) as (_ & _ & _ & Adiff).
  (* the last share *)
  pose proof (approx_hundredths_wide Nb ltac:(lia)) as Ab.
  assert (HBl : Rabs (IZR Nb / 100 + IZR Nd / 100) <= 201).
  { rewrite <- Rdiv_plus_distr, <- plus_IZR. apply Rabs_le.
    assert (-20000 <= IZR (Nb + Nd) <= 20000) by (split; apply IZR_le; unfold Nd; lia). lra. }
  destruct (Z.eq_dec Nl 0%Z) as [Hl0|Hl0].
  - (* the base share and the remainder cancel *)
    assert (HNd : Nd = (- Nb)%Z) by (unfold Nl in Hl0; lia).
    rewrite (round2_near _ Nd _ AD ltac:(unfold Nd; lia) ltac:(lra) ltac:(lia)).
    rewrite HNd, hundredths_opp by lia. rewrite Hl0.
    destruct Ab as [Fb _]. destruct (opp_R _ Fb) as [Fo Ro].
    assert (Ao : approx (- hundredths Nb)%float (- FR (hundredths Nb)) 0).
    { split; auto. rewrite Ro, Rminus_diag, Rabs_R0. lra. }
    assert (H0 : Rabs (FR (hundredths Nb) + - FR (hundredths Nb)) <= 0).
    { rewrite Rplus_opp_r, Rabs_R0. lra. }
    pose proof (approx_add _ _ _ _ _ _ 0 (approx_self _ Fb) Ao H0 ltac:(lra)) as Az.
    rewrite Rplus_opp_r in Az.
    apply round2_zero. eapply approx_weaken; [exact Az|]. lra.
  - pose proof (approx_add _ _ _ _ _ _ 201 Ab Adiff HBl ltac:(lra)) as Az.
    replace (IZR Nb / 100 + IZR Nd / 100) with (IZR Nl / 100) in Az
      by (unfold Nl; rewrite plus_IZR; field).
    apply approx_weaken with (e' := / 1000000) in Az; [|lra].
    apply (round2_near _ Nl _ Az); [unfold Nl, Nd; lia | lra | exact Hl0].
Qed.

End EqualSplitShape.

Section Claims.

Lemma sumZ_app l k : sumZ (l ++ k) = (sumZ l + sumZ k)%Z.
Proof. unfold sumZ. induction l as [|a l IH]; simpl; [reflexivity|]. rewrite IH. lia. Qed.

Lemma sumZ_replicate n k : sumZ (replicate n k) = (Z.of_nat n * k)%Z.
Proof. unfold sumZ. induction n as [|n IH]; [reflexivity|]. cbn [replicate foldr]. rewrite IH. lia. Qed.

(** C2: for every member count (an array length, so below [2^32]) the shares
    of [makeEqualSplits] are two-decimal percentages, that is doubles of the
    form [k/100], and their hundredths add up to exactly 10000, i.e. the
    percentages sum to exactly 100.00; the export's copy of the function
    returns the same list. *)
Theorem equal_split_sums_to_100 (count : Z) : (1 <= count < 2 ^ 32)%Z ->
  Forall (fun p => p = hundredths (to_hundredths p)) (Page.makeEqualSplits count) /\
  sumZ (to_hundredths <$> Page.makeEqualSplits count) = 10000%Z /\
  FinanceExport.makeEqualSplits count = Page.makeEqualSplits count.
Proof.
  intros Hc.
  assert (Hsame : FinanceExport.makeEqualSplits count = Page.makeEqualSplits count) by reflexivity.
  revert Hsame. generalize (FinanceExport.makeEqualSplits count). intros l' Hsame.
  destruct (equal_split_shape count Hc) as (Nb & Nl & Hshape & HNb & HNl & Hsum & _).
  rewrite Hshape in *.
  assert (Eb : to_hundredths (hundredths Nb) = Nb) by (apply cents_of_hundredths; lia).
  assert (El : to_hundredths (hundredths Nl) = Nl) by (apply cents_of_hundredths; lia).
  split; [|split; [|exact Hsame]].
  - apply Forall_app. split.
    + apply Forall_replicate. now rewrite Eb.
    + constructor; [now rewrite El|constructor].
  - rewrite fmap_app, fmap_replicate, sumZ_app, sumZ_replicate. cbn [fmap list_fmap sumZ foldr].
    rewrite Eb, El. replace (Z.of_nat (Z.to_nat count - 1)) with (count - 1)%Z by lia. lia.
Qed.

Lemma equal_split_sums_to_100_witness :
  (1 <= 3 < 2 ^ 32)%Z /\
  (Forall (fun p => p = hundredths (to_hundredths p)) (Page.makeEqualSplits 3) /\
   sumZ (to_hundredths <$> Page.makeEqualSplits 3) = 10000%Z /\
   FinanceExport.makeEqualSplits 3 = Page.makeEqualSplits 3).
Proof. split; [simpl; lia | apply (equal_split_sums_to_100 3); simpl; lia]. Defined.

End Claims.

Section Claims2.

Lemma sumZ_payout_bound (D : Z) rows ks :
  (Z.abs D <= 10 ^ 14)%Z ->
  Forall2 (fun r k => Page.cutPercent r = hundredths k /\ (0 <= k <= 10000)%Z) rows ks ->
  (Rabs (IZR (sumZ ((fun r => F2Z (Page.payoutCents (Z2F D) r)) <$> rows))
         - IZR D * IZR (sumZ ks) / 10000)
   <= 3 / 4 * INR (length rows))%R.
Proof.
  intros HD H. induction H as [|r k rows ks [Hr Hk] _ IH].
  - cbn. rewrite Rmult_0_r. unfold Rdiv. rewrite Rmult_0_r, Rmult_0_l, Rminus_diag, Rabs_R0. lra.
  - cbn [fmap list_fmap length sumZ foldr]. fold (sumZ ks).
    fold (sumZ ((fun r => F2Z (Page.payoutCents (Z2F D) r)) <$> rows)).
    rewrite S_INR, !plus_IZR.
    pose proof (payout_term D k HD Hk) as Ht.
    unfold Page.payoutCents at 1. rewrite Hr.
    match goal with |- (Rabs ?e <= _)%R =>
      replace e with
        ((IZR (F2Z (Math_round (Z2F D * (hundredths k / 100))%float)) - IZR D * IZR k / 10000)
         + (IZR (sumZ ((fun r => F2Z (Page.payoutCents (Z2F D) r)) <$> rows))
            - IZR D * IZR (sumZ ks) / 10000))%R by (unfold list_fmap; field)
    end.
    eapply Rle_trans; [apply Rabs_triang|]. lra.
Qed.

(** C3 (amended): for a distributable net of at most [10^14] minor units in
    absolute value and two-decimal percentages between 0 and 100 whose
    hundredths sum to exactly 10000, the payouts [Math.round(net * (percent /
    100))] add up to the net within [count - 1] minor units. *)
Theorem payout_sum_within_slack (D : Z) rows ks :
  (Z.abs D <= 10 ^ 14)%Z ->
  Forall2 (fun r k => Page.cutPercent r = hundredths k /\ (0 <= k <= 10000)%Z) rows ks ->
  sumZ ks = 10000%Z ->
  (Z.abs (sumZ ((fun r => F2Z (Page.payoutCents (Z2F D) r)) <$> rows) - D)
   <= Z.of_nat (length rows) - 1)%Z.
Proof.
  intros HD H Hs.
  pose proof (sumZ_payout_bound D rows ks HD H) as Hb.
  rewrite Hs in Hb.
  replace (IZR D * 10000 / 10000)%R with (IZR D) in Hb by field.
  rewrite <- minus_IZR in Hb.
  assert (Hn : (0 < length rows)%nat).
  { destruct H; [cbn in Hs; lia | cbn; lia]. }
  set (S := (sumZ ((fun r => F2Z (Page.payoutCents (Z2F D) r)) <$> rows) - D)%Z) in *.
  assert (HnR : (1 <= INR (length rows))%R).
  { change 1%R with (INR 1). apply le_INR. lia. }
  rewrite INR_IZR_INZ in *.
  rewrite <- abs_IZR in Hb.
  assert (Hlt : (IZR (Z.abs S) < IZR (Z.of_nat (length rows)))%R) by lra.
  apply lt_IZR in Hlt. lia.
Qed.

Lemma payout_sum_within_slack_witness :
  (Z.abs 58500 <= 10 ^ 14)%Z /\
  Forall2 (fun r k => Page.cutPercent r = hundredths k /\ (0 <= k <= 10000)%Z)
    [rowOf "a" (hundredths 3333); rowOf "b" (hundredths 3333); rowOf "c" (hundredths 3334)]
    [3333; 3333; 3334]%Z /\
  sumZ [3333; 3333; 3334]%Z = 10000%Z /\
  (Z.abs (sumZ ((fun r => F2Z (Page.payoutCents (Z2F 58500) r)) <$>
            [rowOf "a" (hundredths 3333); rowOf "b" (hundredths 3333);
             rowOf "c" (hundredths 3334)]) - 58500)
   <= Z.of_nat 3 - 1)%Z.
Proof.
  assert (H1 : (Z.abs 58500 <= 10 ^ 14)%Z) by (simpl; lia).
  assert (H2 : Forall2 (fun r k => Page.cutPercent r = hundredths k /\ (0 <= k <= 10000)%Z)
    [rowOf "a" (hundredths 3333); rowOf "b" (hundredths 3333); rowOf "c" (hundredths 3334)]
    [3333; 3333; 3334]%Z).
  { repeat constructor; simpl; lia. }
  assert (H3 : sumZ [3333; 3333; 3334]%Z = 10000%Z) by reflexivity.
  split; [exact H1|]. split; [exact H2|]. split; [exact H3|].
  exact (payout_sum_within_slack 58500 _ _ H1 H2 H3).
Defined.

(** C3, as stated, fails for a large net: with a distributable net of [2^60]
    minor units and the percentages 30.00 and 70.00 the two payouts add up to
    64 minor units less than the net, although the slack allowed for two
    members is 1. *)
Lemma payout_sum_slack_counterexample :
  let D := (2 ^ 60)%Z in
  let rows := [rowOf "a" (hundredths 3000); rowOf "b" (hundredths 7000)] in
  sumZ [3000; 7000]%Z = 10000%Z /\
  (sumZ ((fun r => F2Z (Page.payoutCents (Z2F D) r)) <$> rows) - D = -64)%Z /\
  ~ (Z.abs (sumZ ((fun r => F2Z (Page.payoutCents (Z2F D) r)) <$> rows) - D)
     <= Z.of_nat (length rows) - 1)%Z.
Proof.
  cbv zeta.
  assert (E : (sumZ ((fun r => F2Z (Page.payoutCents (Z2F (2 ^ 60)) r)) <$>
                 [rowOf "a" (hundredths 3000); rowOf "b" (hundredths 7000)]) - 2 ^ 60 = -64)%Z)
    by (vm_compute; reflexivity).
  split; [reflexivity|]. split; [exact E|]. rewrite E. cbn. lia.
Qed.

End Claims2.

Section Claims3.

(** The example of the specification: income 100000, manager 10 %, agent 5 %,
    expenses 20000, savings 10 %. *)
Lemma settlement_example :
  Page.settlement 100000 20000 10 10 5 =
    {| managerFeeCents := 10000; agentFeeCents := 5000; grossFeesCents := 15000;
       netAfterFeesAndExpensesCents := 65000; savingsAmountCents := 6500;
       distributableNetCents := 58500 |}.
Proof. vm_compute. reflexivity. Qed.

(** C1 (code bug): the fee is [Math.round] of the double product
    [income * (percent / 100)], and [35 / 100] is not a double.  For an income
    of 1290 minor units and a manager percentage of 35 the exact fee is
    451.5, which rounds half-up to 452, but the code yields 451.  The worked
    example of the specification is computed as stated. *)
Theorem manager_fee_tie_rounds_down :
  managerFeeCents (Page.settlement 1290 0 0 35 0) = 451%float /\
  exact_round_percent 1290 35 = 452%Z /\
  F2Z (managerFeeCents (Page.settlement 1290 0 0 35 0)) <> exact_round_percent 1290 35 /\
  managerFeeCents (FinanceExport.settlement 1290 0
      (Some {| savings_percent := Some 0%float; manager_percent := Some 35%float;
               agent_percent := Some 0%float |})) = 451%float /\
  Page.settlement 100000 20000 10 10 5 =
    {| managerFeeCents := 10000; agentFeeCents := 5000; grossFeesCents := 15000;
       netAfterFeesAndExpensesCents := 65000; savingsAmountCents := 6500;
       distributableNetCents := 58500 |}.
Proof.
  split; [vm_compute; reflexivity|]. split; [reflexivity|].
  split; [vm_compute; discriminate|]. split; [vm_compute; reflexivity|].
  exact settlement_example.
Qed.

(** C4 (code bug): two roundings are not round-half-up of the decimal
    amount.  The payout of a member with 35.00 % of a distributable net of
    1290 is 451, not 452 (the tie 451.5 is reached from below in binary), and
    [round2 10.075] is 10.07, not 10.08.  Ties that are doubles are rounded
    up, also for negative arguments, and the rounded amounts are integers. *)
Theorem rounding_is_not_always_half_up :
  Page.payoutCents 1290 (rowOf "a" (hundredths 3500)) = 451%float /\
  exact_round_percent 1290 35 = 452%Z /\
  Page.round2 10.075 = 10.07%float /\
  hundredths (exact_round2_thousandths 10075) = 10.08%float /\
  Page.round2 10.075 <> hundredths (exact_round2_thousandths 10075) /\
  Page.round2 0.125 = 0.13%float /\
  Page.round2 (-0.125) = (-0.12)%float /\
  Math_round 2.5 = 3%float /\ Math_round (-2.5) = (-2)%float.
Proof.
  repeat split; try (vm_compute; reflexivity).
  vm_compute. intros H. discriminate H.
Qed.

End Claims3.

Section Claims4.

Lemma Prim2SF_zero : Prim2SF 0%float = S754_zero false.
Proof. reflexivity. Qed.

Lemma leb_zero_not_pos x : (x <=? 0)%float = true -> (0 <? x)%float = false.
Proof.
  rewrite FloatAxioms.leb_spec, FloatAxioms.ltb_spec, Prim2SF_zero.
  destruct (Prim2SF x) as [s|s| |s m e]; try destruct s; cbn; congruence.
Qed.

Lemma sub_zero_r x : (x <=? 0)%float = true -> (x - 0)%float = x.
Proof.
  intros H. apply Prim2SF_inj. rewrite FloatAxioms.sub_spec, Prim2SF_zero.
  rewrite FloatAxioms.leb_spec, Prim2SF_zero in H.
  destruct (Prim2SF x) as [s|s| |s m e]; try destruct s; cbn in *; congruence.
Qed.

(** C5: whenever the net after fees and expenses is not positive, whatever
    the savings percentage, no savings are withheld and the distributable net
    is the net itself. *)
Theorem no_savings_on_nonpositive_net
    (totalIncomeCents totalExpenseCents savingsPercent managerPercent agentPercent : float) :
  let s := Page.settlement totalIncomeCents totalExpenseCents
             savingsPercent managerPercent agentPercent in
  (netAfterFeesAndExpensesCents s <=? 0)%float = true ->
  savingsAmountCents s = 0%float /\
  distributableNetCents s = netAfterFeesAndExpensesCents s.
Proof.
  intros s H. unfold s in *. unfold Page.settlement in *. cbn [netAfterFeesAndExpensesCents
    savingsAmountCents distributableNetCents] in *.
  rewrite (leb_zero_not_pos _ H). split; [reflexivity|]. apply sub_zero_r. exact H.
Qed.

Lemma no_savings_on_nonpositive_net_witness :
  (netAfterFeesAndExpensesCents (Page.settlement 10000 20000 10 10 5) <=? 0)%float = true /\
  savingsAmountCents (Page.settlement 10000 20000 10 10 5) = 0%float /\
  distributableNetCents (Page.settlement 10000 20000 10 10 5)
    = netAfterFeesAndExpensesCents (Page.settlement 10000 20000 10 10 5).
Proof.
  split; [vm_compute; reflexivity|].
  apply (no_savings_on_nonpositive_net 10000 20000 10 10 5). vm_compute. reflexivity.
Defined.

(** C6: for every count of at least one (and below [2^32], the largest
    length of an array), every member gets the base share
    [round2 (100 / count)] and the last one gets in addition the remainder
    [round2 (100 - sum of the bases)], where the sum is the running sum of
    the bases as the code adds them; three members get 33.33, 33.33 and
    33.34, in member order. *)
Theorem equal_split_last_member_absorbs_remainder (count : Z) : (1 <= count < 2 ^ 32)%Z ->
  let base := Page.round2 (100 / Z2F count)%float in
  let remainder :=
    Page.round2 (100 - foldl PrimFloat.add 0%float (replicate (Z.to_nat count) base))%float in
  Page.makeEqualSplits count
    = replicate (Z.to_nat count - 1) base ++ [Page.round2 (base + remainder)%float] /\
  Page.makeEqualSplits 3 = [33.33; 33.33; 33.34]%float.
Proof.
  intros Hc base remainder. split; [apply makeEqualSplits_unfold; lia|].
  vm_compute. reflexivity.
Qed.

Lemma equal_split_last_member_absorbs_remainder_witness :
  (1 <= 3 < 2 ^ 32)%Z /\
  Page.makeEqualSplits 3
    = replicate (Z.to_nat 3 - 1) (Page.round2 (100 / Z2F 3)%float) ++
      [Page.round2 (Page.round2 (100 / Z2F 3)
         + Page.round2 (100 - foldl PrimFloat.add 0%float
              (replicate (Z.to_nat 3) (Page.round2 (100 / Z2F 3)))))%float].
Proof.
  split; [lia|]. apply (equal_split_last_member_absorbs_remainder 3). lia.
Defined.

End Claims4.

Section Claims5.

Lemma truthy_string_Some s id : truthy_string s = Some id <-> s = Some id /\ id <> ""%string.
Proof.
  destruct s as [[|a s]|]; cbn; split; try (intros [H1 H2]); try intros H; try congruence.
  - inversion H; subst. split; [reflexivity|discriminate].
Qed.

Lemma cutByMemberId_snoc cuts c :
  Page.cutByMemberId (cuts ++ [c]) =
    match truthy_string (band_member_id c) with
    | Some id => Page.setCut id c (Page.cutByMemberId cuts)
    | None => Page.cutByMemberId cuts
    end.
Proof. unfold Page.cutByMemberId. rewrite foldl_app. reflexivity. Qed.

Lemma inheritedKey_proto id : inheritedKey id = false -> String.eqb id "__proto__" = false.
Proof.
  intros H. destruct (String.eqb id "__proto__") eqn:E; [|reflexivity].
  apply String.eqb_eq in E. subst id. vm_compute in H. discriminate H.
Qed.

(** Where the entries and the prototype of the page's dictionary come from. *)
Lemma entries_elem cuts id c :
  Page.entries (Page.cutByMemberId cuts) !! id = Some c ->
  c ∈ cuts /\ band_member_id c = Some id /\ id <> ""%string /\ id <> "__proto__"%string.
Proof.
  induction cuts as [|x cuts IH] using rev_ind.
  - unfold Page.cutByMemberId. cbn. rewrite lookup_empty. discriminate.
  - rewrite cutByMemberId_snoc. intros H.
    assert (Hold : Page.entries (Page.cutByMemberId cuts) !! id = Some c ->
                   c ∈ cuts ++ [x] /\ band_member_id c = Some id /\ id <> ""%string /\
                   id <> "__proto__"%string).
    { intros H'. destruct (IH H') as (? & ?). split; [apply elem_of_app; left; assumption|auto]. }
    destruct (truthy_string (band_member_id x)) as [j|] eqn:Hx; [|exact (Hold H)].
    unfold Page.setCut in H.
    destruct (String.eqb j "__proto__") eqn:E; cbn [Page.entries] in H; [exact (Hold H)|].
    destruct (decide (j = id)) as [->|Hne].
    + rewrite lookup_insert_eq in H. inversion H; subst.
      apply truthy_string_Some in Hx. destruct Hx as [Hx Hne].
      apply String.eqb_neq in E.
      split; [apply elem_of_app; right; apply list_elem_of_singleton; reflexivity|auto].
    + rewrite lookup_insert_ne in H by exact Hne. exact (Hold H).
Qed.

Lemma prototype_elem cuts c :
  Page.prototype (Page.cutByMemberId cuts) = Some c ->
  c ∈ cuts /\ band_member_id c = Some "__proto__"%string.
Proof.
  induction cuts as [|x cuts IH] using rev_ind.
  - unfold Page.cutByMemberId. cbn. discriminate.
  - rewrite cutByMemberId_snoc. intros H.
    assert (Hold : Page.prototype (Page.cutByMemberId cuts) = Some c ->
                   c ∈ cuts ++ [x] /\ band_member_id c = Some "__proto__"%string).
    { intros H'. destruct (IH H') as (? & ?). split; [apply elem_of_app; left; assumption|auto]. }
    destruct (truthy_string (band_member_id x)) as [j|] eqn:Hx; [|exact (Hold H)].
    unfold Page.setCut in H.
    destruct (String.eqb j "__proto__") eqn:E; cbn [Page.prototype] in H; [|exact (Hold H)].
    inversion H; subst. apply String.eqb_eq in E. subst j.
    apply truthy_string_Some in Hx. destruct Hx as [Hx _].
    split; [apply elem_of_app; right; apply list_elem_of_singleton; reflexivity|exact Hx].
Qed.

Lemma entries_is_Some cuts id c :
  c ∈ cuts -> band_member_id c = Some id -> id <> ""%string -> id <> "__proto__"%string ->
  is_Some (Page.entries (Page.cutByMemberId cuts) !! id).
Proof.
  induction cuts as [|x cuts IH] using rev_ind; intros Hin Hid Hne Hnp.
  - apply elem_of_nil in Hin. contradiction.
  - rewrite cutByMemberId_snoc.
    assert (Ht : truthy_string (band_member_id c) = Some id) by (apply truthy_string_Some; auto).
    assert (Hold : truthy_string (band_member_id x) <> Some id ->
                   is_Some (Page.entries (Page.cutByMemberId cuts) !! id)).
    { intros Hx. apply IH; auto.
      apply elem_of_app in Hin. destruct Hin as [|Hin]; [assumption|].
      apply list_elem_of_singleton in Hin. subst x. contradiction. }
    destruct (truthy_string (band_member_id x)) as [j|] eqn:Hx; [|apply Hold; discriminate].
    unfold Page.setCut.
    destruct (String.eqb j "__proto__") eqn:E; cbn [Page.entries].
    + apply Hold. apply String.eqb_eq in E. congruence.
    + destruct (decide (j = id)) as [->|Hd].
      * rewrite lookup_insert_eq. eauto.
      * rewrite lookup_insert_ne by exact Hd. apply Hold. congruence.
Qed.

Lemma prototype_is_Some cuts c :
  c ∈ cuts -> band_member_id c = Some "__proto__"%string ->
  is_Some (Page.prototype (Page.cutByMemberId cuts)).
Proof.
  induction cuts as [|x cuts IH] using rev_ind; intros Hin Hid.
  - apply elem_of_nil in Hin. contradiction.
  - rewrite cutByMemberId_snoc.
    assert (Ht : truthy_string (band_member_id c) = Some "__proto__"%string).
    { apply truthy_string_Some. split; [exact Hid|discriminate]. }
    assert (Hold : truthy_string (band_member_id x) <> Some "__proto__"%string ->
                   is_Some (Page.prototype (Page.cutByMemberId cuts))).
    { intros Hx. apply IH; auto.
      apply elem_of_app in Hin. destruct Hin as [|Hin]; [assumption|].
      apply list_elem_of_singleton in Hin. subst x. contradiction. }
    destruct (truthy_string (band_member_id x)) as [j|] eqn:Hx; [|apply Hold; discriminate].
    unfold Page.setCut.
    destruct (String.eqb j "__proto__") eqn:E; cbn [Page.prototype]; [eauto|].
    apply Hold. apply String.eqb_neq in E. congruence.
Qed.


(** A lookup that gives a cut row gives a record of that member. *)
Lemma getCut_elem cuts id c :
  Page.getCut (Page.cutByMemberId cuts) id = Page.FoundRow c ->
  c ∈ cuts /\ band_member_id c = Some id /\ id <> ""%string.
Proof.
  unfold Page.getCut. destruct (String.eqb id "__proto__") eqn:E.
  - apply String.eqb_eq in E. subst id.
    destruct (Page.prototype (Page.cutByMemberId cuts)) as [p|] eqn:P; [|discriminate].
    intros H. inversion H; subst. destruct (prototype_elem _ _ P) as [Hin Hid].
    split; [exact Hin|]. split; [exact Hid|discriminate].
  - destruct (Page.entries (Page.cutByMemberId cuts) !! id) as [e|] eqn:He.
    + intros H. inversion H; subst. destruct (entries_elem _ _ _ He) as (? & ? & ? & _). auto.
    + destruct (Page.prototype (Page.cutByMemberId cuts) ≫= _); discriminate.
Qed.

(** A member with a non-empty id and a record gets a cut row. *)
Lemma getCut_is_row cuts id c :
  c ∈ cuts -> band_member_id c = Some id -> id <> ""%string ->
  exists c', Page.getCut (Page.cutByMemberId cuts) id = Page.FoundRow c'.
Proof.
  intros Hin Hid Hne. unfold Page.getCut. destruct (String.eqb id "__proto__") eqn:E.
  - apply String.eqb_eq in E. subst id.
    destruct (prototype_is_Some cuts c Hin Hid) as [p ->]. eauto.
  - apply String.eqb_neq in E.
    destruct (entries_is_Some cuts id c Hin Hid Hne E) as [e ->]. eauto.
Qed.

(** The empty id never has an entry and names no inherited property. *)
Lemma getCut_empty cuts :
  Page.getCut (Page.cutByMemberId cuts) ""%string = Page.FoundOther false.
Proof.
  unfold Page.getCut. cbn [String.eqb].
  destruct (Page.entries (Page.cutByMemberId cuts) !! ""%string) as [e|] eqn:He.
  - destruct (entries_elem _ _ _ He) as (_ & _ & Hne & _). contradiction.
  - destruct (Page.prototype (Page.cutByMemberId cuts)); reflexivity.
Qed.

(** An id that names no property of [Object.prototype], in a dictionary
    whose prototype has not been replaced, is looked up among the entries. *)
Lemma getCut_plain cuts id :
  inheritedKey id = false -> Page.prototype (Page.cutByMemberId cuts) = None ->
  Page.getCut (Page.cutByMemberId cuts) id =
    match Page.entries (Page.cutByMemberId cuts) !! id with
    | Some c => Page.FoundRow c
    | None => Page.FoundOther false
    end.
Proof.
  intros Hk Hp. unfold Page.getCut. rewrite (inheritedKey_proto _ Hk), Hp, Hk.
  destruct (Page.entries (Page.cutByMemberId cuts) !! id); reflexivity.
Qed.

Lemma objectGet_plain {A} (entries : gmap string A) id :
  inheritedKey id = false ->
  objectGet entries id = match entries !! id with Some a => Own a | None => Undefined end.
Proof.
  intros Hk. unfold objectGet. rewrite (inheritedKey_proto _ Hk), Hk. reflexivity.
Qed.

(** The export's dictionary holds the resolved percentage of every entry
    of the page's dictionary. *)
Lemma export_cutByMemberId cuts :
  FinanceExport.cutByMemberId cuts = resolved <$> Page.entries (Page.cutByMemberId cuts).
Proof.
  induction cuts as [|x cuts IH] using rev_ind.
  - unfold FinanceExport.cutByMemberId, Page.cutByMemberId. cbn. now rewrite fmap_empty.
  - rewrite cutByMemberId_snoc. unfold FinanceExport.cutByMemberId in *.
    rewrite foldl_app. cbn [foldl]. rewrite IH.
    destruct (truthy_string (band_member_id x)) as [j|]; [|reflexivity].
    unfold objectSet, Page.setCut.
    destruct (String.eqb j "__proto__"); cbn [Page.entries]; [reflexivity|].
    now rewrite fmap_insert.
Qed.

(** The percentage shown for the member at position [i]. *)
Lemma nextRows_cutPercent emails members cuts i m :
  members !! i = Some m ->
  Page.cutPercent <$> (Page.nextRows emails members cuts !! i) =
    Some (match Page.getCut (Page.cutByMemberId cuts) (bm_id m) with
          | Page.FoundRow c => resolved c
          | Page.FoundOther true => 0%float
          | Page.FoundOther false =>
              (Page.makeEqualSplits (Z.of_nat (length members)) !! i) ?? 0%float
          end).
Proof.
  intros Hm. unfold Page.nextRows. rewrite list_lookup_imap, Hm. reflexivity.
Qed.

Lemma nextRows_cutId emails members cuts i m :
  members !! i = Some m ->
  Page.cutId <$> (Page.nextRows emails members cuts !! i) =
    Some (match Page.getCut (Page.cutByMemberId cuts) (bm_id m) with
          | Page.FoundRow c => Some (cut_id c)
          | Page.FoundOther _ => None
          end).
Proof.
  intros Hm. unfold Page.nextRows. rewrite list_lookup_imap, Hm. reflexivity.
Qed.

(** The percentage the export uses for the member at position [i]. *)
Lemma payoutLines_cutPercent D members cuts i m :
  members !! i = Some m ->
  FinanceExport.l_cutPercent <$> (FinanceExport.payoutLines D members cuts !! i) =
    Some (match objectGet (FinanceExport.cutByMemberId cuts) (bm_id m) with
          | Own p => p
          | Inherited => nan
          | Undefined =>
              (FinanceExport.makeEqualSplits (Z.of_nat (length members)) !! i) ?? 0%float
          end).
Proof.
  intros Hm. unfold FinanceExport.payoutLines. rewrite list_lookup_imap, Hm. reflexivity.
Qed.

(** The payout computed from NaN is NaN, whatever the distributable net. *)
Lemma nan_payout D : Math_round (D * (nan / 100))%float = nan.
Proof.
  assert (Hd : (nan / 100)%float = nan) by reflexivity. rewrite Hd.
  assert (Hm : (D * nan)%float = nan).
  { apply Prim2SF_inj. rewrite FloatAxioms.mul_spec.
    change (Prim2SF nan) with S754_nan.
    destruct (Prim2SF D) as [s|s| |s m e]; reflexivity. }
  rewrite Hm. reflexivity.
Qed.




End Claims5.

Section Claims6.

Lemma nextRows_bandMemberId emails members cuts :
  Page.bandMemberId <$> Page.nextRows emails members cuts = bm_id <$> members.
Proof.
  apply list_eq. intros i. unfold Page.nextRows.
  rewrite !list_lookup_fmap, list_lookup_imap. destruct (members !! i); reflexivity.
Qed.

Lemma overridesOf_elem rows c : c ∈ overridesOf rows ->
  exists j r, rows !! j = Some r /\ band_member_id c = Some (Page.bandMemberId r) /\
              cut_percent c = Some (Page.cutPercent r).
Proof.
  unfold overridesOf. intros H. apply list_elem_of_fmap in H. destruct H as (r & -> & Hr).
  apply list_elem_of_lookup in Hr. destruct Hr as [j Hj]. exists j, r. auto.
Qed.

(** C8: for members with distinct ids, taking the percentages the page has
    resolved as explicit cut records and resolving again gives the same
    percentages, hence the same payout for every member and every
    distributable net. *)
Theorem overrides_round_trip emails members cuts D :
  NoDup (bm_id <$> members) ->
  let rows1 := Page.nextRows emails members cuts in
  let rows2 := Page.nextRows emails members (overridesOf rows1) in
  Page.cutPercent <$> rows2 = Page.cutPercent <$> rows1 /\
  Page.payoutCents D <$> rows2 = Page.payoutCents D <$> rows1.
Proof.
  intros Hnd rows1 rows2.
  assert (Hcut : Page.cutPercent <$> rows2 = Page.cutPercent <$> rows1).
  { apply list_eq. intros i. rewrite !list_lookup_fmap.
    destruct (members !! i) as [m|] eqn:Hm.
    - unfold rows2. rewrite (nextRows_cutPercent _ _ _ _ _ Hm).
      pose proof (nextRows_cutPercent emails members cuts i m Hm) as H1. fold rows1 in H1.
      destruct (rows1 !! i) as [r|] eqn:Hr; [|discriminate H1].
      cbn [fmap option_fmap option_map] in *. f_equal.
      assert (Hid : Page.bandMemberId r = bm_id m).
      { pose proof (nextRows_bandMemberId emails members cuts) as Hb.
        apply (f_equal (fun l => l !! i)) in Hb. rewrite !list_lookup_fmap in Hb.
        fold rows1 in Hb. rewrite Hr, Hm in Hb. cbn in Hb. congruence. }
      destruct (decide (bm_id m = ""%string)) as [He|Hne].
      + (* the empty id has no record before or after: the equal split both times *)
        rewrite He, getCut_empty in *. congruence.
      + (* the record made from the row of this member is found again *)
        assert (Hin : {| cut_id := ""; band_member_id := Some (Page.bandMemberId r);
                         cut_percent := Some (Page.cutPercent r);
                         percent := Some (Page.cutPercent r) |} ∈ overridesOf rows1).
        { unfold overridesOf. apply list_elem_of_fmap. exists r. split; [reflexivity|].
          apply list_elem_of_lookup. eauto. }
        destruct (getCut_is_row _ (bm_id m) _ Hin) as [c' Hc']; cbn; [congruence|exact Hne|].
        rewrite Hc'.
        destruct (getCut_elem _ _ _ Hc') as (Hin' & Hbid & _).
        destruct (overridesOf_elem _ _ Hin') as (j & r' & Hj & Hb' & Hp').
        assert (Hji : j = i).
        { assert (Hmj : (bm_id <$> members) !! j = Some (bm_id m)).
          { rewrite <- nextRows_bandMemberId with (emails := emails) (cuts := cuts).
            fold rows1. rewrite list_lookup_fmap, Hj. cbn. congruence. }
          assert (Hmi : (bm_id <$> members) !! i = Some (bm_id m)).
          { rewrite list_lookup_fmap, Hm. reflexivity. }
          eapply NoDup_lookup; eauto. }
        subst j. rewrite Hr in Hj. inversion Hj; subst r'.
        unfold resolved. rewrite Hp'. reflexivity.
    - assert (H1 : rows1 !! i = None).
      { unfold rows1, Page.nextRows. rewrite list_lookup_imap, Hm. reflexivity. }
      assert (H2 : rows2 !! i = None).
      { unfold rows2, Page.nextRows. rewrite list_lookup_imap, Hm. reflexivity. }
      now rewrite H1, H2. }
  split; [exact Hcut|].
  unfold Page.payoutCents.
  change (fun row => Math_round (D * (Page.cutPercent row / 100))%float)
    with ((fun p => Math_round (D * (p / 100))%float) ∘ Page.cutPercent).
  rewrite !list_fmap_compose, Hcut. reflexivity.
Qed.

Lemma overrides_round_trip_witness :
  NoDup (bm_id <$> [sample_ann; sample_bob]) /\
  (Page.cutPercent <$> Page.nextRows ∅ [sample_ann; sample_bob]
      (overridesOf (Page.nextRows ∅ [sample_ann; sample_bob] [sample_null_cut]))
     = Page.cutPercent <$> Page.nextRows ∅ [sample_ann; sample_bob] [sample_null_cut] /\
   Page.payoutCents 58500 <$> Page.nextRows ∅ [sample_ann; sample_bob]
      (overridesOf (Page.nextRows ∅ [sample_ann; sample_bob] [sample_null_cut]))
     = Page.payoutCents 58500 <$> Page.nextRows ∅ [sample_ann; sample_bob] [sample_null_cut]).
Proof.
  assert (H : NoDup (bm_id <$> [sample_ann; sample_bob])).
  { cbn. apply NoDup_cons. split; [|apply NoDup_singleton].
    intros Hin. apply list_elem_of_singleton in Hin. discriminate Hin. }
  split; [exact H|].
  exact (overrides_round_trip ∅ [sample_ann; sample_bob] [sample_null_cut] 58500 H).
Defined.




End Claims6.

Section ExactIntegers.
#[local] Open Scope Z_scope.

Lemma shr_1_even j : 0 <= j ->
  shr_1 {| shr_m := 2 * j; shr_r := false; shr_s := false |}
    = {| shr_m := j; shr_r := false; shr_s := false |}.
Proof. destruct j as [|q|q]; intros H; try lia; reflexivity. Qed.

Lemma iter_shr_exact p : forall k, 0 <= k ->
  SpecFloat.iter_pos shr_1 p {| shr_m := k * 2 ^ Zpos p; shr_r := false; shr_s := false |}
    = {| shr_m := k; shr_r := false; shr_s := false |}.
Proof.
  induction p as [p IH|p IH|]; intros k Hk; cbn [SpecFloat.iter_pos].
  - replace (k * 2 ^ Zpos p~1) with (2 * (k * 2 ^ Zpos p * 2 ^ Zpos p)).
    + rewrite shr_1_even by (apply Z.mul_nonneg_nonneg; [apply Z.mul_nonneg_nonneg|]; lia).
      rewrite IH by (apply Z.mul_nonneg_nonneg; lia). apply IH. exact Hk.
    + rewrite Pos2Z.inj_xI, Z.pow_add_r, Z.pow_1_r, Z.pow_mul_r, Z.pow_2_r by lia.
      rewrite <- Z.pow_2_r, <- Z.pow_mul_r, Z.mul_comm with (n := 2) (m := Zpos p) by lia.
      rewrite Z.pow_mul_r, Z.pow_2_r by lia. ring.
  - replace (k * 2 ^ Zpos p~0) with (k * 2 ^ Zpos p * 2 ^ Zpos p).
    + rewrite IH by (apply Z.mul_nonneg_nonneg; lia). apply IH. exact Hk.
    + rewrite Pos2Z.inj_xO, <- Z.mul_assoc, <- Z.pow_add_r by lia. do 2 f_equal. lia.
  - rewrite Z.pow_1_r, Z.mul_comm. apply shr_1_even. exact Hk.
Qed.

(** Rounding a mantissa whose dropped bits are all zero is exact. *)
Lemma round_aux_exact s (k : positive) e u :
  Zpos k < 2 ^ 53 -> e <= u <= 971 ->
  u = Z.max e (fexp prec emax (Zdigits2 (Zpos k) + u)) ->
  binary_round_aux prec emax s (Zpos k * 2 ^ (u - e)) e loc_Exact = S754_finite s k u.
Proof.
  intros Hk Heu Hu. unfold binary_round_aux.
  assert (Hdig : Zdigits2 (Zpos k * 2 ^ (u - e)) + e = Zdigits2 (Zpos k) + u).
  { rewrite digits2_shift by lia. lia. }
  assert (Hd53 : Zdigits2 (Zpos k) <= 53) by (apply Zdigits2_le; lia).
  assert (Hs1 : shr_fexp prec emax (Zpos k * 2 ^ (u - e)) e loc_Exact
                = ({| shr_m := Zpos k; shr_r := false; shr_s := false |}, u)).
  { unfold shr_fexp, shr. rewrite Hdig.
    destruct (fexp prec emax (Zdigits2 (Zpos k) + u) - e) as [|p|p] eqn:E.
    - replace (u - e) with 0 by lia. rewrite Z.pow_0_r, Z.mul_1_r. cbn. f_equal. lia.
    - replace (u - e) with (Zpos p) by lia.
      cbn [shr_record_of_loc]. rewrite iter_shr_exact by lia. f_equal. lia.
    - replace (u - e) with 0 by lia. rewrite Z.pow_0_r, Z.mul_1_r. cbn. f_equal. lia. }
  rewrite Hs1. cbn [shr_m loc_of_shr_record round_nearest_even].
  assert (Hs2 : shr_fexp prec emax (Zpos k) u loc_Exact
                = ({| shr_m := Zpos k; shr_r := false; shr_s := false |}, u)).
  { unfold shr_fexp, shr.
    destruct (fexp prec emax (Zdigits2 (Zpos k) + u) - u) as [|p|p] eqn:E; try reflexivity.
    rewrite fexp_eq in *. lia. }
  rewrite Hs2. cbn [shr_m].
  replace (u <=? emax - prec) with true by (symmetry; apply Z.leb_le; unfold emax, prec; lia).
  reflexivity.
Qed.

End ExactIntegers.

Section ExactIntegers2.
#[local] Open Scope Z_scope.

Lemma normalize_pos_int s (m : positive) ez (I : Z) :
  ez <= 0 -> 0 < I < 2 ^ 53 -> Zpos m = I * 2 ^ (- ez) ->
  binary_round prec emax s m ez
    = S754_finite s (Z.to_pos (I * 2 ^ (53 - Zdigits2 I))) (Zdigits2 I - 53).
Proof.
  intros Hez HI Hm. unfold binary_round.
  destruct I as [|i|i]; try lia.
  assert (Hd : Zdigits2 (Zpos m) = Zdigits2 (Zpos i) - ez).
  { rewrite Hm, digits2_shift by lia. lia. }
  assert (Hdi : 1 <= Zdigits2 (Zpos i) <= 53).
  { split; [cbn [Zdigits2]; lia | apply Zdigits2_le; lia]. }
  change (Zpos (digits2_pos m)) with (Zdigits2 (Zpos m)). rewrite Hd.
  replace (Zdigits2 (Zpos i) - ez + ez) with (Zdigits2 (Zpos i)) by lia.
  set (f := Zdigits2 (Zpos i) - 53) in *.
  assert (Hf : fexp prec emax (Zdigits2 (Zpos i)) = f) by (rewrite fexp_eq; unfold f; lia).
  rewrite Hf.
  destruct (shl_align_spec m ez f) as (mz & ez' & -> & Hez' & Hmz).
  set (k := Zpos i * 2 ^ (53 - Zdigits2 (Zpos i))).
  assert (Hkpos : 0 < k) by (apply Z.mul_pos_pos; [lia|apply Z.pow_pos_nonneg; lia]).
  assert (Hk53 : k < 2 ^ 53).
  { unfold k. pose proof (Zdigits2_lt (Zpos i) ltac:(lia)) as Hlt.
    replace (2 ^ 53) with (2 ^ Zdigits2 (Zpos i) * 2 ^ (53 - Zdigits2 (Zpos i)))
      by (rewrite <- Z.pow_add_r by lia; f_equal; lia).
    apply Z.mul_lt_mono_pos_r; [apply Z.pow_pos_nonneg; lia|exact Hlt]. }
  assert (Hmzk : Zpos mz = k * 2 ^ (f - ez')).
  { rewrite Hmz, Hm. unfold k. rewrite <- !Z.mul_assoc, <- !Z.pow_add_r by lia.
    do 2 f_equal. unfold f. lia. }
  destruct k as [|kp|kp] eqn:Ek; try lia.
  rewrite Hmzk. cbn [Z.to_pos].
  apply round_aux_exact; try lia.
  assert (Hdk : Zdigits2 (Zpos kp) = 53).
  { rewrite <- Ek. unfold k. rewrite digits2_shift by lia. lia. }
  rewrite Hdk, fexp_eq. unfold f in *. lia.
Qed.

#[local] Open Scope R_scope.

Lemma normalize_int (M ez I : Z) :
  (ez <= 0)%Z -> (Z.abs I < 2 ^ 53)%Z -> M = (I * 2 ^ (- ez))%Z ->
  SFfin (binary_normalize prec emax M ez false) = true /\
  SFR (binary_normalize prec emax M ez false) = IZR I.
Proof.
  intros Hez HI HM.
  assert (Hp : (0 < 2 ^ (- ez))%Z) by (apply Z.pow_pos_nonneg; lia).
  assert (Hval : forall i : Z, (0 < i < 2 ^ 53)%Z ->
            IZR (Zpos (Z.to_pos (i * 2 ^ (53 - Zdigits2 i)))) * p2 (Zdigits2 i - 53) = IZR i).
  { intros i Hi.
    assert (Hdi : (1 <= Zdigits2 i <= 53)%Z).
    { split; [destruct i; cbn [Zdigits2]; lia | apply Zdigits2_le; lia]. }
    rewrite Z2Pos.id by (apply Z.mul_pos_pos; [lia|apply Z.pow_pos_nonneg; lia]).
    rewrite mult_IZR, <- p2_IZR, Rmult_assoc, <- p2_add by lia.
    replace (53 - Zdigits2 i + (Zdigits2 i - 53))%Z with 0%Z by lia.
    change (p2 0) with 1. ring. }
  destruct M as [|m|m]; cbn [binary_normalize].
  - assert (I = 0%Z) by nia. subst I. split; reflexivity.
  - assert (HI0 : (0 < I)%Z) by nia.
    rewrite (normalize_pos_int false m ez I Hez ltac:(lia) HM).
    split; [reflexivity|]. rewrite SFR_finite. unfold sgn. apply Hval. lia.
  - assert (HI0 : (I < 0)%Z) by nia.
    rewrite (normalize_pos_int true m ez (- I) Hez ltac:(lia) ltac:(lia)).
    split; [reflexivity|]. rewrite SFR_finite. unfold sgn.
    rewrite Hval by lia. rewrite opp_IZR. ring.
Qed.

Lemma int_exponent x s m e (a : Z) : Prim2SF x = S754_finite s m e ->
  FR x = IZR a -> (Z.abs a < 2 ^ 53)%Z -> (e <= 0)%Z.
Proof.
  intros Hx HR Ha. destruct (Z_le_gt_dec e 0) as [|Hgt]; auto. exfalso.
  pose proof (valid_canonical x s m e Hx ltac:(lia)) as Hm.
  unfold FR in HR. rewrite Hx, SFR_finite in HR.
  assert (Habs : Rabs (IZR a) = IZR (Zpos m) * p2 e).
  { rewrite <- HR, Rabs_sgn. apply Rabs_pos_eq.
    pose proof (p2_pos e). assert (0 <= IZR (Zpos m)) by (apply IZR_le; lia). nra. }
  rewrite <- abs_IZR in Habs.
  assert (IZR (Z.abs a) < IZR (2 ^ 53)) by (apply IZR_lt; exact Ha).
  assert (IZR (2 ^ 52) <= IZR (Zpos m)) by (apply IZR_le; exact Hm).
  pose proof (p2_le 1 e ltac:(lia)) as Hp. change (p2 1) with (2 * 1) in Hp.
  change (2 ^ 53)%Z with 9007199254740992%Z in *.
  change (2 ^ 52)%Z with 4503599627370496%Z in *.
  nra.
Qed.

Lemma signed_aligned x s m e (a : Z) ez :
  Prim2SF x = S754_finite s m e -> FR x = IZR a -> (ez <= e)%Z -> (ez <= 0)%Z ->
  cond_Zopp s (Zpos (fst (shl_align m e ez))) = (a * 2 ^ (- ez))%Z.
Proof.
  intros Hx HR Hle Hez. apply eq_IZR.
  pose proof (aligned_value s m e ez Hle) as Hv.
  unfold FR in HR. rewrite Hx, SFR_finite in HR. rewrite HR in Hv.
  rewrite mult_IZR, <- p2_IZR by lia.
  apply Rmult_eq_reg_r with (p2 ez); [|pose proof (p2_pos ez); lra].
  rewrite Hv, Rmult_assoc, <- p2_add. replace (- ez + ez)%Z with 0%Z by lia.
  change (p2 0) with 1. ring.
Qed.

(** Sums and differences of integers are computed exactly as long as the
    operands and the result are below [2^53] in absolute value. *)
Lemma add_int x y (a b : Z) : fin x -> fin y -> FR x = IZR a -> FR y = IZR b ->
  (Z.abs a < 2 ^ 53)%Z -> (Z.abs b < 2 ^ 53)%Z -> (Z.abs (a + b) < 2 ^ 53)%Z ->
  fin (x + y)%float /\ FR (x + y)%float = IZR (a + b).
Proof.
  unfold fin. intros Fx Fy Rx Ry Ha Hb Hab.
  unfold FR in *. rewrite FloatAxioms.add_spec.
  destruct (Prim2SF x) as [sx|sx| |sx mx ex] eqn:Hx, (Prim2SF y) as [sy|sy| |sy my ey] eqn:Hy;
    try discriminate; unfold SF64add, SFadd.
  - cbn [SFR] in *. apply eq_IZR in Rx, Ry. subst. destruct sx, sy; split; reflexivity.
  - cbn [SFR] in Rx. apply eq_IZR in Rx. subst a. split; [reflexivity|]. rewrite Ry. reflexivity.
  - cbn [SFR] in Ry. apply eq_IZR in Ry. subst b. split; [reflexivity|].
    rewrite Rx, Z.add_0_r. reflexivity.
  - cbv zeta.
    assert (Rx' : FR x = IZR a) by (unfold FR; rewrite Hx; exact Rx).
    assert (Ry' : FR y = IZR b) by (unfold FR; rewrite Hy; exact Ry).
    assert (Hex : (ex <= 0)%Z) by (apply (int_exponent x sx mx ex a Hx Rx' Ha)).
    assert (Hey : (ey <= 0)%Z) by (apply (int_exponent y sy my ey b Hy Ry' Hb)).
    apply normalize_int; try lia.
    rewrite (signed_aligned x sx mx ex a _ Hx Rx') by lia.
    rewrite (signed_aligned y sy my ey b _ Hy Ry') by lia.
    ring.
Qed.

Lemma sub_int x y (a b : Z) : fin x -> fin y -> FR x = IZR a -> FR y = IZR b ->
  (Z.abs a < 2 ^ 53)%Z -> (Z.abs b < 2 ^ 53)%Z -> (Z.abs (a - b) < 2 ^ 53)%Z ->
  fin (x - y)%float /\ FR (x - y)%float = IZR (a - b).
Proof.
  unfold fin. intros Fx Fy Rx Ry Ha Hb Hab.
  unfold FR in *. rewrite FloatAxioms.sub_spec.
  destruct (Prim2SF x) as [sx|sx| |sx mx ex] eqn:Hx, (Prim2SF y) as [sy|sy| |sy my ey] eqn:Hy;
    try discriminate; unfold SF64sub, SFsub.
  - cbn [SFR] in *. apply eq_IZR in Rx, Ry. subst. destruct sx, sy; split; reflexivity.
  - cbn [SFR] in Rx. apply eq_IZR in Rx. subst a. split; [reflexivity|].
    rewrite SFR_finite in *. rewrite Z.sub_0_l, opp_IZR, <- Ry.
    destruct sy; unfold sgn; cbn; ring.
  - cbn [SFR] in Ry. apply eq_IZR in Ry. subst b. split; [reflexivity|].
    rewrite Rx, Z.sub_0_r. reflexivity.
  - cbv zeta.
    assert (Rx' : FR x = IZR a) by (unfold FR; rewrite Hx; exact Rx).
    assert (Ry' : FR y = IZR b) by (unfold FR; rewrite Hy; exact Ry).
    assert (Hex : (ex <= 0)%Z) by (apply (int_exponent x sx mx ex a Hx Rx' Ha)).
    assert (Hey : (ey <= 0)%Z) by (apply (int_exponent y sy my ey b Hy Ry' Hb)).
    apply normalize_int; try lia.
    rewrite (signed_aligned x sx mx ex a _ Hx Rx') by lia.
    rewrite (signed_aligned y sy my ey b _ Hy Ry') by lia.
    ring.
Qed.

(** Comparison of a finite double with zero. *)
Lemma ltb_zero_R x : fin x -> (0 <? x)%float = true <-> 0 < FR x.
Proof.
  unfold fin, FR. rewrite FloatAxioms.ltb_spec, Prim2SF_zero.
  destruct (Prim2SF x) as [s|s| |s m e]; try discriminate; intros _.
  - cbn. split; [discriminate|lra].
  - rewrite SFR_finite.
    assert (0 < IZR (Zpos m) * p2 e).
    { pose proof (p2_pos e). assert (1 <= IZR (Zpos m)) by (apply IZR_le; lia). nra. }
    destruct s; cbn; unfold sgn; split; try discriminate; try lra; auto.
Qed.

End ExactIntegers2.

Section EqualSplitExtras.
#[local] Open Scope R_scope.

Lemma fin_is_finite x : fin x -> Number_isFinite x = true.
Proof.
  unfold fin, Number_isFinite, is_finite, is_nan, is_infinity. intros Hf.
  rewrite !FloatAxioms.eqb_spec, FloatAxioms.abs_spec.
  assert (Hinf : Prim2SF infinity = S754_infinity false) by reflexivity.
  rewrite Hinf.
  destruct (Prim2SF x) as [s|s| |s m e]; try discriminate; cbn.
  - reflexivity.
  - unfold SFeqb, SFcompare. destruct s; rewrite Z.compare_refl, Pos.compare_cont_refl; reflexivity.
Qed.

Lemma fin_hundredths k : (Z.abs k <= 1000000)%Z -> fin (hundredths k).
Proof. intros Hk. destruct (approx_hundredths_wide k Hk) as [H _]. exact H. Qed.

Lemma round2_hundredths (k : Z) : (Z.abs k <= 1000000)%Z ->
  Page.round2 (hundredths k) = hundredths k.
Proof.
  intros Hk. destruct (Z.eq_dec k 0%Z) as [->|Hnz]; [vm_compute; reflexivity|].
  apply (round2_near _ k _ (approx_hundredths_wide k Hk) Hk); [lra|exact Hnz].
Qed.

Lemma foldl_cutPercent_finite (rows : list Page.SettlementMemberRow) acc :
  Forall (fun r => fin (Page.cutPercent r)) rows ->
  foldl (fun sum row =>
           (sum + (if Number_isFinite (Page.cutPercent row)
                   then Page.cutPercent row else 0))%float) acc rows
  = foldl PrimFloat.add acc (Page.cutPercent <$> rows).
Proof.
  intros H. revert acc. induction H as [|r rows Hr _ IH]; intros acc; [reflexivity|].
  cbn [foldl fmap list_fmap]. rewrite (fin_is_finite _ Hr). apply IH.
Qed.

Lemma equal_split_running_total (c : Z) : (1 <= c < 2 ^ 32)%Z ->
  Page.round2 (foldl PrimFloat.add 0%float (Page.makeEqualSplits c)) = 100%float.
Proof.
  intros Hc.
  destruct (equal_split_shape c Hc) as (Nb & Nl & -> & HNb & HNl & Hsum & Hcase & HcNb & _).
  rewrite foldl_app. cbn [foldl].
  destruct Hcase as [->|Hcle].
  - change (hundredths 0) with 0%float. rewrite foldl_zeros.
    assert (Nl = 10000%Z) by lia. subst Nl. vm_compute. reflexivity.
  - pose proof (sum_shares Nb (Z.to_nat c - 1) HNb ltac:(lia) ltac:(nia)) as AS.
    replace (Z.of_nat (Z.to_nat c - 1)) with (c - 1)%Z in AS by lia.
    assert (HcR : 0 <= IZR (c - 1) <= 20000) by (split; apply IZR_le; lia).
    apply approx_weaken with (e' := / 100000000) in AS; [|lra].
    pose proof (approx_hundredths_wide Nl ltac:(lia)) as AL.
    assert (Hv : IZR ((c - 1) * Nb) / 100 + IZR Nl / 100 = IZR 10000 / 100).
    { rewrite <- Rdiv_plus_distr, <- plus_IZR, Hsum. reflexivity. }
    assert (HB : Rabs (IZR ((c - 1) * Nb) / 100 + IZR Nl / 100) <= 101).
    { rewrite Hv. apply Rabs_le. lra. }
    pose proof (approx_add _ _ _ _ _ _ 101 AS AL HB ltac:(lra)) as A.
    rewrite Hv in A.
    apply approx_weaken with (e' := / 1000000) in A; [|lra].
    rewrite (round2_near _ 10000 _ A ltac:(simpl; lia) ltac:(lra) ltac:(lia)).
    vm_compute. reflexivity.
Qed.

(** Members without cut records, none of whose ids names a property of
    [Object.prototype], are shown the equal split, in member order. *)
Lemma equal_split_rows emails members :
  Forall (fun m => inheritedKey (bm_id m) = false) members ->
  Page.cutPercent <$> Page.nextRows emails members []
    = Page.makeEqualSplits (Z.of_nat (length members)).
Proof.
  intros Hids. unfold Page.nextRows.
  set (splits := Page.makeEqualSplits (Z.of_nat (length members))).
  assert (Hlen : length splits = length members).
  { unfold splits. destruct members as [|m ms]; [reflexivity|].
    rewrite makeEqualSplits_unfold by (cbn [length]; lia).
    rewrite length_app, length_replicate. cbn [length]. lia. }
  apply list_eq. intros i.
  rewrite list_lookup_fmap, list_lookup_imap.
  destruct (members !! i) as [m|] eqn:Hm; cbn [fmap option_fmap option_map].
  - assert (Hk : inheritedKey (bm_id m) = false).
    { rewrite Forall_forall in Hids. apply Hids. apply list_elem_of_lookup. eauto. }
    rewrite (getCut_plain [] _ Hk eq_refl).
    change (Page.entries (Page.cutByMemberId [])) with (∅ : gmap string CutRow).
    rewrite lookup_empty. cbn [Page.cutPercent].
    destruct (splits !! i) as [p|] eqn:Hp; [reflexivity|].
    apply lookup_lt_Some in Hm. apply lookup_ge_None in Hp. lia.
  - symmetry. apply lookup_ge_None. apply lookup_ge_None in Hm. lia.
Qed.

Lemma equal_split_rows_fin emails members : (1 <= Z.of_nat (length members) < 2 ^ 32)%Z ->
  Forall (fun m => inheritedKey (bm_id m) = false) members ->
  Forall (fun r => fin (Page.cutPercent r)) (Page.nextRows emails members []).
Proof.
  intros Hn Hids. apply Forall_fmap with (f := Page.cutPercent) (P := fin).
  rewrite (equal_split_rows _ _ Hids).
  destruct (equal_split_shape _ Hn) as (Nb & Nl & -> & HNb & HNl & _).
  apply Forall_app. split; [apply Forall_replicate|repeat constructor]; apply fin_hundredths; lia.
Qed.

Lemma equal_split_total_valid emails members :
  (1 <= Z.of_nat (length members) < 2 ^ 32)%Z ->
  Forall (fun m => inheritedKey (bm_id m) = false) members ->
  Page.cutsValid (Page.nextRows emails members []) = true.
Proof.
  intros Hn Hids. unfold Page.cutsValid, Page.totalCuts.
  rewrite (foldl_cutPercent_finite _ _ (equal_split_rows_fin emails members Hn Hids)).
  rewrite (equal_split_rows _ _ Hids), equal_split_running_total by exact Hn.
  vm_compute. reflexivity.
Qed.

(** X1: for any band of at least one member and no cut records, where no
    member id names a property of [Object.prototype], the total shown under
    the equal split is exactly 100 and the sum test accepts it. *)
Theorem equal_split_total_is_100 emails members :
  (1 <= Z.of_nat (length members) < 2 ^ 32)%Z ->
  Forall (fun m => inheritedKey (bm_id m) = false) members ->
  Page.totalCuts (Page.nextRows emails members []) = 100%float /\
  Page.cutsValid (Page.nextRows emails members []) = true.
Proof.
  intros Hn Hids.
  assert (Ht : Page.totalCuts (Page.nextRows emails members []) = 100%float).
  { unfold Page.totalCuts.
    rewrite (foldl_cutPercent_finite _ _ (equal_split_rows_fin emails members Hn Hids)).
    rewrite (equal_split_rows _ _ Hids). apply equal_split_running_total. exact Hn. }
  split; [exact Ht|]. unfold Page.cutsValid. rewrite Ht. vm_compute. reflexivity.
Qed.

Lemma equal_split_total_is_100_witness :
  (1 <= Z.of_nat (length [sample_ann; sample_bob]) < 2 ^ 32)%Z /\
  Forall (fun m => inheritedKey (bm_id m) = false) [sample_ann; sample_bob] /\
  Page.totalCuts (Page.nextRows ∅ [sample_ann; sample_bob] []) = 100%float /\
  Page.cutsValid (Page.nextRows ∅ [sample_ann; sample_bob] []) = true.
Proof.
  assert (Hids : Forall (fun m => inheritedKey (bm_id m) = false) [sample_ann; sample_bob])
    by (repeat constructor).
  split; [simpl; lia|]. split; [exact Hids|].
  apply (equal_split_total_is_100 ∅ [sample_ann; sample_bob]); [simpl; lia|exact Hids].
Defined.

Lemma ltb_zero_l x : fin x -> (x <? 0)%float = true <-> FR x < 0.
Proof.
  unfold fin, FR. rewrite FloatAxioms.ltb_spec, Prim2SF_zero.
  destruct (Prim2SF x) as [s|s| |s m e]; try discriminate; intros _.
  - cbn. split; [destruct s; discriminate|lra].
  - rewrite SFR_finite.
    assert (0 < IZR (Zpos m) * p2 e).
    { pose proof (p2_pos e). assert (1 <= IZR (Zpos m)) by (apply IZR_le; lia). nra. }
    destruct s; cbn; unfold sgn; split; try discriminate; try lra; auto.
Qed.

Lemma hundredths_nonneg k : (0 <= k <= 1000000)%Z -> (hundredths k <? 0)%float = false.
Proof.
  intros Hk. destruct (approx_hundredths_wide k ltac:(lia)) as [Hf He].
  destruct (hundredths k <? 0)%float eqn:E; [|reflexivity].
  apply (ltb_zero_l _ Hf) in E. apply Rabs_le_inv in He.
  destruct (Z.eq_dec k 0%Z) as [->|Hnz]; [vm_compute in E; lra|].
  assert (1 <= IZR k) by (apply IZR_le; lia). lra.
Qed.

(** X2: with more than 20000 members the base share rounds to 0.00, so the
    equal split gives 0 to everyone but the last member, who gets 100. *)
Theorem equal_split_large_band (count : Z) : (20000 < count < 2 ^ 32)%Z ->
  Page.makeEqualSplits count = replicate (Z.to_nat count - 1) 0%float ++ [100%float].
Proof.
  intros Hc.
  destruct (equal_split_shape count ltac:(lia)) as (Nb & Nl & -> & HNb & HNl & Hsum & Hcase & _).
  assert (Nb = 0%Z) by lia. subst Nb. assert (Nl = 10000%Z) by lia. subst Nl.
  reflexivity.
Qed.

Lemma equal_split_large_band_witness :
  (20000 < 20001 < 2 ^ 32)%Z /\
  Page.makeEqualSplits 20001 = replicate (Z.to_nat 20001 - 1) 0%float ++ [100%float].
Proof. split; [lia|]. apply (equal_split_large_band 20001). lia. Defined.

(** Up to 141 members the remainder never makes the last share negative. *)
Lemma small_band_shape (c : Z) : (1 <= c <= 141)%Z ->
  exists Nb Nl : Z,
    Page.makeEqualSplits c = replicate (Z.to_nat c - 1) (hundredths Nb) ++ [hundredths Nl] /\
    (0 <= Nb <= 10000)%Z /\ (0 <= Nl <= 10000)%Z /\ ((c - 1) * Nb + Nl = 10000)%Z.
Proof.
  intros Hc.
  destruct (equal_split_shape c ltac:(lia)) as (Nb & Nl & Hs & HNb & HNl & Hsum & _ & _ & Hnear).
  exists Nb, Nl. split; [exact Hs|]. split; [exact HNb|]. split; [|exact Hsum].
  assert (HNl0 : (0 <= Nl)%Z).
  { apply Rabs_le_inv in Hnear.
    assert (Hc1 : 1 <= IZR c <= 141) by (split; apply IZR_le; lia).
    assert (Hq : IZR c * (10000 / IZR c) = 10000) by (field; lra).
    assert (HR : IZR ((c - 1) * Nb) <= 10000).
    { rewrite mult_IZR, minus_IZR.
      assert (IZR Nb <= 10000 / IZR c + / 2 + / 1000000) by lra.
      assert ((IZR c - 1) * IZR Nb <= (IZR c - 1) * (10000 / IZR c + / 2 + / 1000000)).
      { apply Rmult_le_compat_l; lra. }
      assert (0 < 10000 / IZR c) by (apply Rdiv_lt_0_compat; lra).
      assert ((IZR c - 1) * (/ 2 + / 1000000) <= 10000 / IZR c).
      { apply Rmult_le_reg_l with (IZR c); [lra|]. rewrite Hq. nra. }
      nra. }
    apply le_IZR in HR. lia. }
  nia.
Qed.

Lemma small_band_shares_nonneg (c : Z) : (1 <= c <= 141)%Z ->
  Forall (fun p => (p <? 0)%float = false /\ Page.round2 p = p) (Page.makeEqualSplits c).
Proof.
  intros Hc.
  destruct (small_band_shape c Hc) as (Nb & Nl & -> & HNb & HNl & _).
  apply Forall_app. split; [apply Forall_replicate|apply Forall_singleton];
    (split; [apply hundredths_nonneg; lia|apply round2_hundredths; lia]).
Qed.

Lemma existsb_Forall_false {A} (f : A -> bool) (l : list A) :
  Forall (fun x => f x = false) l -> existsb f l = false.
Proof.
  induction 1 as [|x l Hx _ IH]; cbn; [reflexivity|]. rewrite Hx. exact IH.
Qed.

(** X3: for a band of 1 to 141 members without cut records, where no
    member id names a property of [Object.prototype], saving the untouched
    equal split is accepted, and the percentages sent to the store are
    exactly the equal split (rounding them again changes nothing). *)
Theorem save_untouched_equal_split emails members tour st :
  (1 <= Z.of_nat (length members) <= 141)%Z ->
  Forall (fun m => inheritedKey (bm_id m) = false) members ->
  truthy_string (Page.tourId st) = Some tour -> Page.canEdit st = true ->
  Page.rows st = Page.nextRows emails members [] ->
  exists st' payload, Page.saveCuts st = Page.Upsert st' payload /\
    Page.p_cut_percent <$> payload = Page.makeEqualSplits (Z.of_nat (length members)) /\
    Page.p_band_member_id <$> payload = bm_id <$> members.
Proof.
  intros Hn Hids Ht He Hr. unfold Page.saveCuts. rewrite Ht, He.
  cbn [negb Page.with_status Page.rows].
  rewrite Hr.
  assert (Hv : Page.cutsValid (Page.nextRows emails members []) = true).
  { apply equal_split_total_valid; [lia|exact Hids]. }
  rewrite Hv. cbn [negb].
  pose proof (small_band_shares_nonneg _ Hn) as Hs.
  rewrite <- (equal_split_rows emails _ Hids) in Hs.
  rewrite Forall_fmap in Hs.
  assert (Hex : existsb (fun r => (Page.cutPercent r <? 0)%float)
                  (Page.nextRows emails members []) = false).
  { apply existsb_Forall_false. eapply Forall_impl; [exact Hs|]. intros r [Hr0 _]. exact Hr0. }
  rewrite Hex. eexists _, _. split; [reflexivity|]. split.
  - rewrite <- (equal_split_rows emails _ Hids), <- list_fmap_compose.
    apply Forall_fmap_ext_1. eapply Forall_impl; [exact Hs|].
    intros r [_ Hr2]. exact Hr2.
  - rewrite <- list_fmap_compose. unfold Page.nextRows.
    apply list_eq. intros i. rewrite !list_lookup_fmap, list_lookup_imap.
    destruct (members !! i); reflexivity.
Qed.

Lemma save_untouched_equal_split_witness :
  (1 <= Z.of_nat (length [sample_ann; sample_bob]) <= 141)%Z /\
  Forall (fun m => inheritedKey (bm_id m) = false) [sample_ann; sample_bob] /\
  exists st' payload, Page.saveCuts (sample_state (Page.nextRows ∅ [sample_ann; sample_bob] []))
      = Page.Upsert st' payload /\
    Page.p_cut_percent <$> payload = Page.makeEqualSplits (Z.of_nat (length [sample_ann; sample_bob])) /\
    Page.p_band_member_id <$> payload = bm_id <$> [sample_ann; sample_bob].
Proof.
  assert (Hids : Forall (fun m => inheritedKey (bm_id m) = false) [sample_ann; sample_bob])
    by (repeat constructor).
  split; [simpl; lia|]. split; [exact Hids|].
  apply (save_untouched_equal_split ∅ [sample_ann; sample_bob] "tour-1"%string
           (sample_state (Page.nextRows ∅ [sample_ann; sample_bob] [])));
    [simpl; lia|exact Hids|reflexivity|reflexivity|reflexivity].
Defined.

End EqualSplitExtras.

Section Round2Fixpoints.
#[local] Open Scope R_scope.

#[local] Abbreviation eps := (/ 4503599627370496) (only parsing).

Lemma FR_EPSILON : FR Number_EPSILON = eps.
Proof.
  destruct approx_EPSILON as [_ H]. apply Rabs_le_inv in H. lra.
Qed.

Lemma FR_100 : FR 100%float = 100.
Proof. destruct approx_100 as [_ H]. apply Rabs_le_inv in H. lra. Qed.

(** The argument of [Math.round] in [round2] is positive for every
    non-negative input: the nudge keeps it away from the negative zero. *)
Lemma round2_arg_pos x : fin x -> 0 <= FR x <= 9999 ->
  0 < FR ((x + Number_EPSILON) * 100)%float.
Proof.
  intros Hf Hx.
  destruct approx_EPSILON as [HfE _]. destruct approx_100 as [Hf100 _].
  pose proof p2_tiny as Ht. pose proof p2_m52 as He. pose proof p2_900 as H900.
  assert (Hs : Rabs (FR x + FR Number_EPSILON) = FR x + eps).
  { rewrite FR_EPSILON. apply Rabs_pos_eq. lra. }
  destruct (add_R x Number_EPSILON Hf HfE) as [Hfa Ha].
  { rewrite Hs. lra. }
  rewrite Hs, He in Ha. rewrite FR_EPSILON in Ha. apply Rabs_le_inv in Ha.
  set (a := FR (x + Number_EPSILON)%float) in *.
  assert (Ha0 : / 9007199254740992 <= a <= 10000) by lra.
  assert (Hp : Rabs (a * FR 100%float) = a * 100).
  { rewrite FR_100. apply Rabs_pos_eq. lra. }
  destruct (mul_R (x + Number_EPSILON)%float 100%float Hfa Hf100) as [_ Hm].
  { fold a. rewrite Hp. lra. }
  fold a in Hm. rewrite Hp, He, FR_100 in Hm. apply Rabs_le_inv in Hm. lra.
Qed.

Lemma round2_is_hundredths x : fin x -> 0 <= FR x <= 9999 ->
  exists n : Z, (0 <= n <= 1000000)%Z /\ Page.round2 x = hundredths n.
Proof.
  intros Hf Hx.
  pose proof (round2_arg x (FR x) 0 (approx_self x Hf)
                ltac:(apply Rabs_le; lra) ltac:(lra)) as A.
  set (y := ((x + Number_EPSILON) * 100)%float) in *.
  destruct A as [Hfy Hy]. apply Rabs_le_inv in Hy.
  pose proof (round2_arg_pos x Hf Hx) as Hpos. fold y in Hpos.
  destruct (Math_round_R y Hfy) as (N & _ & _ & HZ & Hlo & Hhi).
  assert (HN : (0 <= N <= 1000000)%Z).
  { split.
    - apply le_IZR. destruct (Z_le_gt_dec 0 N) as [H|H]; [apply IZR_le; exact H|].
      assert (IZR N <= -1) by (apply IZR_le; lia). lra.
    - destruct (Z_le_gt_dec N 1000000) as [H|H]; [exact H|].
      assert (1000001 <= IZR N) by (apply IZR_le; lia). lra. }
  exists N. split; [exact HN|].
  unfold Page.round2, hundredths. fold y. f_equal.
  rewrite <- HZ. apply Math_round_Z2F; [exact Hfy| |left; exact Hpos].
  pose proof p2_52_big. apply Rabs_def1; lra.
Qed.

(** X4: [round2] is idempotent on the percentages that can be saved: for a
    finite non-negative number up to 9999, rounding the rounded value again
    returns it unchanged, so what [saveCuts] stores is stable under loading
    and saving again. *)
Theorem round2_idempotent x : fin x -> 0 <= FR x <= 9999 ->
  Page.round2 (Page.round2 x) = Page.round2 x.
Proof.
  intros Hf Hx. destruct (round2_is_hundredths x Hf Hx) as (n & Hn & ->).
  apply round2_hundredths. lia.
Qed.

Lemma round2_idempotent_witness :
  fin 33.335%float /\ 0 <= FR 33.335%float <= 9999 /\
  Page.round2 (Page.round2 33.335%float) = Page.round2 33.335%float.
Proof.
  assert (Hf : fin 33.335%float) by reflexivity.
  assert (Hx : 0 <= FR 33.335%float <= 9999).
  { unfold FR. replace (Prim2SF 33.335%float)
      with (S754_finite false 4691484174324859 (-47)) by reflexivity.
    rewrite SFR_finite. unfold sgn.
    change (-47)%Z with (5 + -52)%Z. rewrite p2_add, p2_m52, (p2_IZR 5) by lia.
    change (2 ^ 5)%Z with 32%Z. lra. }
  split; [exact Hf|]. split; [exact Hx|].
  exact (round2_idempotent 33.335%float Hf Hx).
Defined.

End Round2Fixpoints.

Section IntegerAmounts.
#[local] Open Scope R_scope.

Lemma integral_intro x (a : Z) : fin x -> FR x = IZR a -> integral x /\ F2Z x = a.
Proof.
  intros Hf HR. pose proof (F2Z_int x a Hf HR) as HZ.
  split; [split; [exact Hf|rewrite HZ; exact HR]|exact HZ].
Qed.

Lemma integral_Z2F (z : Z) : (Z.abs z < 2 ^ 53)%Z -> integral (Z2F z) /\ F2Z (Z2F z) = z.
Proof.
  intros Hz. destruct (Z2F_R z Hz) as [Hf HR]. apply integral_intro; assumption.
Qed.

Lemma integral_add x y : integral x -> integral y ->
  (Z.abs (F2Z x) < 2 ^ 53)%Z -> (Z.abs (F2Z y) < 2 ^ 53)%Z ->
  (Z.abs (F2Z x + F2Z y) < 2 ^ 53)%Z ->
  integral (x + y)%float /\ F2Z (x + y)%float = (F2Z x + F2Z y)%Z.
Proof.
  intros [Fx Rx] [Fy Ry] Hx Hy Hxy.
  destruct (add_int x y _ _ Fx Fy Rx Ry Hx Hy Hxy) as [Hf HR].
  apply integral_intro; assumption.
Qed.

Lemma integral_sub x y : integral x -> integral y ->
  (Z.abs (F2Z x) < 2 ^ 53)%Z -> (Z.abs (F2Z y) < 2 ^ 53)%Z ->
  (Z.abs (F2Z x - F2Z y) < 2 ^ 53)%Z ->
  integral (x - y)%float /\ F2Z (x - y)%float = (F2Z x - F2Z y)%Z.
Proof.
  intros [Fx Rx] [Fy Ry] Hx Hy Hxy.
  destruct (sub_int x y _ _ Fx Fy Rx Ry Hx Hy Hxy) as [Hf HR].
  apply integral_intro; assumption.
Qed.

Lemma integral_zero : integral 0%float /\ F2Z 0%float = 0%Z.
Proof. change 0%float with (Z2F 0). apply integral_Z2F. simpl. lia. Qed.

Lemma sumZ_cons a l : sumZ (a :: l) = (a + sumZ l)%Z.
Proof. reflexivity. Qed.

Lemma sumZ_abs_nonneg (ledger : list LedgerRow) :
  (0 <= sumZ (Z.abs ∘ amountOf <$> ledger))%Z.
Proof.
  induction ledger as [|q l IHl]; [cbn; lia|].
  rewrite fmap_cons, sumZ_cons. unfold compose at 1. lia.
Qed.

(** The two running totals of the ledger loop, started anywhere. *)
Lemma ledger_loop_exact (ledger : list LedgerRow) : forall inc expn,
  Forall (fun r => integral (amount_cents r)) ledger ->
  integral inc -> integral expn ->
  (Z.abs (F2Z inc) + Z.abs (F2Z expn) + sumZ (Z.abs ∘ amountOf <$> ledger) < 2 ^ 53)%Z ->
  let t := foldl (fun '(inc, expn) row =>
                    match entry_type row with
                    | income => ((inc + amount_cents row)%float, expn)
                    | expense => (inc, (expn + amount_cents row)%float)
                    end) (inc, expn) ledger in
  integral (fst t) /\ integral (snd t) /\
  F2Z (fst t) = (F2Z inc + sumZ (incomeOf <$> ledger))%Z /\
  F2Z (snd t) = (F2Z expn + sumZ (expenseOf <$> ledger))%Z.
Proof.
  induction ledger as [|r ledger IH]; intros inc expn Hall Hi He Hb; cbv zeta in *.
  - cbn. split; [exact Hi|]. split; [exact He|]. split; lia.
  - apply Forall_cons in Hall. destruct Hall as [Hr Hall].
    rewrite fmap_cons, sumZ_cons in Hb. unfold compose at 1 in Hb.
    pose proof (sumZ_abs_nonneg ledger) as Hs.
    unfold amountOf at 1 in Hb.
    rewrite !fmap_cons, !sumZ_cons. cbn [foldl].
    unfold incomeOf at 1, expenseOf at 1, amountOf.
    destruct (entry_type r); cbv beta iota.
    + destruct (integral_add inc (amount_cents r) Hi Hr ltac:(lia) ltac:(lia) ltac:(lia))
        as [Hi' HZ].
      destruct (IH _ expn Hall Hi' He ltac:(rewrite HZ; lia)) as (H1 & H2 & H3 & H4).
      split; [exact H1|]. split; [exact H2|]. split; [rewrite H3, HZ|rewrite H4]; lia.
    + destruct (integral_add expn (amount_cents r) He Hr ltac:(lia) ltac:(lia) ltac:(lia))
        as [He' HZ].
      destruct (IH inc _ Hall Hi He' ltac:(rewrite HZ; lia)) as (H1 & H2 & H3 & H4).
      split; [exact H1|]. split; [exact H2|]. split; [rewrite H3|rewrite H4, HZ]; lia.
Qed.

(** X5: when every ledger amount is a whole number of minor units and the
    absolute amounts add up to less than [2^53], the two totals are computed
    without any rounding: total income and total expenses are the exact
    integer sums of the income rows and of the expense rows. *)
Theorem ledger_totals_exact (ledger : list LedgerRow) :
  Forall (fun r => integral (amount_cents r)) ledger ->
  (sumZ (Z.abs ∘ amountOf <$> ledger) < 2 ^ 53)%Z ->
  integral (fst (Page.ledgerTotals ledger)) /\
  integral (snd (Page.ledgerTotals ledger)) /\
  F2Z (fst (Page.ledgerTotals ledger)) = sumZ (incomeOf <$> ledger) /\
  F2Z (snd (Page.ledgerTotals ledger)) = sumZ (expenseOf <$> ledger).
Proof.
  intros Hall Hb. destruct integral_zero as [H0 HZ0].
  destruct (ledger_loop_exact ledger 0%float 0%float Hall H0 H0
              ltac:(rewrite HZ0; simpl; lia)) as (H1 & H2 & H3 & H4).
  unfold Page.ledgerTotals. rewrite HZ0 in H3, H4.
  split; [exact H1|]. split; [exact H2|]. split; [rewrite H3|rewrite H4]; lia.
Qed.

Lemma sample_ledger_integral : Forall (fun r => integral (amount_cents r)) sample_ledger.
Proof.
  repeat constructor; cbn [amount_cents]; apply integral_Z2F; simpl; lia.
Qed.

Lemma ledger_totals_exact_witness :
  Forall (fun r => integral (amount_cents r)) sample_ledger /\
  (sumZ (Z.abs ∘ amountOf <$> sample_ledger) < 2 ^ 53)%Z /\
  F2Z (fst (Page.ledgerTotals sample_ledger)) = sumZ (incomeOf <$> sample_ledger) /\
  F2Z (snd (Page.ledgerTotals sample_ledger)) = sumZ (expenseOf <$> sample_ledger).
Proof.
  assert (H2 : (sumZ (Z.abs ∘ amountOf <$> sample_ledger) < 2 ^ 53)%Z)
    by (vm_compute; reflexivity).
  split; [exact sample_ledger_integral|]. split; [exact H2|].
  apply (ledger_totals_exact sample_ledger sample_ledger_integral H2).
Defined.

(** One rounded share of an integer amount: [Math.round (x * (p / 100))] for
    a two-decimal percentage [p = k/100]. *)
Lemma round_share x (D k : Z) : fin x -> FR x = IZR D ->
  (Z.abs D <= 10 ^ 14)%Z -> (0 <= k <= 10000)%Z ->
  integral (Math_round (x * (hundredths k / 100))%float) /\
  Rabs (IZR (F2Z (Math_round (x * (hundredths k / 100))%float)) - IZR D * IZR k / 10000)
    <= 3 / 4.
Proof.
  intros Hf HR HD Hk.
  assert (HD' : Rabs (IZR D) <= 100000000000000).
  { rewrite <- abs_IZR. apply IZR_le. exact HD. }
  assert (Hk' : Rabs (IZR k / 100) <= 100).
  { apply Rabs_le. assert (0 <= IZR k <= 10000) by (split; apply IZR_le; lia). lra. }
  assert (A1 : approx x (IZR D) 0).
  { split; [exact Hf|]. rewrite HR, Rminus_diag, Rabs_R0. lra. }
  pose proof (approx_hundredths k ltac:(lia)) as A2.
  pose proof (approx_div _ _ _ _ _ _ 100 100 A2 approx_100 Hk'
                ltac:(rewrite Rabs_pos_eq; lra) ltac:(lra) ltac:(lra) ltac:(lra) ltac:(lra)) as A3.
  apply approx_weaken with (e' := / 2000000000000000) in A3; [|lra].
  assert (Hk3 : Rabs (IZR k / 100 / 100) <= 1).
  { apply Rabs_le. assert (0 <= IZR k <= 10000) by (split; apply IZR_le; lia). lra. }
  pose proof (approx_mul _ _ _ _ _ _ 100000000000000 1 A1 A3 HD' Hk3 ltac:(lra)) as A4.
  apply approx_weaken with (e' := / 4) in A4; [|lra].
  destruct A4 as [F4 E4].
  destruct (Math_round_R _ F4) as (N & HfN & HRN & HZ & Hlo & Hhi).
  split; [split; [exact HfN|rewrite HZ; exact HRN]|].
  rewrite HZ. apply Rabs_le_inv in E4. apply Rabs_le.
  replace (IZR D * IZR k / 10000) with (IZR D * (IZR k / 100 / 100)) by field. lra.
Qed.

(** The rounded share of a non-negative amount lies between 0 and the amount. *)
Lemma round_share_range x (D k : Z) : fin x -> FR x = IZR D ->
  (0 <= D <= 10 ^ 14)%Z -> (0 <= k <= 10000)%Z ->
  let r := Math_round (x * (hundredths k / 100))%float in
  integral r /\ (0 <= F2Z r <= D)%Z /\ (Z.abs (10000 * F2Z r - D * k) <= 7500)%Z.
Proof.
  intros Hf HR HD Hk r.
  destruct (round_share x D k Hf HR ltac:(lia) Hk) as [Hi Hb]. fold r in Hi, Hb.
  split; [exact Hi|].
  apply Rabs_le_inv in Hb.
  assert (HDR : 0 <= IZR D) by (apply IZR_le; lia).
  assert (HkR : 0 <= IZR k <= 10000) by (split; apply IZR_le; lia).
  assert (Hq : 0 <= IZR D * IZR k / 10000 <= IZR D).
  { split; [apply Rmult_le_pos; [apply Rmult_le_pos|]; lra|].
    assert (IZR D * IZR k <= IZR D * 10000) by (apply Rmult_le_compat_l; lra). lra. }
  split; [split|].
  - destruct (Z_le_gt_dec 0 (F2Z r)) as [H|H]; [exact H|].
    assert (IZR (F2Z r) <= -1) by (apply IZR_le; lia). lra.
  - destruct (Z_le_gt_dec (F2Z r) D) as [H|H]; [exact H|].
    assert (IZR D + 1 <= IZR (F2Z r)) by (rewrite <- plus_IZR; apply IZR_le; lia). lra.
  - apply le_IZR. rewrite abs_IZR, minus_IZR, !mult_IZR. apply Rabs_le. lra.
Qed.

(** X6: for whole-unit totals up to [10^14] and two-decimal percentages
    between 0 and 100, every figure of the settlement is a whole number of
    minor units and no unit is lost or created: income = manager fee + agent
    fee + expenses + savings + distributable net.  Each fee lies between 0
    and the income and within 3/4 of a unit of the exact percentage, and for
    a positive net the savings lie between 0 and the net. *)
Theorem settlement_conserves_income inc expn (km ka ks : Z) :
  integral inc -> integral expn ->
  (0 <= F2Z inc <= 10 ^ 14)%Z -> (0 <= F2Z expn <= 10 ^ 14)%Z ->
  (0 <= km <= 10000)%Z -> (0 <= ka <= 10000)%Z -> (0 <= ks <= 10000)%Z ->
  let s := Page.settlement inc expn (hundredths ks) (hundredths km) (hundredths ka) in
  let I := F2Z inc in
  let Mf := F2Z (managerFeeCents s) in
  let Af := F2Z (agentFeeCents s) in
  let N := F2Z (netAfterFeesAndExpensesCents s) in
  let S := F2Z (savingsAmountCents s) in
  let D := F2Z (distributableNetCents s) in
  (integral (managerFeeCents s) /\ integral (agentFeeCents s) /\
   integral (grossFeesCents s) /\ integral (netAfterFeesAndExpensesCents s) /\
   integral (savingsAmountCents s) /\ integral (distributableNetCents s)) /\
  (I = Mf + Af + F2Z expn + S + D)%Z /\
  (F2Z (grossFeesCents s) = Mf + Af)%Z /\ (N = I - (Mf + Af) - F2Z expn)%Z /\
  (D = N - S)%Z /\
  (0 <= Mf <= I)%Z /\ (Z.abs (10000 * Mf - I * km) <= 7500)%Z /\
  (0 <= Af <= I)%Z /\ (Z.abs (10000 * Af - I * ka) <= 7500)%Z /\
  (N <= 0 -> S = 0)%Z /\
  (0 < N -> 0 <= S <= N /\ Z.abs (10000 * S - N * ks) <= 7500)%Z.
Proof.
  intros [Fi Ri] [Fe Re] HI HE Hkm Hka Hks. cbv zeta.
  unfold Page.settlement.
  cbn [managerFeeCents agentFeeCents grossFeesCents netAfterFeesAndExpensesCents
       savingsAmountCents distributableNetCents].
  destruct (round_share_range inc (F2Z inc) km Fi Ri HI Hkm) as (Im & Rm & Bm).
  destruct (round_share_range inc (F2Z inc) ka Fi Ri HI Hka) as (Ia & Ra & Ba).
  set (mf := Math_round (inc * (hundredths km / 100))%float) in *.
  set (af := Math_round (inc * (hundredths ka / 100))%float) in *.
  assert (H53 : (10 ^ 14 * 4 < 2 ^ 53)%Z) by (vm_compute; reflexivity).
  destruct (integral_add mf af Im Ia ltac:(lia) ltac:(lia) ltac:(lia)) as [Ig Zg].
  destruct (integral_sub inc (mf + af)%float (conj Fi Ri) Ig ltac:(lia) ltac:(lia) ltac:(lia))
    as [I1 Z1].
  destruct (integral_sub (inc - (mf + af))%float expn I1 (conj Fe Re)
              ltac:(lia) ltac:(lia) ltac:(lia)) as [In Zn].
  set (net := (inc - (mf + af) - expn)%float) in *.
  assert (HN : (F2Z net = F2Z inc - (F2Z mf + F2Z af) - F2Z expn)%Z) by lia.
  destruct In as [Fn Rn].
  destruct (0 <? net)%float eqn:Epos.
  - apply (ltb_zero_R net Fn) in Epos. rewrite Rn in Epos. apply lt_IZR in Epos.
    destruct (round_share_range net (F2Z net) ks Fn Rn ltac:(lia) Hks) as (Is & Rs & Bs).
    set (sv := Math_round (net * (hundredths ks / 100))%float) in *.
    destruct (integral_sub net sv (conj Fn Rn) Is ltac:(lia) ltac:(lia) ltac:(lia)) as [Id Zd].
    repeat split; try assumption; try apply Im; try apply Ia; try apply Ig; try apply Is;
      try apply Id; try lia.
  - assert (Hle : (F2Z net <= 0)%Z).
    { destruct (Z_le_gt_dec (F2Z net) 0) as [H|H]; [exact H|]. exfalso.
      assert (Hp : (0 <? net)%float = true).
      { apply (ltb_zero_R net Fn). rewrite Rn. apply IZR_lt. lia. }
      congruence. }
    destruct integral_zero as [I0 Z0].
    destruct (integral_sub net 0%float (conj Fn Rn) I0 ltac:(lia) ltac:(rewrite Z0; simpl; lia)
                ltac:(rewrite Z0; lia)) as [Id Zd].
    rewrite Z0 in *.
    repeat split; try assumption; try apply Im; try apply Ia; try apply Ig; try apply I0;
      try apply Id; try lia.
Qed.

Lemma settlement_conserves_income_witness :
  (F2Z 100000%float
   = F2Z (managerFeeCents (Page.settlement 100000 20000 (hundredths 1000)
                                           (hundredths 1000) (hundredths 500)))
     + F2Z (agentFeeCents (Page.settlement 100000 20000 (hundredths 1000)
                                           (hundredths 1000) (hundredths 500)))
     + F2Z 20000%float
     + F2Z (savingsAmountCents (Page.settlement 100000 20000 (hundredths 1000)
                                                (hundredths 1000) (hundredths 500)))
     + F2Z (distributableNetCents (Page.settlement 100000 20000 (hundredths 1000)
                                                   (hundredths 1000) (hundredths 500))))%Z.
Proof.
  destruct (integral_Z2F 100000 ltac:(simpl; lia)) as [Hi _].
  destruct (integral_Z2F 20000 ltac:(simpl; lia)) as [He _].
  refine (proj1 (proj2 (settlement_conserves_income 100000%float 20000%float 1000 500 1000
                          Hi He _ _ _ _ _))); vm_compute; split; discriminate.
Defined.

End IntegerAmounts.

Section EqualSplitPayouts.

Lemma Forall2_percent_hundredths (rows : list Page.SettlementMemberRow) : forall ks : list Z,
  Page.cutPercent <$> rows = hundredths <$> ks ->
  Forall (fun k => (0 <= k <= 10000)%Z) ks ->
  Forall2 (fun r k => Page.cutPercent r = hundredths k /\ (0 <= k <= 10000)%Z) rows ks.
Proof.
  induction rows as [|r rows IH]; intros [|k ks] He Hk; try discriminate He.
  - constructor.
  - rewrite !fmap_cons in He. injection He as Hr Hrest.
    apply Forall_cons in Hk. destruct Hk as [Hk0 Hk].
    constructor; [split; assumption|]. apply IH; assumption.
Qed.

(** X7: for a band of 1 to 141 members without cut records, where no
    member id names a property of [Object.prototype], and a distributable
    net of at most [10^14] minor units in absolute value, the payouts shown
    for the default equal split add up to the distributable net within
    [count - 1] minor units. *)
Theorem equal_split_payouts_within_slack emails members (D : Z) :
  (1 <= Z.of_nat (length members) <= 141)%Z ->
  Forall (fun m => inheritedKey (bm_id m) = false) members -> (Z.abs D <= 10 ^ 14)%Z ->
  (Z.abs (sumZ ((fun r => F2Z (Page.payoutCents (Z2F D) r))
                  <$> Page.nextRows emails members []) - D)
   <= Z.of_nat (length members) - 1)%Z.
Proof.
  intros Hn Hids HD.
  destruct (small_band_shape _ Hn) as (Nb & Nl & Hs & HNb & HNl & Hsum).
  set (rows := Page.nextRows emails members []).
  set (ks := replicate (Z.to_nat (Z.of_nat (length members)) - 1) Nb ++ [Nl]).
  assert (Hks : Page.cutPercent <$> rows = hundredths <$> ks).
  { unfold rows, ks. rewrite (equal_split_rows _ _ Hids), Hs, fmap_app, fmap_replicate.
    reflexivity. }
  assert (Hall : Forall (fun k => (0 <= k <= 10000)%Z) ks).
  { unfold ks. apply Forall_app. split; [apply Forall_replicate|apply Forall_singleton]; lia. }
  assert (Hks_sum : sumZ ks = 10000%Z).
  { unfold ks. rewrite sumZ_app, sumZ_replicate. cbn [sumZ foldr].
    replace (Z.of_nat (Z.to_nat (Z.of_nat (length members)) - 1))
      with (Z.of_nat (length members) - 1)%Z by lia.
    lia. }
  assert (Hlen : length rows = length members).
  { unfold rows, Page.nextRows. apply length_imap. }
  pose proof (sumZ_payout_bound D rows ks HD (Forall2_percent_hundredths rows ks Hks Hall)) as Hb.
  rewrite Hks_sum, Hlen in Hb.
  replace (IZR D * 10000 / 10000)%R with (IZR D) in Hb by field.
  rewrite <- minus_IZR, <- abs_IZR, INR_IZR_INZ in Hb.
  set (S := Z.abs (sumZ ((fun r => F2Z (Page.payoutCents (Z2F D) r)) <$> rows) - D)) in *.
  assert (HnR : (1 <= IZR (Z.of_nat (length members)))%R) by (apply IZR_le; lia).
  assert (Hlt : (IZR S < IZR (Z.of_nat (length members)))%R) by lra.
  apply lt_IZR in Hlt. lia.
Qed.

Lemma equal_split_payouts_within_slack_witness :
  (1 <= Z.of_nat (length [sample_ann; sample_bob]) <= 141)%Z /\
  Forall (fun m => inheritedKey (bm_id m) = false) [sample_ann; sample_bob] /\
  (Z.abs 58501 <= 10 ^ 14)%Z /\
  (Z.abs (sumZ ((fun r => F2Z (Page.payoutCents (Z2F 58501) r))
                  <$> Page.nextRows ∅ [sample_ann; sample_bob] []) - 58501)
   <= Z.of_nat (length [sample_ann; sample_bob]) - 1)%Z.
Proof.
  assert (H1 : (1 <= Z.of_nat (length [sample_ann; sample_bob]) <= 141)%Z) by (simpl; lia).
  assert (H2 : (Z.abs 58501 <= 10 ^ 14)%Z) by (simpl; lia).
  assert (Hids : Forall (fun m => inheritedKey (bm_id m) = false) [sample_ann; sample_bob])
    by (repeat constructor).
  split; [exact H1|]. split; [exact Hids|]. split; [exact H2|].
  exact (equal_split_payouts_within_slack ∅ [sample_ann; sample_bob] 58501 H1 Hids H2).
Defined.

End EqualSplitPayouts.

Section FileName.

Import FinanceExport.

Lemma allSafe_cons c s : allSafe (String c s) = safeChar c && allSafe s.
Proof. reflexivity. Qed.

Lemma replaceRuns_safe s : forall b, allSafe (replaceRuns b s) = true.
Proof.
  induction s as [|c s IH]; intros b; [reflexivity|].
  cbn [replaceRuns]. destruct (isLowerAlnum c) eqn:Ec.
  - rewrite allSafe_cons, IH. unfold safeChar. rewrite Ec. reflexivity.
  - destruct b; [apply IH|]. rewrite allSafe_cons, IH. reflexivity.
Qed.

Lemma dropLeadingDashes_safe s : allSafe s = true -> allSafe (dropLeadingDashes s) = true.
Proof.
  induction s as [|c s IH]; intros H; [reflexivity|].
  cbn [dropLeadingDashes]. destruct (isDash c); [|exact H].
  rewrite allSafe_cons in H. apply andb_prop in H. apply IH, H.
Qed.

Lemma dropTrailingDashes_safe s : allSafe s = true -> allSafe (dropTrailingDashes s) = true.
Proof.
  induction s as [|c s IH]; intros H; [reflexivity|].
  rewrite allSafe_cons in H. apply andb_prop in H. destruct H as [Hc Hs].
  specialize (IH Hs). cbn [dropTrailingDashes].
  destruct (dropTrailingDashes s) as [|d t].
  - destruct (isDash c); [reflexivity|]. rewrite allSafe_cons, Hc. reflexivity.
  - rewrite allSafe_cons, Hc. exact IH.
Qed.

Lemma dropLeadingDashes_head s c t : dropLeadingDashes s = String c t -> isDash c = false.
Proof.
  induction s as [|d s IH]; cbn [dropLeadingDashes]; [discriminate|].
  destruct (isDash d) eqn:Ed; [exact IH|]. intros H. injection H as -> _. exact Ed.
Qed.

Lemma dropTrailingDashes_head s c t :
  dropTrailingDashes s = String c t -> exists s', s = String c s'.
Proof.
  destruct s as [|d s]; cbn [dropTrailingDashes]; [discriminate|].
  destruct (dropTrailingDashes s); [destruct (isDash d)|]; intros H; try discriminate;
    injection H as -> _; eexists; reflexivity.
Qed.

Lemma dropTrailingDashes_last s : forall t, dropTrailingDashes s <> (t ++ "-")%string.
Proof.
  induction s as [|c s IH]; intros t; cbn [dropTrailingDashes].
  - destruct t; discriminate.
  - destruct (dropTrailingDashes s) as [|d u] eqn:E.
    + destruct (isDash c) eqn:Ec; [destruct t; discriminate|].
      destruct t as [|a [|b t]]; cbn; intros H; try discriminate.
      injection H as ->. discriminate Ec.
    + destruct t as [|a t]; cbn; [intros H; discriminate H|].
      intros H. injection H as _ H. exact (IH t H).
Qed.

Lemma sanitize_cases toLowerCase raw :
  sanitizeFilePart toLowerCase raw = "tour"%string \/
  (sanitizeFilePart toLowerCase raw
     = dropTrailingDashes (dropLeadingDashes (replaceRuns false (toLowerCase raw))) /\
   sanitizeFilePart toLowerCase raw <> EmptyString).
Proof.
  unfold sanitizeFilePart.
  destruct (dropTrailingDashes _) as [|c t]; [left; reflexivity|right].
  split; [reflexivity|discriminate].
Qed.

Lemma sanitize_safe toLowerCase raw : allSafe (sanitizeFilePart toLowerCase raw) = true.
Proof.
  destruct (sanitize_cases toLowerCase raw) as [->|[-> _]]; [reflexivity|].
  apply dropTrailingDashes_safe, dropLeadingDashes_safe, replaceRuns_safe.
Qed.

(** X8: whatever the tour name and whatever the host's lower-casing does,
    the sanitized file-name part is never empty, consists only of the
    characters a-z, 0-9 and the dash, and neither begins nor ends with a
    dash. *)
Theorem sanitized_name_is_safe (toLowerCase : string -> string) (raw : string) :
  sanitizeFilePart toLowerCase raw <> EmptyString /\
  allSafe (sanitizeFilePart toLowerCase raw) = true /\
  (forall t, sanitizeFilePart toLowerCase raw <> String "-"%char t) /\
  (forall t, sanitizeFilePart toLowerCase raw <> (t ++ "-")%string).
Proof.
  split; [|split; [apply sanitize_safe|]];
    destruct (sanitize_cases toLowerCase raw) as [->|[E Hne]]; try discriminate.
  - exact Hne.
  - split; intros t.
    + discriminate.
    + destruct t as [|a [|b [|c [|d [|e t]]]]]; discriminate.
  - rewrite E. split; intros t H.
    + destruct (dropTrailingDashes_head _ _ _ H) as [s' Hs'].
      apply dropLeadingDashes_head in Hs'. discriminate Hs'.
    + exact (dropTrailingDashes_last _ _ H).
Qed.

Lemma noQuote_cons c s :
  noQuote (String c s) = negb (Ascii.eqb c Page.dquote) && noQuote s.
Proof. reflexivity. Qed.

Lemma noQuote_app a b : noQuote (a ++ b) = noQuote a && noQuote b.
Proof.
  induction a as [|c a IH]; [reflexivity|].
  change (String c a ++ b)%string with (String c (a ++ b)).
  rewrite !noQuote_cons, IH, andb_assoc. reflexivity.
Qed.

Lemma allSafe_noQuote s : allSafe s = true -> noQuote s = true.
Proof.
  induction s as [|c s IH]; [reflexivity|].
  rewrite allSafe_cons, noQuote_cons. intros H. apply andb_prop in H. destruct H as [Hc Hs].
  rewrite (IH Hs), andb_true_r.
  destruct (Ascii.eqb_spec c Page.dquote) as [->|]; [discriminate Hc|reflexivity].
Qed.

Lemma takeUnquoted_app f rest : noQuote f = true ->
  Page.takeUnquoted (f ++ String Page.dquote rest) = (f, String Page.dquote rest).
Proof.
  induction f as [|c f IH]; intros H.
  - change (EmptyString ++ String Page.dquote rest)%string with (String Page.dquote rest).
    cbn [Page.takeUnquoted]. rewrite Ascii.eqb_refl. reflexivity.
  - rewrite noQuote_cons in H. apply andb_prop in H. destruct H as [Hc Hf].
    change (String c f ++ String Page.dquote rest)%string
      with (String c (f ++ String Page.dquote rest)).
    cbn [Page.takeUnquoted]. apply negb_true_iff in Hc. rewrite Hc, (IH Hf). reflexivity.
Qed.

Lemma matchFilename_skip c s :
  Page.matchHere (String c s) = None -> Page.matchFilename (String c s) = Page.matchFilename s.
Proof. intros H. cbn [Page.matchFilename]. rewrite H. reflexivity. Qed.

Lemma matchFilename_here s name :
  Page.matchHere s = Some name -> Page.matchFilename s = Some name.
Proof. intros H. destruct s; cbn [Page.matchFilename]; rewrite H; reflexivity. Qed.

Lemma append_cons c a b : (String c a ++ b)%string = String c (a ++ b).
Proof. reflexivity. Qed.

Lemma append_nil b : (EmptyString ++ b)%string = b.
Proof. reflexivity. Qed.

Lemma matchLiteral_filename rest :
  Page.matchLiteral "filename=" ("filename=" ++ rest) = Some rest.
Proof.
  rewrite !append_cons, append_nil. cbn [Page.matchLiteral].
  rewrite !Ascii.eqb_refl. reflexivity.
Qed.

(** The header written by the export is read back by the page. *)
Lemma header_round_trip f : f <> EmptyString -> noQuote f = true ->
  Page.filenameFromContentDisposition (Some (contentDisposition f)) = Some f.
Proof.
  intros Hne Hq. unfold Page.filenameFromContentDisposition, contentDisposition.
  rewrite !append_cons, append_nil. cbn [truthy_string].
  do 12 (rewrite matchFilename_skip by reflexivity).
  apply matchFilename_here.
  change (Page.matchHere ("filename=" ++ String Page.dquote (f ++ String Page.dquote EmptyString))
          = Some f).
  unfold Page.matchHere. rewrite matchLiteral_filename, Ascii.eqb_refl.
  rewrite (takeUnquoted_app f EmptyString Hq).
  destruct f as [|c f]; [contradiction|reflexivity].
Qed.

(** X9: the name under which the page saves the download is the file name
    the export route put into its header: the sanitized tour name, the word
    finances, the date and the extension, provided the date part holds no
    double quote (it is made of digits and dashes). *)
Theorem download_uses_export_filename (toLowerCase : string -> string)
    (tourName todayIso clientToday : string) :
  noQuote todayIso = true ->
  Page.downloadFileName
    (Some (contentDisposition (exportFilename toLowerCase tourName todayIso))) clientToday
  = exportFilename toLowerCase tourName todayIso.
Proof.
  intros Hq. unfold Page.downloadFileName.
  rewrite header_round_trip; [reflexivity| |].
  - unfold exportFilename.
    destruct (sanitizeFilePart toLowerCase tourName); discriminate.
  - unfold exportFilename. rewrite !noQuote_app, Hq.
    rewrite (allSafe_noQuote _ (sanitize_safe toLowerCase tourName)). reflexivity.
Qed.

Lemma download_uses_export_filename_witness :
  noQuote "2026-11-02" = true /\
  Page.downloadFileName
    (Some (contentDisposition (exportFilename asciiLower "Big Tour!" "2026-11-02")))
    "2026-11-03"
  = "big-tour-finances-2026-11-02.xlsx"%string.
Proof.
  split; [reflexivity|].
  rewrite (download_uses_export_filename asciiLower "Big Tour!" "2026-11-02" "2026-11-03");
    reflexivity.
Defined.

Lemma takeUnquoted_noQuote s : noQuote (fst (Page.takeUnquoted s)) = true.
Proof.
  induction s as [|c s IH]; [reflexivity|]. cbn [Page.takeUnquoted].
  destruct (Ascii.eqb c Page.dquote) eqn:E; [reflexivity|].
  destruct (Page.takeUnquoted s) as [name rest]. cbn [fst] in *.
  rewrite noQuote_cons, E, IH. reflexivity.
Qed.

Lemma matchHere_result s name :
  Page.matchHere s = Some name -> name <> EmptyString /\ noQuote name = true.
Proof.
  unfold Page.matchHere. destruct (Page.matchLiteral "filename=" s) as [[|q s']|]; try discriminate.
  destruct (Ascii.eqb q Page.dquote); [|discriminate].
  pose proof (takeUnquoted_noQuote s') as Hq.
  destruct (Page.takeUnquoted s') as [[|c n] [|d r]]; try discriminate.
  intros H. injection H as <-. split; [discriminate|exact Hq].
Qed.

(** X10: whatever the header holds, a file name read from it is never empty
    and never contains a double quote; a missing or empty header gives no
    name. *)
Theorem parsed_filename_is_clean (value : option string) :
  (forall name, Page.filenameFromContentDisposition value = Some name ->
     name <> EmptyString /\ noQuote name = true) /\
  (truthy_string value = None -> Page.filenameFromContentDisposition value = None).
Proof.
  unfold Page.filenameFromContentDisposition. split.
  - destruct (truthy_string value) as [v|]; [|discriminate]. clear value.
    induction v as [|c v IH]; intros name; cbn [Page.matchFilename].
    + destruct (Page.matchHere EmptyString) eqn:E; [|discriminate].
      intros H. injection H as <-. exact (matchHere_result _ _ E).
    + destruct (Page.matchHere (String c v)) eqn:E.
      * intros H. injection H as <-. exact (matchHere_result _ _ E).
      * apply IH.
  - intros ->. reflexivity.
Qed.

Lemma parsed_filename_is_clean_witness :
  Page.filenameFromContentDisposition (Some (contentDisposition "a.xlsx")) = Some "a.xlsx"%string /\
  "a.xlsx"%string <> EmptyString /\ noQuote "a.xlsx" = true.
Proof.
  assert (H : Page.filenameFromContentDisposition (Some (contentDisposition "a.xlsx"))
              = Some "a.xlsx"%string) by reflexivity.
  split; [exact H|].
  exact (proj1 (parsed_filename_is_clean (Some (contentDisposition "a.xlsx"))) "a.xlsx"%string H).
Defined.

End FileName.

Section Categories.

Import FinanceExport.

Variable toLowerCase : string -> string.

#[local] Ltac hide_abs :=
  repeat match goal with
         | |- context [Z.abs ?z] =>
             generalize (Z.abs_nonneg z); generalize (Z.abs z); intros ? ?
         end.

Lemma magnitude_bounds t :
  (Z.abs (F2Z (guaranteeCents t)) <= magnitude t /\
   Z.abs (F2Z (buyoutCents t)) <= magnitude t /\
   Z.abs (F2Z (merchCents t)) <= magnitude t /\
   Z.abs (F2Z (otherIncomeCents t)) <= magnitude t /\
   Z.abs (F2Z (gasCents t)) <= magnitude t /\
   Z.abs (F2Z (foodCents t)) <= magnitude t /\
   Z.abs (F2Z (lodgingCents t)) <= magnitude t /\
   Z.abs (F2Z (repairsCents t)) <= magnitude t /\
   Z.abs (F2Z (otherExpenseCents t)) <= magnitude t)%Z.
Proof. unfold magnitude. hide_abs. lia. Qed.

Lemma bucket_add x a (s : Z) : integral x -> integral a ->
  (Z.abs (F2Z x) <= s)%Z -> (s + Z.abs (F2Z a) < 2 ^ 53)%Z ->
  integral (x + a)%float /\ F2Z (x + a)%float = (F2Z x + F2Z a)%Z /\
  (Z.abs (F2Z (x + a)%float) <= Z.abs (F2Z x) + Z.abs (F2Z a))%Z.
Proof.
  intros Hx Ha Hs Hb.
  destruct (integral_add x a Hx Ha ltac:(lia) ltac:(lia) ltac:(lia)) as [Hi HZ].
  split; [exact Hi|]. split; [exact HZ|]. rewrite HZ. apply Z.abs_triangle.
Qed.

#[local] Ltac bucket_case t e Ht Ha Hb f :=
  let Hf := fresh "Hf" in
  let Hs := fresh "Hs" in
  let Hi := fresh "Hi" in
  let HZ := fresh "HZ" in
  let Htri := fresh "Htri" in
  assert (Hf : integral (f t)) by (unfold integralTotals in Ht; tauto);
  assert (Hs : (Z.abs (F2Z (f t)) <= magnitude t)%Z) by (pose proof (magnitude_bounds t); tauto);
  destruct (bucket_add (f t) (amount_cents e) (magnitude t) Hf Ha Hs Hb) as (Hi & HZ & Htri);
  clear Hb Hs;
  split; [unfold integralTotals in *;
          cbn [guaranteeCents buyoutCents merchCents otherIncomeCents gasCents foodCents
               lodgingCents repairsCents otherExpenseCents]; tauto|];
  unfold incomeBuckets, expenseBuckets, magnitude;
  cbn [guaranteeCents buyoutCents merchCents otherIncomeCents gasCents foodCents
       lodgingCents repairsCents otherExpenseCents];
  split; [rewrite ?HZ; ring|]; split; [rewrite ?HZ; ring|];
  revert Htri; clear; hide_abs; lia.

Lemma addToDailyTotals_exact t e :
  integralTotals t -> integral (amount_cents e) ->
  (magnitude t + Z.abs (amountOf e) < 2 ^ 53)%Z ->
  integralTotals (addToDailyTotals toLowerCase t e) /\
  incomeBuckets (addToDailyTotals toLowerCase t e) = (incomeBuckets t + incomeOf e)%Z /\
  expenseBuckets (addToDailyTotals toLowerCase t e) = (expenseBuckets t + expenseOf e)%Z /\
  (magnitude (addToDailyTotals toLowerCase t e) <= magnitude t + Z.abs (amountOf e))%Z.
Proof.
  intros Ht Ha Hb. unfold amountOf in Hb.
  unfold addToDailyTotals, incomeOf, expenseOf, amountOf.
  destruct (entry_type e).
  - destruct (String.eqb (toLowerCase (category e)) "guarantee");
      [bucket_case t e Ht Ha Hb guaranteeCents|].
    destruct (String.eqb (toLowerCase (category e)) "buyout");
      [bucket_case t e Ht Ha Hb buyoutCents|].
    destruct (String.eqb (toLowerCase (category e)) "merch_sales");
      [bucket_case t e Ht Ha Hb merchCents|bucket_case t e Ht Ha Hb otherIncomeCents].
  - destruct (String.eqb (toLowerCase (category e)) "gas");
      [bucket_case t e Ht Ha Hb gasCents|].
    destruct (String.eqb (toLowerCase (category e)) "food");
      [bucket_case t e Ht Ha Hb foodCents|].
    destruct (String.eqb (toLowerCase (category e)) "lodging");
      [bucket_case t e Ht Ha Hb lodgingCents|].
    destruct (String.eqb (toLowerCase (category e)) "repairs");
      [bucket_case t e Ht Ha Hb repairsCents|bucket_case t e Ht Ha Hb otherExpenseCents].
Qed.

Lemma category_loop_exact (entries : list LedgerRow) : forall t,
  Forall (fun r => integral (amount_cents r)) entries ->
  integralTotals t ->
  (magnitude t + sumZ (Z.abs ∘ amountOf <$> entries) < 2 ^ 53)%Z ->
  integralTotals (foldl (addToDailyTotals toLowerCase) t entries) /\
  incomeBuckets (foldl (addToDailyTotals toLowerCase) t entries)
    = (incomeBuckets t + sumZ (incomeOf <$> entries))%Z /\
  expenseBuckets (foldl (addToDailyTotals toLowerCase) t entries)
    = (expenseBuckets t + sumZ (expenseOf <$> entries))%Z.
Proof.
  induction entries as [|e entries IH]; intros t Hall Ht Hb.
  - cbn. split; [exact Ht|]. split; lia.
  - apply Forall_cons in Hall. destruct Hall as [He Hall].
    rewrite fmap_cons, sumZ_cons in Hb. unfold compose at 1 in Hb.
    pose proof (sumZ_abs_nonneg entries) as Hs.
    destruct (addToDailyTotals_exact t e Ht He ltac:(lia)) as (Ht' & Hi & Hx & Hm).
    destruct (IH _ Hall Ht' ltac:(lia)) as (H1 & H2 & H3).
    cbn [foldl]. rewrite !fmap_cons, !sumZ_cons.
    split; [exact H1|]. split; [rewrite H2, Hi|rewrite H3, Hx]; lia.
Qed.

Lemma emptyDailyTotals_integral :
  integralTotals emptyDailyTotals /\ magnitude emptyDailyTotals = 0%Z /\
  incomeBuckets emptyDailyTotals = 0%Z /\ expenseBuckets emptyDailyTotals = 0%Z.
Proof.
  destruct integral_zero as [H0 _].
  split; [|split; [|split]]; try (vm_compute; reflexivity).
  unfold integralTotals, emptyDailyTotals.
  cbn [guaranteeCents buyoutCents merchCents otherIncomeCents gasCents foodCents
       lodgingCents repairsCents otherExpenseCents].
  tauto.
Qed.

(** X11: when every ledger amount is a whole number of minor units and the
    absolute amounts add up to less than [2^53], the category columns of the
    tour's total row are consistent with its totals, whatever the categories
    are: guarantee + buyout + merch + other income is the total income and
    gas + food + lodging + repairs + other expenses is the total of the
    expenses. *)
Theorem category_totals_add_up (entries : list LedgerRow) :
  Forall (fun r => integral (amount_cents r)) entries ->
  (sumZ (Z.abs ∘ amountOf <$> entries) < 2 ^ 53)%Z ->
  integralTotals (totalCategoryCents toLowerCase entries) /\
  incomeBuckets (totalCategoryCents toLowerCase entries) = F2Z (fst (ledgerTotals entries)) /\
  expenseBuckets (totalCategoryCents toLowerCase entries) = F2Z (snd (ledgerTotals entries)).
Proof.
  intros Hall Hb.
  destruct emptyDailyTotals_integral as (Ht & Hm & Hi & Hx).
  destruct (category_loop_exact entries emptyDailyTotals Hall Ht ltac:(rewrite Hm; lia))
    as (H1 & H2 & H3).
  destruct integral_zero as [H0 HZ0].
  destruct (ledger_loop_exact entries 0%float 0%float Hall H0 H0
              ltac:(rewrite HZ0; simpl; lia)) as (_ & _ & H4 & H5).
  unfold totalCategoryCents, ledgerTotals.
  split; [exact H1|]. rewrite H2, H3, Hi, Hx, H4, H5, HZ0. split; reflexivity.
Qed.

End Categories.

Lemma category_totals_add_up_witness :
  Forall (fun r => integral (amount_cents r)) sample_ledger /\
  (sumZ (Z.abs ∘ amountOf <$> sample_ledger) < 2 ^ 53)%Z /\
  incomeBuckets (FinanceExport.totalCategoryCents asciiLower sample_ledger)
    = F2Z (fst (FinanceExport.ledgerTotals sample_ledger)) /\
  expenseBuckets (FinanceExport.totalCategoryCents asciiLower sample_ledger)
    = F2Z (snd (FinanceExport.ledgerTotals sample_ledger)).
Proof.
  assert (H2 : (sumZ (Z.abs ∘ amountOf <$> sample_ledger) < 2 ^ 53)%Z)
    by (vm_compute; reflexivity).
  split; [exact sample_ledger_integral|]. split; [exact H2|].
  apply (category_totals_add_up asciiLower sample_ledger sample_ledger_integral H2).
Defined.

Section ColumnWidth.

#[local] Open Scope Z_scope.

Lemma columnWidth_loop (lengths : list Z) : forall w0,
  let w := foldl (fun maxLength len => Z.max maxLength (Z.min 60 (len + 2))) w0 lengths in
  w0 <= w /\ (w0 <= 60 -> w <= 60) /\
  Forall (fun len => Z.min 60 (len + 2) <= w) lengths /\
  (w = w0 \/ exists len, len ∈ lengths /\ w = Z.min 60 (len + 2)).
Proof.
  induction lengths as [|len lengths IH]; intros w0; cbv zeta.
  - cbn. split; [lia|]. split; [lia|]. split; [constructor|left; reflexivity].
  - cbn [foldl].
    destruct (IH (Z.max w0 (Z.min 60 (len + 2)))) as (H1 & H2 & H3 & H4). cbv zeta in *.
    split; [lia|]. split; [lia|]. split.
    + constructor; [lia|exact H3].
    + destruct H4 as [H4|(l & Hl & H4)].
      * destruct (Z.max_spec w0 (Z.min 60 (len + 2))) as [[_ E]|[_ E]].
        -- right. exists len. split; [left|]. lia.
        -- left. lia.
      * right. exists l. split; [right; exact Hl|exact H4].
Qed.

(** X12: the width given to a column is at least 10 and at most 60, it is
    wide enough for every cell (its length plus 2, capped at 60), and it is
    either 10 or exactly what one of the cells asks for. *)
Theorem column_width_bounds (lengths : list Z) :
  10 <= FinanceExport.columnWidth lengths <= 60 /\
  Forall (fun len => Z.min 60 (len + 2) <= FinanceExport.columnWidth lengths) lengths /\
  (FinanceExport.columnWidth lengths = 10 \/
   exists len, len ∈ lengths /\ FinanceExport.columnWidth lengths = Z.min 60 (len + 2)).
Proof.
  unfold FinanceExport.columnWidth.
  destruct (columnWidth_loop lengths 10) as (H1 & H2 & H3 & H4). cbv zeta in *.
  split; [lia|]. split; [exact H3|exact H4].
Qed.

End ColumnWidth.

Section Editing.

Lemma setCutPercent_twice id a b rows :
  Page.setCutPercent id a (Page.setCutPercent id b rows) = Page.setCutPercent id a rows.
Proof.
  unfold Page.setCutPercent. rewrite <- list_fmap_compose. apply list_fmap_ext.
  intros i r _. cbn.
  destruct (String.eqb (Page.bandMemberId r) id) eqn:E; cbn; rewrite E; reflexivity.
Qed.

Lemma setCutPercent_swap id1 id2 a b rows : id1 <> id2 ->
  Page.setCutPercent id1 a (Page.setCutPercent id2 b rows)
  = Page.setCutPercent id2 b (Page.setCutPercent id1 a rows).
Proof.
  intros Hne. unfold Page.setCutPercent. rewrite <- !list_fmap_compose. apply list_fmap_ext.
  intros i r _. cbn.
  destruct (String.eqb (Page.bandMemberId r) id1) eqn:E1,
           (String.eqb (Page.bandMemberId r) id2) eqn:E2; cbn; rewrite ?E1, ?E2; try reflexivity.
  apply String.eqb_eq in E1, E2. congruence.
Qed.

(** X13: an edit of the cut field is an assignment to the rows of that
    member: every row of the member gets the typed number as its
    percentage, or 0 when the field does not hold a finite number, and keeps
    its other fields; every other row is unchanged.  Hence a second edit of
    the same member overrides the first, edits of different members can be
    made in either order, and an edit never changes which members are
    listed nor their order. *)
Theorem cut_edits_are_assignments id1 id2 a b rows :
  (forall i r, rows !! i = Some r -> Page.bandMemberId r = id1 ->
     exists r', Page.setCutPercent id1 a rows !! i = Some r' /\
       Page.cutPercent r' = (if Number_isFinite a then a else 0%float) /\
       Page.cutId r' = Page.cutId r /\ Page.bandMemberId r' = Page.bandMemberId r /\
       Page.userId r' = Page.userId r /\ Page.memberName r' = Page.memberName r /\
       Page.email r' = Page.email r /\ Page.role r' = Page.role r) /\
  (forall i r, rows !! i = Some r -> Page.bandMemberId r <> id1 ->
     Page.setCutPercent id1 a rows !! i = Some r) /\
  length (Page.setCutPercent id1 a rows) = length rows /\
  Page.setCutPercent id1 a (Page.setCutPercent id1 b rows) = Page.setCutPercent id1 a rows /\
  (id1 <> id2 ->
   Page.setCutPercent id1 a (Page.setCutPercent id2 b rows)
   = Page.setCutPercent id2 b (Page.setCutPercent id1 a rows)) /\
  Page.bandMemberId <$> Page.setCutPercent id1 a rows = Page.bandMemberId <$> rows.
Proof.
  split; [|split; [|split; [|split; [apply setCutPercent_twice|split;
                                     [apply setCutPercent_swap|]]]]].
  - intros i r Hr Hid. unfold Page.setCutPercent. rewrite list_lookup_fmap, Hr.
    cbn [fmap option_fmap option_map]. apply String.eqb_eq in Hid. rewrite Hid.
    eexists. split; [reflexivity|]. cbn. repeat split; reflexivity.
  - intros i r Hr Hid. unfold Page.setCutPercent. rewrite list_lookup_fmap, Hr.
    cbn [fmap option_fmap option_map]. apply String.eqb_neq in Hid. rewrite Hid. reflexivity.
  - unfold Page.setCutPercent. apply length_fmap.
  - unfold Page.setCutPercent. rewrite <- list_fmap_compose. apply list_fmap_ext.
    intros i r _. cbn. destruct (String.eqb (Page.bandMemberId r) id1); reflexivity.
Qed.

Lemma cut_edits_are_assignments_witness :
  Page.cutPercent <$> Page.setCutPercent "b" 12.5 [rowOf "a" 60; rowOf "b" 40]
    = [60; 12.5]%float /\
  Page.cutPercent <$> Page.setCutPercent "b" nan [rowOf "a" 60; rowOf "b" 40]
    = [60; 0]%float.
Proof.
  split.
  - destruct (cut_edits_are_assignments "b" "a" 12.5 0 [rowOf "a" 60; rowOf "b" 40])
      as (H1 & H2 & _).
    destruct (H1 1%nat (rowOf "b" 40) eq_refl eq_refl) as (r' & Hr' & Hp & _).
    pose proof (H2 0%nat (rowOf "a" 60) eq_refl ltac:(discriminate)) as H0.
    apply list_eq. intros [|[|i]]; rewrite list_lookup_fmap.
    + rewrite H0. reflexivity.
    + rewrite Hr'. cbn. rewrite Hp. reflexivity.
    + reflexivity.
  - destruct (cut_edits_are_assignments "b" "a" nan 0 [rowOf "a" 60; rowOf "b" 40])
      as (H1 & H2 & _).
    destruct (H1 1%nat (rowOf "b" 40) eq_refl eq_refl) as (r' & Hr' & Hp & _).
    pose proof (H2 0%nat (rowOf "a" 60) eq_refl ltac:(discriminate)) as H0.
    apply list_eq. intros [|[|i]]; rewrite list_lookup_fmap.
    + rewrite H0. reflexivity.
    + rewrite Hr'. cbn. rewrite Hp. reflexivity.
    + reflexivity.
Defined.

Lemma idByMember_snoc saved c :
  Page.idByMember (saved ++ [c]) =
    match truthy_string (band_member_id c) with
    | Some id => objectSet id (cut_id c) (Page.idByMember saved)
    | None => Page.idByMember saved
    end.
Proof. unfold Page.idByMember. rewrite foldl_app. reflexivity. Qed.

Lemma idByMember_elem saved id i :
  Page.idByMember saved !! id = Some i ->
  exists c, c ∈ saved /\ band_member_id c = Some id /\ cut_id c = i.
Proof.
  induction saved as [|x saved IH] using rev_ind.
  - unfold Page.idByMember. cbn. rewrite lookup_empty. discriminate.
  - rewrite idByMember_snoc. intros H.
    assert (Hold : Page.idByMember saved !! id = Some i ->
                   exists c, c ∈ saved ++ [x] /\ band_member_id c = Some id /\ cut_id c = i).
    { intros H'. destruct (IH H') as (c & Hc & Hrest). exists c. split; [|exact Hrest].
      apply elem_of_app. left. exact Hc. }
    destruct (truthy_string (band_member_id x)) as [j|] eqn:Hx; [|exact (Hold H)].
    unfold objectSet in H. destruct (String.eqb j "__proto__"); [exact (Hold H)|].
    destruct (decide (j = id)) as [->|Hne].
    + rewrite lookup_insert_eq in H. injection H as <-.
      apply truthy_string_Some in Hx. destruct Hx as [Hx _].
      exists x. split; [|split; [exact Hx|reflexivity]].
      apply elem_of_app. right. apply list_elem_of_singleton. reflexivity.
    + rewrite lookup_insert_ne in H by exact Hne. exact (Hold H).
Qed.

Lemma idByMember_is_Some saved id c :
  c ∈ saved -> band_member_id c = Some id -> id <> EmptyString -> id <> "__proto__"%string ->
  is_Some (Page.idByMember saved !! id).
Proof.
  induction saved as [|x saved IH] using rev_ind; intros Hin Hid Hne Hnp.
  - apply elem_of_nil in Hin. contradiction.
  - rewrite idByMember_snoc.
    assert (Ht : truthy_string (band_member_id c) = Some id) by (apply truthy_string_Some; auto).
    assert (Hold : truthy_string (band_member_id x) <> Some id ->
                   is_Some (Page.idByMember saved !! id)).
    { intros Hx. apply IH; auto.
      apply elem_of_app in Hin. destruct Hin as [|Hin]; [assumption|].
      apply list_elem_of_singleton in Hin. subst x. contradiction. }
    destruct (truthy_string (band_member_id x)) as [j|] eqn:Hx; [|apply Hold; discriminate].
    unfold objectSet. destruct (String.eqb j "__proto__") eqn:E.
    + apply Hold. apply String.eqb_eq in E. congruence.
    + destruct (decide (j = id)) as [->|Hd].
      * rewrite lookup_insert_eq. eauto.
      * rewrite lookup_insert_ne by exact Hd. apply Hold. congruence.
Qed.

(** The rows after a save, when every row finds a record id. *)
Lemma saved_rows ids (rows : list Page.SettlementMemberRow) :
  Forall (fun r => exists i, objectGet ids (Page.bandMemberId r) = Own i) rows ->
  exists rows',
    mapM (fun r =>
            (fun i => {| Page.cutId := i;
                         Page.bandMemberId := Page.bandMemberId r;
                         Page.userId := Page.userId r;
                         Page.memberName := Page.memberName r; Page.email := Page.email r;
                         Page.role := Page.role r; Page.cutPercent := Page.cutPercent r |})
              <$> Page.cutIdAfter ids r) rows = Some rows' /\
    Forall2 (fun r r' => objectGet ids (Page.bandMemberId r) = Own (Page.cutId r' ?? ""%string) /\
                         is_Some (Page.cutId r') /\
                         Page.bandMemberId r' = Page.bandMemberId r /\
                         Page.cutPercent r' = Page.cutPercent r) rows rows'.
Proof.
  induction 1 as [|r rows [i Hi] _ (rows' & Hm & Hall)].
  - exists []. split; [reflexivity|constructor].
  - eexists (_ :: rows'). split.
    + assert (Hc : Page.cutIdAfter ids r = Some (Some i)).
      { unfold Page.cutIdAfter. rewrite Hi. reflexivity. }
      cbn [mapM]. rewrite Hc, Hm. reflexivity.
    + constructor; [|exact Hall]. cbn. split; [exact Hi|]. split; [eauto|]. split; reflexivity.
Qed.

(** X14: when the store answers a save with a record for every listed
    member (the members have non-empty ids other than [__proto__]), every
    row ends up with the id of one of the returned records of that member,
    while the members, their order and their percentages stay as they
    were, the saving flag is cleared and the success message is shown. *)
Theorem saved_rows_get_ids (st : Page.PageState) (saved : list CutRow) :
  Forall (fun r => Page.bandMemberId r <> EmptyString /\
                   Page.bandMemberId r <> "__proto__"%string /\
                   exists c, c ∈ saved /\ band_member_id c = Some (Page.bandMemberId r))
         (Page.rows st) ->
  exists st', Page.saveCutsDone st (Page.UpsertSaved saved) = Some st' /\
    Forall (fun r => exists c, c ∈ saved /\ band_member_id c = Some (Page.bandMemberId r) /\
                               Page.cutId r = Some (cut_id c)) (Page.rows st') /\
    Page.bandMemberId <$> Page.rows st' = Page.bandMemberId <$> Page.rows st /\
    Page.cutPercent <$> Page.rows st' = Page.cutPercent <$> Page.rows st /\
    Page.saving st' = false /\ Page.status st' = Some "Cuts saved."%string.
Proof.
  intros Hall.
  destruct (saved_rows (Page.idByMember saved) (Page.rows st)) as (rows' & Hm & H2).
  { eapply Forall_impl; [exact Hall|]. intros r (Hne & Hnp & c & Hc & Hid). cbn beta.
    destruct (idByMember_is_Some saved _ c Hc Hid Hne Hnp) as [i Hi].
    exists i. unfold objectGet. apply String.eqb_neq in Hnp. rewrite Hnp, Hi. reflexivity. }
  unfold Page.saveCutsDone. rewrite Hm. eexists. split; [reflexivity|].
  cbn [Page.rows Page.with_status Page.with_saving Page.with_rows Page.saving Page.status].
  split; [|split; [|split; [|split; reflexivity]]].
  - clear Hm. induction H2 as [|r r' rows rows' (Hg & [i Hi] & Hb & _) _ IH].
    + constructor.
    + apply Forall_cons in Hall. destruct Hall as [(_ & Hnp & _) Hall].
      constructor; [|exact (IH Hall)].
      rewrite Hi in Hg. cbn in Hg. unfold objectGet in Hg.
      apply String.eqb_neq in Hnp. rewrite Hnp in Hg.
      destruct (Page.idByMember saved !! Page.bandMemberId r) as [i'|] eqn:Hl;
        [|destruct (inheritedKey (Page.bandMemberId r)); discriminate Hg].
      injection Hg as ->.
      destruct (idByMember_elem saved _ i Hl) as (c & Hc & Hid & Hcut).
      exists c. split; [exact Hc|]. split; [congruence|]. rewrite Hi, Hcut. reflexivity.
  - clear Hm Hall. induction H2 as [|r r' rows rows' (_ & _ & Hb & _) _ IH]; [reflexivity|].
    rewrite !fmap_cons, Hb, IH. reflexivity.
  - clear Hm Hall. induction H2 as [|r r' rows rows' (_ & _ & _ & Hp) _ IH]; [reflexivity|].
    rewrite !fmap_cons, Hp, IH. reflexivity.
Qed.

Lemma saved_rows_get_ids_witness :
  exists st',
    Page.saveCutsDone (sample_state [rowOf "b" 40]) (Page.UpsertSaved [sample_cut_old])
      = Some st' /\
    Forall (fun r => exists c, c ∈ [sample_cut_old] /\
                               band_member_id c = Some (Page.bandMemberId r) /\
                               Page.cutId r = Some (cut_id c)) (Page.rows st').
Proof.
  destruct (saved_rows_get_ids (sample_state [rowOf "b" 40]) [sample_cut_old])
    as (st' & Hs & Hr & _).
  - constructor; [|constructor]. split; [discriminate|]. split; [discriminate|].
    exists sample_cut_old. split; [apply list_elem_of_singleton|]; reflexivity.
  - exists st'. split; [exact Hs|exact Hr].
Defined.

Lemma entries_app_skip cuts1 cuts2 id :
  Forall (fun c => band_member_id c <> Some id) cuts2 ->
  Page.entries (Page.cutByMemberId (cuts1 ++ cuts2)) !! id
  = Page.entries (Page.cutByMemberId cuts1) !! id.
Proof.
  induction cuts2 as [|x cuts2 IH] using rev_ind; intros Hall.
  - rewrite app_nil_r. reflexivity.
  - apply Forall_app in Hall. destruct Hall as [Hall Hx].
    apply Forall_inv in Hx. cbv beta in Hx.
    rewrite app_assoc, cutByMemberId_snoc.
    destruct (truthy_string (band_member_id x)) as [j|] eqn:Hj; [|exact (IH Hall)].
    apply truthy_string_Some in Hj. destruct Hj as [Hj _].
    unfold Page.setCut. destruct (String.eqb j "__proto__"); cbn [Page.entries];
      [exact (IH Hall)|].
    rewrite lookup_insert_ne by (intros ->; exact (Hx Hj)). exact (IH Hall).
Qed.

Lemma prototype_app_skip cuts1 cuts2 :
  Forall (fun c => band_member_id c <> Some "__proto__"%string) cuts2 ->
  Page.prototype (Page.cutByMemberId (cuts1 ++ cuts2)) = Page.prototype (Page.cutByMemberId cuts1).
Proof.
  induction cuts2 as [|x cuts2 IH] using rev_ind; intros Hall.
  - rewrite app_nil_r. reflexivity.
  - apply Forall_app in Hall. destruct Hall as [Hall Hx].
    apply Forall_inv in Hx. cbv beta in Hx.
    rewrite app_assoc, cutByMemberId_snoc.
    destruct (truthy_string (band_member_id x)) as [j|] eqn:Hj; [|exact (IH Hall)].
    apply truthy_string_Some in Hj. destruct Hj as [Hj _].
    unfold Page.setCut. destruct (String.eqb j "__proto__") eqn:E; cbn [Page.prototype];
      [|exact (IH Hall)].
    apply String.eqb_eq in E. subst j. destruct (Hx Hj).
Qed.

(** The last record of a member is the one the page finds. *)
Lemma getCut_last cuts1 c cuts2 id :
  band_member_id c = Some id -> id <> EmptyString ->
  Forall (fun c' => band_member_id c' <> Some id) cuts2 ->
  Page.getCut (Page.cutByMemberId (cuts1 ++ c :: cuts2)) id = Page.FoundRow c.
Proof.
  intros Hc Hne Hrest.
  assert (Ht : truthy_string (band_member_id c) = Some id).
  { apply truthy_string_Some. split; assumption. }
  change (c :: cuts2) with ([c] ++ cuts2). rewrite app_assoc.
  unfold Page.getCut. destruct (String.eqb id "__proto__") eqn:E.
  - apply String.eqb_eq in E. subst id.
    rewrite (prototype_app_skip _ _ Hrest), cutByMemberId_snoc, Ht. reflexivity.
  - rewrite (entries_app_skip _ _ _ Hrest), cutByMemberId_snoc, Ht.
    unfold Page.setCut. rewrite E. cbn [Page.entries]. rewrite lookup_insert_eq. reflexivity.
Qed.

(** X15: when several cut records name the same member, the last one in the
    list decides: the page shows its percentage (cut_percent, else the
    legacy percent, else 0) and its record id for that member, and the
    export uses the same percentage unless the member id is [__proto__]. *)
Theorem last_cut_record_wins emails D members cuts1 c cuts2 i m :
  members !! i = Some m -> bm_id m <> EmptyString ->
  band_member_id c = Some (bm_id m) ->
  Forall (fun c' => band_member_id c' <> Some (bm_id m)) cuts2 ->
  Page.cutPercent <$> (Page.nextRows emails members (cuts1 ++ c :: cuts2) !! i)
    = Some (resolved c) /\
  Page.cutId <$> (Page.nextRows emails members (cuts1 ++ c :: cuts2) !! i)
    = Some (Some (cut_id c)) /\
  (bm_id m <> "__proto__"%string ->
   FinanceExport.l_cutPercent
     <$> (FinanceExport.payoutLines D members (cuts1 ++ c :: cuts2) !! i)
     = Some (resolved c)).
Proof.
  intros Hm Hne Hc Hrest.
  pose proof (getCut_last cuts1 c cuts2 _ Hc Hne Hrest) as Hlook.
  split; [|split].
  - rewrite (nextRows_cutPercent _ _ _ _ _ Hm), Hlook. reflexivity.
  - rewrite (nextRows_cutId _ _ _ _ _ Hm), Hlook. reflexivity.
  - intros Hnp. rewrite (payoutLines_cutPercent _ _ _ _ _ Hm).
    unfold Page.getCut in Hlook. unfold objectGet.
    apply String.eqb_neq in Hnp. rewrite Hnp in *.
    rewrite export_cutByMemberId, lookup_fmap.
    destruct (Page.entries (Page.cutByMemberId (cuts1 ++ c :: cuts2)) !! bm_id m) as [e|].
    + injection Hlook as ->. reflexivity.
    + destruct (Page.prototype (Page.cutByMemberId (cuts1 ++ c :: cuts2)) ≫= _);
        discriminate Hlook.
Qed.

Lemma last_cut_record_wins_witness :
  Page.cutPercent
    <$> (Page.nextRows ∅ [sample_ann; sample_bob] ([sample_cut_old] ++ sample_cut_new :: [])
           !! 1%nat)
    = Some 25%float /\
  FinanceExport.l_cutPercent
    <$> (FinanceExport.payoutLines 58500 [sample_ann; sample_bob]
           ([sample_cut_old] ++ sample_cut_new :: []) !! 1%nat)
    = Some 25%float.
Proof.
  destruct (last_cut_record_wins ∅ 58500%float [sample_ann; sample_bob] [sample_cut_old]
              sample_cut_new [] 1 sample_bob) as (H1 & _ & H3);
    [reflexivity|discriminate|reflexivity|constructor|].
  split; [exact H1|]. apply H3. discriminate.
Defined.

(** X16: the label shown for a member is the member's name when it is not
    empty, else the email when there is a non-empty one, else the word
    Member, so it is never empty; the label sent to the store is the email
    whenever it is not null, also when it is the empty string, and the
    member's name otherwise. *)
Theorem member_label_is_never_empty (row : Page.SettlementMemberRow) (tour : string) :
  Page.memberLabel row <> EmptyString /\
  (Page.memberName row <> EmptyString -> Page.memberLabel row = Page.memberName row) /\
  (Page.memberName row = EmptyString ->
   forall e, Page.email row = Some e -> e <> EmptyString -> Page.memberLabel row = e) /\
  (Page.memberName row = EmptyString ->
   Page.email row = None \/ Page.email row = Some EmptyString ->
   Page.memberLabel row = "Member"%string) /\
  (forall e, Page.email row = Some e -> Page.p_label (Page.payloadOf tour row) = e) /\
  (Page.email row = None -> Page.p_label (Page.payloadOf tour row) = Page.memberName row).
Proof.
  unfold Page.memberLabel, Page.payloadOf. cbn [Page.p_label].
  destruct (Page.memberName row) as [|a n]; cbn.
  - split; [|split; [intros H; contradiction|split; [|split; [|split]]]].
    + destruct (Page.email row) as [[|b e]|]; cbn; discriminate.
    + intros _ e -> He. destruct e; [contradiction|reflexivity].
    + intros _ [-> | ->]; reflexivity.
    + intros e ->. reflexivity.
    + intros ->. reflexivity.
  - split; [discriminate|]. split; [reflexivity|].
    split; [discriminate|]. split; [discriminate|].
    split; [intros e ->; reflexivity|intros ->; reflexivity].
Qed.

Lemma member_label_is_never_empty_witness :
  Page.memberLabel sample_unnamed = "bob@example.org"%string.
Proof.
  refine (proj1 (proj2 (proj2 (member_label_is_never_empty sample_unnamed "tour-1"%string)))
            eq_refl _ eq_refl _).
  discriminate.
Defined.

End Editing.

Section Comparison.
#[local] Open Scope R_scope.

Lemma valid_normal x s m e : Prim2SF x = S754_finite s m e ->
  (-1074 < e)%Z -> (2 ^ 52 <= Zpos m)%Z.
Proof.
  intros Hx He. pose proof (Prim2SF_valid x) as Hv. rewrite Hx in Hv.
  cbn [SpecFloat.valid_binary] in Hv. unfold bounded, canonical_mantissa in Hv.
  apply andb_prop in Hv. destruct Hv as [Hc _].
  apply Z.eqb_eq in Hc. rewrite fexp_eq in Hc.
  assert (Hd : Zpos (digits2_pos m) = 53%Z) by lia.
  pose proof (digits_ge m) as Hg. rewrite Hd in Hg. exact Hg.
Qed.

(** Two positive doubles are ordered by their exponents first. *)
Lemma magnitude_lt_exp x y s1 m1 e1 s2 m2 e2 :
  Prim2SF x = S754_finite s1 m1 e1 -> Prim2SF y = S754_finite s2 m2 e2 ->
  (e1 < e2)%Z -> IZR (Zpos m1) * p2 e1 < IZR (Zpos m2) * p2 e2.
Proof.
  intros Hx Hy He.
  destruct (valid_mantissa x _ _ _ Hx) as [Hm1 He1].
  pose proof (valid_normal y _ _ _ Hy ltac:(lia)) as Hm2.
  apply IZR_lt in Hm1. apply IZR_le in Hm2.
  change (2 ^ 53)%Z with 9007199254740992%Z in Hm1.
  change (2 ^ 52)%Z with 4503599627370496%Z in Hm2.
  pose proof (p2_pos e1) as Hp1.
  pose proof (p2_le (e1 + 1) e2 ltac:(lia)) as Hle.
  rewrite p2_add in Hle. change (p2 1) with (2 ^ 1)%R in Hle.
  assert (H1 : IZR (Zpos m1) * p2 e1 < 9007199254740992 * p2 e1)
    by (apply Rmult_lt_compat_r; assumption).
  assert (H2 : 4503599627370496 * p2 e2 <= IZR (Zpos m2) * p2 e2).
  { apply Rmult_le_compat_r; [|assumption]. pose proof (p2_pos e2). lra. }
  lra.
Qed.

Lemma magnitude_compare x y s1 m1 e1 s2 m2 e2 :
  Prim2SF x = S754_finite s1 m1 e1 -> Prim2SF y = S754_finite s2 m2 e2 ->
  match (match (e1 ?= e2)%Z with
         | Lt => Lt
         | Gt => Gt
         | Eq => Pos.compare_cont Eq m1 m2
         end) with
  | Lt => IZR (Zpos m1) * p2 e1 < IZR (Zpos m2) * p2 e2
  | Eq => IZR (Zpos m1) * p2 e1 = IZR (Zpos m2) * p2 e2
  | Gt => IZR (Zpos m2) * p2 e2 < IZR (Zpos m1) * p2 e1
  end.
Proof.
  intros Hx Hy. destruct (Z.compare_spec e1 e2) as [->|Hlt|Hgt].
  - change (Pos.compare_cont Eq m1 m2) with (Pos.compare m1 m2).
    pose proof (p2_pos e2) as Hp.
    destruct (Pos.compare_spec m1 m2) as [->|Hm|Hm].
    + reflexivity.
    + apply Rmult_lt_compat_r; [exact Hp|]. apply IZR_lt. lia.
    + apply Rmult_lt_compat_r; [exact Hp|]. apply IZR_lt. lia.
  - exact (magnitude_lt_exp x y _ _ _ _ _ _ Hx Hy Hlt).
  - exact (magnitude_lt_exp y x _ _ _ _ _ _ Hy Hx ltac:(lia)).
Qed.

(** The comparison of two finite doubles is the comparison of their values. *)
Lemma compare_R x y : fin x -> fin y ->
  match SFcompare (Prim2SF x) (Prim2SF y) with
  | Some Lt => FR x < FR y
  | Some Eq => FR x = FR y
  | Some Gt => FR y < FR x
  | None => False
  end.
Proof.
  unfold fin, FR.
  destruct (Prim2SF x) as [s1|s1| |s1 m1 e1] eqn:Hx; try discriminate;
    destruct (Prim2SF y) as [s2|s2| |s2 m2 e2] eqn:Hy; try discriminate; intros _ _.
  - cbn. reflexivity.
  - cbn [SFcompare]. rewrite SFR_finite. cbn [SFR].
    assert (0 < IZR (Zpos m2) * p2 e2).
    { pose proof (p2_pos e2). assert (1 <= IZR (Zpos m2)) by (apply IZR_le; lia). nra. }
    destruct s2; unfold sgn; lra.
  - cbn [SFcompare]. rewrite SFR_finite. cbn [SFR].
    assert (0 < IZR (Zpos m1) * p2 e1).
    { pose proof (p2_pos e1). assert (1 <= IZR (Zpos m1)) by (apply IZR_le; lia). nra. }
    destruct s1; unfold sgn; lra.
  - cbn [SFcompare]. rewrite !SFR_finite.
    assert (H1 : 0 < IZR (Zpos m1) * p2 e1).
    { pose proof (p2_pos e1). assert (1 <= IZR (Zpos m1)) by (apply IZR_le; lia). nra. }
    assert (H2 : 0 < IZR (Zpos m2) * p2 e2).
    { pose proof (p2_pos e2). assert (1 <= IZR (Zpos m2)) by (apply IZR_le; lia). nra. }
    pose proof (magnitude_compare x y _ _ _ _ _ _ Hx Hy) as Hc.
    destruct s1, s2; unfold sgn; try lra.
    + destruct (e1 ?= e2)%Z; [|lra|lra].
      destruct (Pos.compare_cont Eq m1 m2); cbn [CompOpp]; lra.
    + destruct (e1 ?= e2)%Z; [|lra|lra].
      destruct (Pos.compare_cont Eq m1 m2); lra.
Qed.

Lemma leb_R x y : fin x -> fin y -> (x <=? y)%float = true <-> FR x <= FR y.
Proof.
  intros Hx Hy. rewrite FloatAxioms.leb_spec. unfold SFleb.
  pose proof (compare_R x y Hx Hy) as Hc.
  destruct (SFcompare (Prim2SF x) (Prim2SF y)) as [[| |]|]; split; intros H;
    try reflexivity; try discriminate; try lra; try contradiction.
Qed.

Lemma ltb_R x y : fin x -> fin y -> (x <? y)%float = true <-> FR x < FR y.
Proof.
  intros Hx Hy. rewrite FloatAxioms.ltb_spec. unfold SFltb.
  pose proof (compare_R x y Hx Hy) as Hc.
  destruct (SFcompare (Prim2SF x) (Prim2SF y)) as [[| |]|]; split; intros H;
    try reflexivity; try discriminate; try lra; try contradiction.
Qed.

Lemma abs_R x : fin x -> fin (Math_abs x) /\ FR (Math_abs x) = Rabs (FR x).
Proof.
  unfold fin, FR, Math_abs. rewrite FloatAxioms.abs_spec.
  destruct (Prim2SF x) as [s|s| |s m e]; try discriminate; intros _; cbn [SFabs SFfin].
  - split; [reflexivity|]. cbn [SFR]. rewrite Rabs_R0. reflexivity.
  - split; [reflexivity|]. rewrite !SFR_finite.
    assert (0 < IZR (Zpos m) * p2 e).
    { pose proof (p2_pos e). assert (1 <= IZR (Zpos m)) by (apply IZR_le; lia). nra. }
    destruct s; unfold sgn; [rewrite Rabs_Ropp|]; rewrite Rabs_pos_eq; lra.
Qed.

End Comparison.

Section SumTest.
#[local] Open Scope R_scope.

#[local] Abbreviation eps := (/ 4503599627370496) (only parsing).

(** The running sum of two-decimal percentages. *)
Lemma sum_hundredths (ks : list Z) : forall acc v e,
  approx acc v e -> 0 <= v -> 0 <= e ->
  Forall (fun k => (0 <= k)%Z) ks ->
  v + IZR (sumZ ks) / 100 <= 10000 ->
  e + INR (length ks) * / 50000000000 <= 1 ->
  approx (foldl PrimFloat.add acc (hundredths <$> ks))
         (v + IZR (sumZ ks) / 100) (e + INR (length ks) * / 50000000000).
Proof.
  induction ks as [|k ks IH]; intros acc v e A Hv He Hall Hsum Herr.
  - cbn [fmap list_fmap foldl length sumZ foldr INR].
    eapply approx_weaken; [|apply Req_le; ring_simplify; reflexivity].
    replace (v + IZR 0 / 100) with v by (cbn; lra).
    eapply approx_weaken; [exact A|]. lra.
  - apply Forall_cons in Hall. destruct Hall as [Hk Hall].
    rewrite fmap_cons. cbn [foldl]. rewrite sumZ_cons in *. rewrite plus_IZR in *.
    change (length (k :: ks)) with (S (length ks)) in *. rewrite S_INR in *.
    assert (Hs : 0 <= IZR (sumZ ks)).
    { apply IZR_le. clear -Hall. induction Hall as [|a l Ha _ IHl]; [cbn; lia|].
      rewrite sumZ_cons. lia. }
    assert (HkR : 0 <= IZR k) by (apply IZR_le; lia).
    assert (Hn : 0 <= INR (length ks)) by apply pos_INR.
    assert (Hk6 : (Z.abs k <= 1000000)%Z).
    { apply Z.abs_le. split; [lia|]. apply le_IZR. lra. }
    pose proof (approx_hundredths_wide k Hk6) as Ak.
    assert (HB : Rabs (v + IZR k / 100) <= 10000) by (apply Rabs_le; lra).
    pose proof (approx_add _ _ _ _ _ _ 10000 A Ak HB ltac:(lra)) as A1.
    apply approx_weaken with (e' := e + / 50000000000) in A1; [|lra].
    pose proof (IH _ _ _ A1 ltac:(lra) ltac:(lra) Hall ltac:(lra) ltac:(lra)) as A2.
    replace (v + (IZR k + IZR (sumZ ks)) / 100) with (v + IZR k / 100 + IZR (sumZ ks) / 100)
      by (field).
    eapply approx_weaken; [exact A2|]. lra.
Qed.

Lemma sumZ_nonneg_zero (ks : list Z) :
  Forall (fun k => (0 <= k)%Z) ks -> sumZ ks = 0%Z -> Forall (fun k => k = 0%Z) ks.
Proof.
  induction 1 as [|k ks Hk Hall IH]; intros Hs; [constructor|].
  rewrite sumZ_cons in Hs.
  assert (0 <= sumZ ks)%Z.
  { clear -Hall. induction Hall as [|a l Ha _ IHl]; [cbn; lia|]. rewrite sumZ_cons. lia. }
  constructor; [lia|apply IH; lia].
Qed.

Lemma foldl_zero_hundredths (ks : list Z) : Forall (fun k => k = 0%Z) ks ->
  foldl PrimFloat.add 0%float (hundredths <$> ks) = 0%float.
Proof.
  induction 1 as [|k ks -> _ IH]; [reflexivity|].
  rewrite fmap_cons. cbn [foldl]. exact IH.
Qed.

(** The total of two-decimal percentages is the double of their exact sum. *)
Lemma total_of_hundredths (ks : list Z) :
  Forall (fun k => (0 <= k)%Z) ks -> (sumZ ks <= 1000000)%Z -> (Z.of_nat (length ks) <= 10000)%Z ->
  Page.round2 (foldl PrimFloat.add 0%float (hundredths <$> ks)) = hundredths (sumZ ks).
Proof.
  intros Hall Hs Hlen.
  destruct (Z.eq_dec (sumZ ks) 0%Z) as [H0|Hnz].
  - rewrite H0, (foldl_zero_hundredths ks (sumZ_nonneg_zero ks Hall H0)).
    vm_compute. reflexivity.
  - assert (A0 : approx 0%float 0 0).
    { change 0%float with (Z2F 0). apply (approx_Z2F 0). simpl. lia. }
    assert (HsR : IZR (sumZ ks) <= 1000000) by (apply IZR_le; exact Hs).
    assert (HlR : INR (length ks) <= 10000).
    { rewrite INR_IZR_INZ. apply IZR_le. exact Hlen. }
    assert (Hn : 0 <= INR (length ks)) by apply pos_INR.
    pose proof (sum_hundredths ks 0%float 0 0 A0 ltac:(lra) ltac:(lra) Hall
                  ltac:(lra) ltac:(lra)) as A.
    rewrite Rplus_0_l in A.
    apply approx_weaken with (e' := / 1000000) in A; [|lra].
    assert (0 <= sumZ ks)%Z.
    { clear -Hall. induction Hall as [|a l Ha _ IHl]; [cbn; lia|]. rewrite sumZ_cons. lia. }
    apply (round2_near _ (sumZ ks) _ A); [lia|lra|exact Hnz].
Qed.

(** The sum test on a two-decimal total: the tolerance of 0.01 lets nothing
    but 100.00 through, because 99.99 and 100.01 are further than the double
    0.01 from 100. *)
Lemma sum_test_on_hundredths (n : Z) : (0 <= n <= 1000000)%Z ->
  (Math_abs (hundredths n - 100) <=? 0.01)%float = true <-> n = 10000%Z.
Proof.
  intros Hn. split; [|intros ->; vm_compute; reflexivity].
  intros H.
  destruct (Z.eq_dec n 9999%Z) as [->|H1]; [vm_compute in H; discriminate H|].
  destruct (Z.eq_dec n 10001%Z) as [->|H2]; [vm_compute in H; discriminate H|].
  destruct (Z.eq_dec n 10000%Z) as [|H3]; [assumption|exfalso].
  pose proof (approx_hundredths_wide n ltac:(lia)) as An.
  assert (Hfar : 2 <= Rabs (IZR n - 10000)).
  { rewrite <- minus_IZR, <- abs_IZR. apply IZR_le. lia. }
  assert (HnR : 0 <= IZR n <= 1000000) by (split; apply IZR_le; lia).
  assert (HB : Rabs (IZR n / 100 - 100) <= 10000) by (apply Rabs_le; lra).
  pose proof (approx_sub _ _ _ _ _ _ 10000 An approx_100 HB ltac:(lra)) as [Fd Ed].
  destruct (abs_R _ Fd) as [Fa Ra].
  assert (F1 : fin 0.01%float) by reflexivity.
  apply (leb_R _ _ Fa F1) in H. rewrite Ra in H.
  assert (R1 : FR 0.01%float <= / 64).
  { unfold FR. replace (Prim2SF 0.01%float)
      with (S754_finite false 5764607523034235 (-59)) by reflexivity.
    rewrite SFR_finite. unfold sgn.
    change (-59)%Z with (-7 + -52)%Z. rewrite p2_add, p2_m52.
    change (-7)%Z with (0 - 7)%Z. rewrite p2_sub, (p2_IZR 7), (p2_IZR 0) by lia.
    change (2 ^ 7)%Z with 128%Z. change (2 ^ 0)%Z with 1%Z. lra. }
  assert (Hd : / 50 <= Rabs (IZR n / 100 - 100)).
  { replace (IZR n / 100 - 100) with ((IZR n - 10000) / 100) by field.
    unfold Rdiv. rewrite Rabs_mult, (Rabs_pos_eq (/ 100)) by lra. lra. }
  revert Ed H Hd. generalize (FR (hundredths n - 100)%float) (IZR n / 100 - 100).
  intros d v Ed H Hd.
  assert (Rabs v <= Rabs d + Rabs (d - v)).
  { replace v with (d - (d - v)) at 1 by ring. eapply Rle_trans; [apply Rabs_triang|].
    rewrite Rabs_Ropp. lra. }
  lra.
Qed.

Lemma sumZ_nonneg (ks : list Z) : Forall (fun k => (0 <= k)%Z) ks -> (0 <= sumZ ks)%Z.
Proof.
  induction 1 as [|a l Ha _ IHl]; [cbn; lia|]. rewrite sumZ_cons. lia.
Qed.

(** Rows that hold non-negative two-decimal percentages. *)
Lemma two_decimal_rows (rows : list Page.SettlementMemberRow) (ks : list Z) :
  Forall2 (fun r k => Page.cutPercent r = hundredths k /\ (0 <= k)%Z) rows ks ->
  (sumZ ks <= 1000000)%Z -> (Z.of_nat (length rows) <= 10000)%Z ->
  Page.totalCuts rows = hundredths (sumZ ks) /\ (0 <= sumZ ks)%Z /\
  existsb (fun r => (Page.cutPercent r <? 0)%float) rows = false.
Proof.
  intros H2 Hs Hlen.
  assert (Hks : Page.cutPercent <$> rows = hundredths <$> ks).
  { clear -H2. induction H2 as [|r k rows ks [Hr _] _ IH]; [reflexivity|].
    rewrite !fmap_cons, Hr, IH. reflexivity. }
  assert (Hall : Forall (fun k => (0 <= k)%Z) ks).
  { clear -H2. induction H2 as [|r k rows ks [_ Hk] _ IH]; constructor; assumption. }
  assert (Hl : length ks = length rows) by (symmetry; exact (Forall2_length _ _ _ H2)).
  pose proof (sumZ_nonneg ks Hall) as Hsum0.
  assert (Hrows : Forall (fun r => fin (Page.cutPercent r) /\
                                   (Page.cutPercent r <? 0)%float = false) rows).
  { clear -H2 Hs. revert Hs.
    induction H2 as [|r k rows ks [Hr Hk] H2 IH]; intros Hs; [constructor|].
    rewrite sumZ_cons in Hs.
    assert (Hrest : (0 <= sumZ ks)%Z).
    { apply sumZ_nonneg. clear -H2.
      induction H2 as [|a b l l' [_ Hb] _ IHl]; constructor; assumption. }
    constructor; [|apply IH; lia].
    rewrite Hr. split; [apply fin_hundredths|apply hundredths_nonneg]; lia. }
  split; [|split; [exact Hsum0|]].
  - unfold Page.totalCuts. rewrite foldl_cutPercent_finite, Hks.
    + apply total_of_hundredths; [exact Hall|exact Hs|lia].
    + eapply Forall_impl; [exact Hrows|]. intros r [Hf _]. exact Hf.
  - apply existsb_Forall_false. eapply Forall_impl; [exact Hrows|]. intros r [_ Hn]. exact Hn.
Qed.

(** X17: for rows holding non-negative two-decimal percentages (at most
    10000 rows, summing to at most 10000.00), the total shown is exactly the
    double of the decimal sum, and the sum test passes if and only if the
    percentages add up to exactly 100.00: the tolerance of 0.01 in the test
    admits neither 99.99 nor 100.01. *)
Theorem sum_test_is_exact (rows : list Page.SettlementMemberRow) (ks : list Z) :
  Forall2 (fun r k => Page.cutPercent r = hundredths k /\ (0 <= k)%Z) rows ks ->
  (sumZ ks <= 1000000)%Z -> (Z.of_nat (length rows) <= 10000)%Z ->
  Page.totalCuts rows = hundredths (sumZ ks) /\
  (Page.cutsValid rows = true <-> sumZ ks = 10000%Z).
Proof.
  intros H2 Hs Hlen.
  destruct (two_decimal_rows rows ks H2 Hs Hlen) as (Ht & Hs0 & _).
  split; [exact Ht|]. unfold Page.cutsValid. rewrite Ht.
  apply sum_test_on_hundredths. lia.
Qed.

Lemma sum_test_is_exact_witness :
  Forall2 (fun r k => Page.cutPercent r = hundredths k /\ (0 <= k)%Z)
    [rowOf "a" (hundredths 6000); rowOf "b" (hundredths 3999)] [6000; 3999]%Z /\
  (sumZ [6000; 3999] <= 1000000)%Z /\
  Page.totalCuts [rowOf "a" (hundredths 6000); rowOf "b" (hundredths 3999)]
    = hundredths (sumZ [6000; 3999]%Z).
Proof.
  assert (H1 : Forall2 (fun r k => Page.cutPercent r = hundredths k /\ (0 <= k)%Z)
    [rowOf "a" (hundredths 6000); rowOf "b" (hundredths 3999)] [6000; 3999]%Z).
  { repeat constructor; simpl; lia. }
  assert (H2 : (sumZ [6000; 3999] <= 1000000)%Z) by (vm_compute; discriminate).
  split; [exact H1|]. split; [exact H2|].
  apply (sum_test_is_exact _ _ H1 H2). simpl. lia.
Defined.

(** X18: for an editor of a loaded tour whose rows hold non-negative
    two-decimal percentages, [saveCuts] sends the cuts to the store if and
    only if the percentages add up to exactly 100.00. *)
Theorem save_iff_sum_is_100 (st : Page.PageState) (tour : string) (ks : list Z) :
  truthy_string (Page.tourId st) = Some tour -> Page.canEdit st = true ->
  Forall2 (fun r k => Page.cutPercent r = hundredths k /\ (0 <= k)%Z) (Page.rows st) ks ->
  (sumZ ks <= 1000000)%Z -> (Z.of_nat (length (Page.rows st)) <= 10000)%Z ->
  (exists st' payload, Page.saveCuts st = Page.Upsert st' payload) <-> sumZ ks = 10000%Z.
Proof.
  intros Ht He H2 Hs Hlen.
  destruct (two_decimal_rows _ ks H2 Hs Hlen) as (Htot & Hs0 & Hneg).
  assert (Hv : Page.cutsValid (Page.rows st) = true <-> sumZ ks = 10000%Z).
  { unfold Page.cutsValid. rewrite Htot. apply sum_test_on_hundredths. lia. }
  unfold Page.saveCuts. rewrite Ht, He. cbn [negb Page.with_status Page.rows].
  rewrite Hneg. rewrite <- Hv.
  destruct (Page.cutsValid (Page.rows st)); cbn [negb]; split.
  - reflexivity.
  - intros _. eexists _, _. reflexivity.
  - intros (st' & payload & H). discriminate H.
  - discriminate.
Qed.

Lemma save_iff_sum_is_100_witness :
  Forall2 (fun r k => Page.cutPercent r = hundredths k /\ (0 <= k)%Z)
    (Page.rows (sample_state [rowOf "a" (hundredths 6000); rowOf "b" (hundredths 4000)]))
    [6000; 4000]%Z /\
  exists st' payload,
    Page.saveCuts (sample_state [rowOf "a" (hundredths 6000); rowOf "b" (hundredths 4000)])
    = Page.Upsert st' payload.
Proof.
  assert (H1 : Forall2 (fun r k => Page.cutPercent r = hundredths k /\ (0 <= k)%Z)
    (Page.rows (sample_state [rowOf "a" (hundredths 6000); rowOf "b" (hundredths 4000)]))
    [6000; 4000]%Z).
  { repeat constructor; simpl; lia. }
  split; [exact H1|].
  apply (proj2 (save_iff_sum_is_100
                  (sample_state [rowOf "a" (hundredths 6000); rowOf "b" (hundredths 4000)])
                  "tour-1"%string [6000; 4000]%Z eq_refl eq_refl H1
                  ltac:(vm_compute; discriminate) ltac:(simpl; lia))).
  reflexivity.
Defined.

End SumTest.

Section Fairness.
#[local] Open Scope R_scope.

Lemma equal_split_spread (c : Z) : (1 <= c < 2 ^ 32)%Z ->
  exists Nb Nl : Z,
    Page.makeEqualSplits c = replicate (Z.to_nat c - 1) (hundredths Nb) ++ [hundredths Nl] /\
    (Z.abs Nb <= 1000000)%Z /\ (Z.abs Nl <= 1000000)%Z /\ (2 * Z.abs (Nl - Nb) <= c)%Z.
Proof.
  intros Hc.
  destruct (equal_split_shape c Hc) as (Nb & Nl & Hs & HNb & HNl & Hsum & Hcase & _ & Hnear).
  exists Nb, Nl. split; [exact Hs|]. split; [lia|]. split; [lia|].
  destruct Hcase as [->|Hle].
  { assert (Hc0 : 1 <= IZR c) by (apply IZR_le; lia).
    assert (Hq : IZR c * (10000 / IZR c) = 10000) by (field; lra).
    rewrite Rabs_minus_sym, Rminus_0_r in Hnear. apply Rabs_le_inv in Hnear.
    assert (Hge : 19999 < IZR c).
    { destruct (Rlt_le_dec 19999 (IZR c)) as [H|H]; [exact H|exfalso].
      assert (0 < 10000 / IZR c) by (apply Rdiv_lt_0_compat; lra).
      assert (IZR c * (10000 / IZR c) <= 19999 * (/ 2 + / 1000000)).
      { apply Rmult_le_compat; lra. }
      lra. }
    apply lt_IZR in Hge. lia. }
  assert (Hc1 : 1 <= IZR c <= 20000) by (split; apply IZR_le; lia).
  assert (Hq : IZR c * (10000 / IZR c) = 10000) by (field; lra).
  assert (Hd : IZR (Nl - Nb) = IZR c * (10000 / IZR c - IZR Nb)).
  { replace (Nl - Nb)%Z with (10000 - c * Nb)%Z by lia.
    rewrite minus_IZR, mult_IZR. rewrite Rmult_minus_distr_l, Hq. reflexivity. }
  assert (Hb : Rabs (IZR (Nl - Nb)) <= IZR c * (/ 2 + / 1000000)).
  { rewrite Hd, Rabs_mult, (Rabs_pos_eq (IZR c)) by lra.
    apply Rmult_le_compat_l; [lra|]. rewrite Rabs_minus_sym. exact Hnear. }
  rewrite <- abs_IZR in Hb.
  assert (Hlt : IZR (2 * Z.abs (Nl - Nb)) < IZR (c + 1)).
  { rewrite mult_IZR, plus_IZR. lra. }
  apply lt_IZR in Hlt. lia.
Qed.

(** X19: the equal split is fair up to the rounding remainder: for every
    member count (below [2^32]) any two shares differ by at most count / 2
    hundredths of a percent. *)
Theorem equal_split_is_fair (count : Z) (p q : float) : (1 <= count < 2 ^ 32)%Z ->
  p ∈ Page.makeEqualSplits count -> q ∈ Page.makeEqualSplits count ->
  (2 * Z.abs (to_hundredths p - to_hundredths q) <= count)%Z.
Proof.
  intros Hc Hp Hq.
  destruct (equal_split_spread count Hc) as (Nb & Nl & Hs & HNb & HNl & Hd).
  rewrite Hs in Hp, Hq.
  assert (Hcases : forall x, x ∈ replicate (Z.to_nat count - 1) (hundredths Nb) ++ [hundredths Nl] ->
                             to_hundredths x = Nb \/ to_hundredths x = Nl).
  { intros x Hx. apply elem_of_app in Hx. destruct Hx as [Hx|Hx].
    - apply elem_of_replicate in Hx. destruct Hx as [-> _].
      left. apply cents_of_hundredths. exact HNb.
    - apply list_elem_of_singleton in Hx. subst x.
      right. apply cents_of_hundredths. exact HNl. }
  destruct (Hcases p Hp) as [-> | ->], (Hcases q Hq) as [-> | ->]; lia.
Qed.

Lemma equal_split_is_fair_witness :
  (1 <= 7 < 2 ^ 32)%Z /\
  (2 * Z.abs (to_hundredths 14.29 - to_hundredths 14.26) <= 7)%Z.
Proof.
  split; [lia|].
  apply (equal_split_is_fair 7 14.29%float 14.26%float); [lia| |].
  - let l := eval vm_compute in (Page.makeEqualSplits 7) in
    change (Page.makeEqualSplits 7) with l.
    apply list_elem_of_here.
  - let l := eval vm_compute in (Page.makeEqualSplits 7) in
    change (Page.makeEqualSplits 7) with l.
    do 6 apply list_elem_of_further. apply list_elem_of_here.
Defined.

End Fairness.

Section MoneyCells.
#[local] Open Scope R_scope.

Lemma Math_round_fin y : fin (Math_round y) -> fin y.
Proof.
  unfold fin, Math_round.
  destruct (Prim2SF y) as [s|s| |s m e] eqn:Hy; try (rewrite Hy; discriminate); reflexivity.
Qed.

Lemma Math_round_integral y : fin (Math_round y) -> integral (Math_round y).
Proof.
  intros Hf. destruct (Math_round_R y (Math_round_fin y Hf)) as (N & HfN & HRN & HZ & _).
  split; [exact HfN|]. rewrite HZ. exact HRN.
Qed.

Lemma p2_400_big : 1000000000000000000 <= p2 400.
Proof.
  apply Rle_trans with (p2 60); [|apply p2_le; lia].
  rewrite p2_IZR by lia. change (2 ^ 60)%Z with 1152921504606846976%Z. lra.
Qed.

(** A whole amount of minor units divided by 100 for a money cell can be
    read back: times 100 and rounded it is the amount again. *)
Lemma cell_round_trip x (k : Z) : fin x -> FR x = IZR k -> (Z.abs k <= 10 ^ 14)%Z ->
  F2Z (Math_round ((x / 100) * 100)%float) = k.
Proof.
  intros Hf HR Hk.
  assert (Ha : Rabs (IZR k) <= 100000000000000).
  { rewrite <- abs_IZR. apply IZR_le. exact Hk. }
  destruct approx_100 as [F100 _]. pose proof FR_100 as R100.
  pose proof p2_tiny as Ht. pose proof p2_m52 as He.
  pose proof p2_400_big as H400. pose proof p2_m400 as Hm400. pose proof p2_900 as H900.
  destruct (div_R x 100%float Hf F100) as [Fq Eq].
  { rewrite HR. lra. }
  { rewrite R100, Rabs_pos_eq by lra. lra. }
  rewrite HR, R100, He in Eq.
  assert (Hq0 : Rabs (IZR k / 100) <= 1000000000000).
  { unfold Rdiv. rewrite Rabs_mult, (Rabs_pos_eq (/ 100)) by lra. lra. }
  set (q := FR (x / 100)%float) in *.
  assert (Eq' : Rabs (q - IZR k / 100) <= / 1000).
  { eapply Rle_trans; [exact Eq|]. lra. }
  assert (Hq : Rabs q <= 1000000000001).
  { replace q with (IZR k / 100 + (q - IZR k / 100)) by ring.
    eapply Rle_trans; [apply Rabs_triang|]. lra. }
  assert (Hq100 : Rabs (q * FR 100%float) <= 100000000000100).
  { rewrite R100, Rabs_mult, (Rabs_pos_eq 100) by lra. lra. }
  destruct (mul_R (x / 100)%float 100%float Fq F100) as [Fy Ey].
  { fold q. lra. }
  fold q in Ey. rewrite He in Ey.
  set (y := FR (x / 100 * 100)%float) in *.
  assert (Ey' : Rabs (y - q * FR 100%float) <= / 40).
  { eapply Rle_trans; [exact Ey|]. lra. }
  rewrite R100 in Ey'.
  assert (Eq100 : Rabs (q * 100 - IZR k) <= / 40).
  { replace (q * 100 - IZR k) with ((q - IZR k / 100) * 100) by field.
    rewrite Rabs_mult, (Rabs_pos_eq 100) by lra.
    assert (Rabs (q - IZR k / 100) <= / 4503599627370496 * 1000000000000 + / 1000000) by lra.
    lra. }
  assert (A : approx (x / 100 * 100)%float (IZR k) (/ 20)).
  { split; [exact Fy|]. fold y.
    replace (y - IZR k) with ((y - q * 100) + (q * 100 - IZR k)) by ring.
    eapply Rle_trans; [apply Rabs_triang|]. lra. }
  destruct (approx_round _ _ _ k 0 A ltac:(rewrite Rminus_diag, Rabs_R0; lra) ltac:(lra))
    as (_ & _ & HZ).
  exact HZ.
Qed.

(** X20: the payout cell of the Settlement sheet holds payout / 100 as a
    double, and no minor unit is lost by it: for a finite payout of at most
    [10^14] minor units in absolute value, the cell times 100, rounded, is
    the payout again. *)
Theorem payout_cell_keeps_cents D members cuts (i : nat) (l : FinanceExport.PayoutLine) :
  FinanceExport.payoutLines D members cuts !! i = Some l ->
  fin (FinanceExport.l_payoutCents l) ->
  (Z.abs (F2Z (FinanceExport.l_payoutCents l)) <= 10 ^ 14)%Z ->
  integral (FinanceExport.l_payoutCents l) /\
  F2Z (Math_round (FinanceExport.l_payoutCell l * 100)%float)
    = F2Z (FinanceExport.l_payoutCents l).
Proof.
  intros Hl Hf Hb. unfold FinanceExport.payoutLines in Hl.
  rewrite list_lookup_imap in Hl.
  destruct (members !! i) as [m|]; [|discriminate].
  cbn in Hl. injection Hl as <-.
  cbn [FinanceExport.l_payoutCents FinanceExport.l_payoutCell] in *.
  pose proof (Math_round_integral _ Hf) as Hi.
  split; [exact Hi|].
  destruct Hi as [_ HR]. apply cell_round_trip; assumption.
Qed.

Lemma payout_cell_keeps_cents_witness :
  exists l, FinanceExport.payoutLines 58501 [sample_ann; sample_bob] [] !! 0%nat = Some l /\
    (Z.abs (F2Z (FinanceExport.l_payoutCents l)) <= 10 ^ 14)%Z /\
    F2Z (Math_round (FinanceExport.l_payoutCell l * 100)%float)
      = F2Z (FinanceExport.l_payoutCents l).
Proof.
  eexists. split; [vm_compute; reflexivity|].
  split; [vm_compute; discriminate|].
  match goal with
  | |- context [FinanceExport.l_payoutCents ?r] =>
      refine (proj2 (payout_cell_keeps_cents 58501 [sample_ann; sample_bob] [] 0 r _ _ _));
        [vm_compute; reflexivity|reflexivity|vm_compute; discriminate]
  end.
Defined.

End MoneyCells.

Section SaveValidation.
#[local] Open Scope R_scope.








End SaveValidation.

Section InheritedIds.

Lemma inheritedKey_cases key : inheritedKey key = true -> key ∈ objectPrototypeKeys.
Proof.
  unfold inheritedKey. intros H. apply existsb_exists in H. destruct H as (x & Hin & Hx).
  apply String.eqb_eq in Hx. subst x. apply list_elem_of_In. exact Hin.
Qed.

(** The names of [Object.prototype] are none of the four columns of a cut
    row. *)
Lemma inheritedKey_no_field key c : inheritedKey key = true -> Page.inheritedField c key = None.
Proof.
  intros H. apply inheritedKey_cases in H. unfold objectPrototypeKeys in H.
  repeat (apply elem_of_cons in H; destruct H as [->|H]; [reflexivity|]).
  apply elem_of_nil in H. destruct H.
Qed.

(** X21: a member whose id names a property of [Object.prototype] and who
    has no cut record does not get the equal split.  The page finds the
    inherited member, which is truthy and has no percentage: it shows
    0 percent and no record id.  The export takes the inherited member for
    the percentage: both of its cells for the member hold NaN. *)
Theorem inherited_id_gets_no_share emails D members cuts i m :
  members !! i = Some m -> inheritedKey (bm_id m) = true ->
  Forall (fun c => band_member_id c <> Some (bm_id m)) cuts ->
  Page.cutPercent <$> (Page.nextRows emails members cuts !! i) = Some 0%float /\
  Page.cutId <$> (Page.nextRows emails members cuts !! i) = Some None /\
  FinanceExport.l_cutCell <$> (FinanceExport.payoutLines D members cuts !! i) = Some nan /\
  FinanceExport.l_payoutCell <$> (FinanceExport.payoutLines D members cuts !! i) = Some nan.
Proof.
  intros Hm Hk Hnone.
  assert (He : Page.entries (Page.cutByMemberId cuts) !! bm_id m = None).
  { destruct (Page.entries (Page.cutByMemberId cuts) !! bm_id m) as [c|] eqn:E; [|reflexivity].
    destruct (entries_elem _ _ _ E) as (Hin & Hid & _).
    rewrite Forall_forall in Hnone. destruct (Hnone c Hin Hid). }
  assert (Hget : Page.getCut (Page.cutByMemberId cuts) (bm_id m) = Page.FoundOther true).
  { unfold Page.getCut. destruct (String.eqb (bm_id m) "__proto__") eqn:E.
    - destruct (Page.prototype (Page.cutByMemberId cuts)) as [c|] eqn:P; [|reflexivity].
      destruct (prototype_elem _ _ P) as [Hin Hid]. apply String.eqb_eq in E.
      rewrite Forall_forall in Hnone. rewrite <- E in Hid. destruct (Hnone c Hin Hid).
    - rewrite He.
      destruct (Page.prototype (Page.cutByMemberId cuts)) as [c|]; cbn [mbind option_bind].
      + rewrite (inheritedKey_no_field _ c Hk), Hk. reflexivity.
      + rewrite Hk. reflexivity. }
  assert (Hobj : objectGet (FinanceExport.cutByMemberId cuts) (bm_id m) = Inherited).
  { unfold objectGet. destruct (String.eqb (bm_id m) "__proto__"); [reflexivity|].
    rewrite export_cutByMemberId, lookup_fmap, He, Hk. reflexivity. }
  split; [|split].
  - rewrite (nextRows_cutPercent _ _ _ _ _ Hm), Hget. reflexivity.
  - rewrite (nextRows_cutId _ _ _ _ _ Hm), Hget. reflexivity.
  - unfold FinanceExport.payoutLines. rewrite list_lookup_imap, Hm.
    cbn [fmap option_fmap option_map FinanceExport.l_cutCell FinanceExport.l_payoutCell].
    rewrite Hobj, nan_payout. split; reflexivity.
Qed.

Lemma inherited_id_gets_no_share_witness :
  Page.makeEqualSplits 2 !! 1%nat = Some 50%float /\
  Page.cutPercent <$> (Page.nextRows ∅ [sample_ann; sample_constructor] [sample_null_cut] !! 1%nat)
    = Some 0%float /\
  FinanceExport.l_cutCell
    <$> (FinanceExport.payoutLines 58500 [sample_ann; sample_constructor] [sample_null_cut]
           !! 1%nat)
    = Some nan.
Proof.
  split; [vm_compute; reflexivity|].
  destruct (inherited_id_gets_no_share ∅ 58500 [sample_ann; sample_constructor]
              [sample_null_cut] 1 sample_constructor) as (H1 & _ & H3 & _).
  - reflexivity.
  - reflexivity.
  - repeat constructor. discriminate.
  - split; [exact H1|exact H3].
Defined.

(** X22: for members without cut records, none of whose ids names a
    property of [Object.prototype] (and fewer than [2^32] of them, as in any
    array), the page shows the equal split in member order with no record
    id, and the export uses the same percentages. *)
Theorem default_rows_are_equal_split emails D members :
  (Z.of_nat (length members) < 2 ^ 32)%Z ->
  Forall (fun m => inheritedKey (bm_id m) = false) members ->
  Page.cutPercent <$> Page.nextRows emails members []
    = Page.makeEqualSplits (Z.of_nat (length members)) /\
  Page.cutId <$> Page.nextRows emails members [] = replicate (length members) None /\
  Page.bandMemberId <$> Page.nextRows emails members [] = bm_id <$> members /\
  FinanceExport.l_cutPercent <$> FinanceExport.payoutLines D members []
    = FinanceExport.makeEqualSplits (Z.of_nat (length members)).
Proof.
  intros _ Hids.
  assert (Hk : forall i m, members !! i = Some m -> inheritedKey (bm_id m) = false).
  { intros i m Hm. rewrite Forall_forall in Hids. apply Hids. apply list_elem_of_lookup. eauto. }
  set (splits := Page.makeEqualSplits (Z.of_nat (length members))).
  assert (Hlen : length splits = length members).
  { unfold splits. destruct members as [|m ms]; [reflexivity|].
    rewrite makeEqualSplits_unfold by (cbn [length]; lia).
    rewrite length_app, length_replicate. cbn [length]. lia. }
  assert (Hsplit : forall i m, members !! i = Some m -> exists p, splits !! i = Some p).
  { intros i m Hm. apply lookup_lt_Some in Hm.
    destruct (splits !! i) as [p|] eqn:Hp; [eauto|]. apply lookup_ge_None in Hp. lia. }
  split; [exact (equal_split_rows emails members Hids)|]. split; [|split].
  - apply list_eq. intros i. rewrite list_lookup_fmap.
    destruct (members !! i) as [m|] eqn:Hm.
    + pose proof (nextRows_cutId emails members [] i m Hm) as Hc.
      rewrite (getCut_plain [] _ (Hk i m Hm) eq_refl) in Hc.
      change (Page.entries (Page.cutByMemberId [])) with (∅ : gmap string CutRow) in Hc.
      rewrite lookup_empty in Hc. rewrite Hc. symmetry. apply lookup_replicate.
      split; [reflexivity|]. apply lookup_lt_Some in Hm. exact Hm.
    + unfold Page.nextRows. rewrite list_lookup_imap, Hm. cbn. symmetry.
      apply lookup_ge_None. rewrite length_replicate. apply lookup_ge_None in Hm. exact Hm.
  - apply nextRows_bandMemberId.
  - change (FinanceExport.makeEqualSplits (Z.of_nat (length members))) with splits.
    apply list_eq. intros i. rewrite list_lookup_fmap.
    destruct (members !! i) as [m|] eqn:Hm.
    + rewrite (payoutLines_cutPercent _ _ _ _ _ Hm), (objectGet_plain _ _ (Hk i m Hm)).
      change (FinanceExport.cutByMemberId []) with (∅ : gmap string float).
      rewrite lookup_empty.
      change (FinanceExport.makeEqualSplits (Z.of_nat (length members))) with splits.
      destruct (Hsplit i m Hm) as [p ->]. reflexivity.
    + unfold FinanceExport.payoutLines. rewrite list_lookup_imap, Hm. cbn. symmetry.
      apply lookup_ge_None. apply lookup_ge_None in Hm. lia.
Qed.

Lemma default_rows_are_equal_split_witness :
  Page.cutPercent <$> Page.nextRows ∅ [sample_ann; sample_bob; sample_ann] []
    = [33.33; 33.33; 33.34]%float /\
  FinanceExport.l_cutPercent <$> FinanceExport.payoutLines 58500 [sample_ann; sample_bob; sample_ann] []
    = [33.33; 33.33; 33.34]%float.
Proof.
  destruct (default_rows_are_equal_split ∅ 58500 [sample_ann; sample_bob; sample_ann])
    as (H1 & _ & _ & H4).
  - vm_compute. reflexivity.
  - repeat constructor.
  - split; [exact H1|exact H4].
Defined.

End InheritedIds.
